(** * The LAMMPS library interface (library.cpp): commands, atom count,
      atom gather / scatter, atom creation, data of computes, fixes and
      variables, error messages

    A shallow embedding of [lammps_get_natoms], [lammps_commands_list],
    [lammps_commands_string] with [concatenate_lines],
    [lammps_gather_atoms], [lammps_scatter_atoms],
    [lammps_extract_compute], [lammps_extract_fix],
    [lammps_extract_variable], [lammps_create_atoms], [lammps_has_error] and
    [lammps_get_last_error_message].

    Conventions of the embedding.
    - C arrays are lists; an access outside the array, a signed overflow in
      a size computation and a cast of a [void *] to a type the pointee does
      not have are undefined behaviour, rendered as [None] in the [option]
      monad.
    - [int] values are integers of [Z] inside the 32-bit signed range;
      [double] values are the binary64 floats of [PrimFloat].
    - One MPI process is one element of a list (the communicator); the rank
      of a process is its position in that list.
    - [BEGIN_CAPTURE] and [END_CAPTURE] expand to nothing unless
      [LAMMPS_EXCEPTIONS] is defined, and [Error::warning] returns: a call
      of it is an event of the trace.
    - A method of the engine whose code is not part of the sources at hand
      is a parameter of the function that calls it; what a statement takes
      of such a method is a hypothesis of that statement. *)

From Stdlib Require Import ZArith Ascii String PrimFloat.
From stdpp Require Import base list gmap strings pretty.

Local Open Scope Z_scope.

(** ** Machine integers *)

(** Modelled from the spec: [MAXSMALLINT] is a macro of lmptype.h, which is
    not part of the sources at hand; the spec calls it "a 32-bit signed
    bound", that is [INT_MAX]. *)
Definition MAXSMALLINT : Z := 2147483647.

Definition INT_MIN : Z := -2147483648.

Definition in_int (z : Z) : Prop := INT_MIN <= z <= MAXSMALLINT.

(** [static_cast<int>(z)] of a wider integer: reduction modulo 2^32 into the
    signed range. *)
Definition static_cast_int (z : Z) : Z := (z + 2 ^ 31) mod 2 ^ 32 - 2 ^ 31.

(** Signed [int] arithmetic; overflow is undefined. *)
Definition checked (z : Z) : option Z :=
  if decide (in_int z) then Some z else None.

Definition int_add (a b : Z) : option Z := checked (a + b).
Definition int_mul (a b : Z) : option Z := checked (a * b).

(** ** Arrays *)

Section arrays.
Context {A : Type}.

(** [a[i]] as an rvalue. *)
Definition load (a : list A) (i : Z) : option A :=
  if decide (0 <= i) then a !! Z.to_nat i else None.

(** [a[i] = v]. *)
Definition store (a : list A) (i : Z) (v : A) : option (list A) :=
  if decide (0 <= i < Z.of_nat (length a)) then Some (<[Z.to_nat i := v]> a)
  else None.

(** Overwrite [a[off .. off + |vs|)] with [vs]. *)
Definition overwrite (a : list A) (off : nat) (vs : list A) : list A :=
  take off a ++ vs ++ drop (off + length vs)%nat a.
End arrays.

(** ** Loops

    [for_loop k i body s] runs [body i], [body (i+1)], ... [k] times, threading
    the state [s]; [for_ n body s] is [for (i = 0; i < n; i++) body]. *)

Fixpoint for_loop {St : Type} (k : nat) (i : Z)
    (body : Z -> St -> option St) (s : St) : option St :=
  match k with
  | O => Some s
  | S k' => s' ← body i s; for_loop k' (i + 1) body s'
  end.

Definition for_ {St : Type} (n : Z) (body : Z -> St -> option St) (s : St)
    : option St :=
  for_loop (Z.to_nat n) 0 body s.

(** ** The engine as seen from the library interface *)

(** What a [void *] handed out by [Atom::extract], or handed in by the caller
    as [data], points to. *)
Inductive block :=
| ints (v : list Z)                    (* int *     *)
| int_rows (a : list (list Z))         (* int **    *)
| doubles (v : list float)             (* double *  *)
| double_rows (a : list (list float)). (* double ** *)

Definition as_ints (p : block) : option (list Z) :=
  match p with ints v => Some v | _ => None end.
Definition as_int_rows (p : block) : option (list (list Z)) :=
  match p with int_rows a => Some a | _ => None end.
Definition as_doubles (p : block) : option (list float) :=
  match p with doubles v => Some v | _ => None end.
Definition as_double_rows (p : block) : option (list (list float)) :=
  match p with double_rows a => Some a | _ => None end.

(** The members of [Atom] the interface reads.  atom.cpp is not part of the
    sources at hand: [tag_consecutive] is the value the call
    [atom->tag_consecutive()] returns, [map] is [atom->map(tag)] and
    [peratom] is the table behind [atom->extract(name)] ([NULL] when the name
    is not in it). *)
Module Atom.
Record t := mk {
  natoms : Z;                       (* bigint *)
  tag_enable : Z;
  tag_consecutive : Z;
  map_style : Z;
  nlocal : Z;
  tag : list Z;                     (* tagint * *)
  map : Z -> Z;
  peratom : gmap string block
}.

Definition extract (a : t) (name : string) : option block :=
  peratom a !! name.

Definition set_peratom (a : t) (name : string) (b : block) : t :=
  mk (natoms a) (tag_enable a) (tag_consecutive a) (map_style a)
     (nlocal a) (tag a) (map a) (<[name := b]> (peratom a)).
End Atom.

(** What a call leaves behind besides memory: warnings (with the rank that
    issued them), the collective reduction, and for the command interface the
    allocation, the hand-over to [lammps_commands_string] and the release. *)
Inductive event :=
| Warning (me : Z) (msg : string)
| Allreduce (n : Z)
| Smalloc (n : Z)
| Commands_string (str : list ascii)
| Sfree.

(** ** lammps_get_natoms *)

Definition lammps_get_natoms (atom : Atom.t) : Z :=
  if decide (Atom.natoms atom > MAXSMALLINT) then 0
  else static_cast_int (Atom.natoms atom).

(** ** lammps_commands_list *)

Definition NUL : ascii := "000"%char.
Definition newline : ascii := "010"%char.

(** [strlen s]: the number of characters before the first [NUL] of the
    character array [s]; undefined when nothing terminates it. *)
Fixpoint strlen (s : list ascii) : option Z :=
  match s with
  | [] => None
  | c :: s' => if decide (c = NUL) then Some 0 else Z.succ <$> strlen s'
  end.

(** The C string a character array holds. *)
Definition c_str (s : list ascii) : option (list ascii) :=
  n ← strlen s; Some (take (Z.to_nat n) s).

(** [strcpy(&dst[off], src)]: the characters of [src] and its terminator. *)
Definition strcpy (dst : list ascii) (off : Z) (src : list ascii)
    : option (list ascii) :=
  len ← strlen src;
  if decide (0 <= off /\ off + len + 1 <= Z.of_nat (length dst))
  then Some (overwrite dst (Z.to_nat off) (take (Z.to_nat (len + 1)) src))
  else None.

(** [smalloc(n)]: [n] characters of whatever the heap held ([uninit]). *)
Definition smalloc (uninit : nat -> ascii) (n : Z) : list ascii :=
  uninit <$> seq 0 (Z.to_nat n).

Definition lammps_commands_list (uninit : nat -> ascii) (ncmd : Z)
    (cmds : list (list ascii)) : option (list event) :=
  n ← int_add ncmd 1;
  n ← for_ ncmd (fun i n =>
        cmd ← load cmds i; len ← strlen cmd; int_add n len) n;
  let str := smalloc uninit n in
  str ← store str 0 NUL;
  r ← for_ ncmd (fun i '(str, n) =>
        cmd ← load cmds i;
        str ← strcpy str n cmd;
        len ← strlen cmd;
        let n := n + len in
        c ← load str (n - 1);
        if decide (c <> newline) then
          str ← store str n newline;
          str ← store str (n + 1) NUL;
          Some (str, n + 1)
        else Some (str, n)) (str, 0);
  line ← c_str r.1;
  Some [Smalloc n; Commands_string line; Sfree].

(** ** concatenate_lines, lammps_commands_string *)

(** [isspace] in the C locale: space, \t, \n, \v, \f, \r; no character
    beyond 127 is one of them. *)
Definition isspace (c : ascii) : bool :=
  bool_decide (c ∈ [" "; "009"; "010"; "011"; "012"; "013"]%char).

(** [strspn(s, "\n")]: the number of newlines [s] starts with. *)
Fixpoint strspn_newline (s : list ascii) : Z :=
  match s with
  | c :: s' => if decide (c = newline) then Z.succ (strspn_newline s') else 0
  | [] => 0
  end.

(** [strcspn(s, "\n")]: the number of characters before the first newline or
    the terminator of [s]; undefined when the array holds neither. *)
Fixpoint strcspn_newline (s : list ascii) : option Z :=
  match s with
  | [] => None
  | c :: s' =>
      if decide (c = newline \/ c = NUL) then Some 0
      else Z.succ <$> strcspn_newline s'
  end.

(** [strtok(str, "\n")] on the one character array [buf] all pointers of
    [lammps_commands_string] point into; a pointer is an index of [buf].
    [s] is where the scan starts: [str], or for [str == NULL] the position
    the previous call saved.  The result is the array, the token ([None] is
    [NULL]) and the position saved for the next call. *)
Definition strtok (buf : list ascii) (s : Z)
    : option (list ascii * option Z * Z) :=
  if decide (0 <= s) then
    let tok := s + strspn_newline (drop (Z.to_nat s) buf) in
    c ← load buf tok;
    if decide (c = NUL) then Some (buf, None, tok)
    else
      e ← strcspn_newline (drop (Z.to_nat tok) buf);
      let stop := tok + e in
      d ← load buf stop;
      if decide (d = NUL) then Some (buf, Some tok, stop)
      else buf ← store buf stop NUL; Some (buf, Some tok, stop + 1)
  else None.

(** [while (n && isspace(ptr[n])) n--;]  Every turn reads a smaller index of
    [buf], so [fuel] beyond the length of [buf] is never used up. *)
Fixpoint trim (fuel : nat) (buf : list ascii) (ptr n : Z) : option Z :=
  match fuel with
  | O => None
  | S fuel =>
      if decide (n = 0) then Some n
      else
        c ← load buf (ptr + n);
        if isspace c then trim fuel buf ptr (n - 1) else Some n
  end.

(** [while (ptr[n] == '&') { ... }] of [concatenate_lines].  Every turn
    turns one ampersand of [buf] into a space. *)
Fixpoint continue_lines (fuel : nat) (buf : list ascii) (ptr nend n saved : Z)
    : option (list ascii * Z) :=
  match fuel with
  | O => None
  | S fuel =>
      c ← load buf (ptr + n);
      if decide (c = "&"%char) then
        buf ← store buf (ptr + nend) " "%char;
        buf ← store buf (ptr + n) " "%char;
        r ← strtok buf ptr;
        let buf := r.1.1 in
        let saved := r.2 in
        nend ← strlen (drop (Z.to_nat ptr) buf);
        n ← trim (S (length buf)) buf ptr (nend - 1);
        continue_lines fuel buf ptr nend n saved
      else Some (buf, saved)
  end.

Definition concatenate_lines (buf : list ascii) (ptr saved : Z)
    : option (list ascii * Z) :=
  nend ← strlen (drop (Z.to_nat ptr) buf);
  n ← trim (S (length buf)) buf ptr (nend - 1);
  continue_lines (S (length buf)) buf ptr nend n saved.

(** [if (ptr) concatenate_lines(ptr);] *)
Definition concatenate_token (r : list ascii * option Z * Z)
    : option (list ascii * option Z * Z) :=
  match r.1.2 with
  | Some ptr => bs ← concatenate_lines r.1.1 ptr r.2; Some (bs.1, Some ptr, bs.2)
  | None => Some r
  end.

(** [while (ptr) { input->one(ptr); ptr = strtok(NULL,"\n"); ... }]: the
    lines handed to [Input::one], in order.  [Input::one] (input.cpp is not
    part of the sources at hand) is taken to leave the line it is given and
    the position [strtok] saved alone.  Every turn moves the saved position
    forward, so [fuel] beyond the length of [buf] is never used up. *)
Fixpoint one_by_one (fuel : nat) (buf : list ascii) (ptr : option Z)
    (saved : Z) : option (list (list ascii)) :=
  match ptr with
  | None => Some []
  | Some p =>
      match fuel with
      | O => None
      | S fuel =>
          line ← c_str (drop (Z.to_nat p) buf);
          r ← strtok buf saved;
          r ← concatenate_token r;
          rest ← one_by_one fuel r.1.1 r.1.2 r.2;
          Some (line :: rest)
      end
  end.

(** The result is the lines handed to [Input::one], in order.  [new char[n]]
    is [n] characters of whatever the heap held ([uninit]); a length of
    [str] that does not fit an [int] is left undefined. *)
Definition lammps_commands_string (uninit : nat -> ascii) (str : list ascii)
    : option (list (list ascii)) :=
  len ← strlen str;
  n ← int_add len 1;
  let copy := smalloc uninit n in
  copy ← strcpy copy 0 str;
  r ← strtok copy 0;
  r ← concatenate_token r;
  one_by_one (S (length copy)) r.1.1 r.1.2 r.2.

(** ** lammps_gather_atoms *)

(** [MPI_SUM] on [MPI_INT] and on [MPI_DOUBLE]. *)
Definition int_sum (a b : Z) : Z := static_cast_int (a + b).
Definition double_sum (a b : float) : float := PrimFloat.add a b.

(** The type == 0 branch up to the reduction: the staging vector [copy] of
    one process.  [memory->create] and the loop that zeroes [copy] are the
    [replicate]. *)
Definition gather_int (atom : Atom.t) (natoms count : Z) (vptr : block)
    : option (list Z) :=
  n ← int_mul count natoms;
  let copy := replicate (Z.to_nat n) 0 in
  let tag := Atom.tag atom in
  let nlocal := Atom.nlocal atom in
  if decide (count = 1) then
    vector ← as_ints vptr;
    for_ nlocal (fun i copy =>
      t ← load tag i; v ← load vector i; store copy (t - 1) v) copy
  else
    array ← as_int_rows vptr;
    for_ nlocal (fun i copy =>
      t ← load tag i;
      offset ← int_mul count (t - 1);
      snd <$> for_ count (fun j '(offset, copy) =>
        row ← load array i; v ← load row 0;
        copy ← store copy offset v;
        Some (offset + 1, copy)) (offset, copy)) copy.

(** The type != 0 branch up to the reduction. *)
Definition gather_double (atom : Atom.t) (natoms count : Z) (vptr : block)
    : option (list float) :=
  n ← int_mul count natoms;
  let copy := replicate (Z.to_nat n) 0%float in
  let tag := Atom.tag atom in
  let nlocal := Atom.nlocal atom in
  if decide (count = 1) then
    vector ← as_doubles vptr;
    for_ nlocal (fun i copy =>
      t ← load tag i; v ← load vector i; store copy (t - 1) v) copy
  else
    array ← as_double_rows vptr;
    for_ nlocal (fun i copy =>
      t ← load tag i;
      offset ← int_mul count (t - 1);
      snd <$> for_ count (fun j '(offset, copy) =>
        row ← load array i; v ← load row j;
        copy ← store copy offset v;
        Some (offset + 1, copy)) (offset, copy)) copy.

(** How far one process gets: it returns early, having issued [tr], or it
    enters [MPI_Allreduce] with its staging vector and the element count. *)
Inductive staged :=
| Returned (tr : list event)
| Reduces (copy : block) (n : Z).

Definition gather_stage (me : Z) (atom : Atom.t) (name : string)
    (type count : Z) : option staged :=
  let flag := 0 in
  let flag :=
    if decide (Atom.tag_enable atom = 0 \/ Atom.tag_consecutive atom = 0)
    then 1 else flag in
  let flag := if decide (Atom.natoms atom > MAXSMALLINT) then 1 else flag in
  if decide (flag <> 0) then
    Some (Returned
      (if decide (me = 0)
       then [Warning me "Library error in lammps_gather_atoms"] else []))
  else
    let natoms := static_cast_int (Atom.natoms atom) in
    match Atom.extract atom name with
    | None =>
        Some (Returned
          [Warning me "lammps_gather_atoms: unknown property name"])
    | Some vptr =>
        n ← int_mul count natoms;
        if decide (type = 0) then
          copy ← gather_int atom natoms count vptr; Some (Reduces (ints copy) n)
        else
          copy ← gather_double atom natoms count vptr;
          Some (Reduces (doubles copy) n)
    end.

Definition returned (s : staged) : option (list event) :=
  match s with Returned tr => Some tr | Reduces _ _ => None end.

Definition reduces (s : staged) : option (block * Z) :=
  match s with Returned _ => None | Reduces copy n => Some (copy, n) end.

(** [MPI_Allreduce(send, recv, n, type, MPI_SUM, world)] entered by every
    process of the communicator: each receive buffer gets, in its first [n]
    elements, the element-wise sum of the first [n] elements of the send
    buffers, taken in rank order.  The processes must agree on [n] and the
    buffers must hold [n] elements. *)
Definition MPI_Allreduce {V : Type} (op : V -> V -> V)
    (send : list (list V * Z)) (recv : list (list V))
    : option (list (list V)) :=
  match send with
  | [] => Some recv
  | (copy, n) :: others =>
      if decide (0 <= n
                 /\ Forall (fun s => s.2 = n /\ n <= Z.of_nat (length s.1)) send
                 /\ Forall (fun r => n <= Z.of_nat (length r)) recv)
      then
        let total :=
          foldl (zip_with op) (take (Z.to_nat n) copy)
                ((fun s => take (Z.to_nat n) s.1) <$> others) in
        Some ((fun r => overwrite r 0 total) <$> recv)
      else None
  end.

(** The send buffer of a process read at the element type of the reduction. *)
Definition typed_send {V : Type} (cast : block -> option (list V))
    (s : block * Z) : option (list V * Z) :=
  match cast s.1 with Some c => Some (c, s.2) | None => None end.

(** The reduction at one element type: the [void *] buffers are read at that
    type and the receive buffers are handed back. *)
Definition reduce_as {V : Type} (cast : block -> option (list V))
    (inj : list V -> block) (op : V -> V -> V)
    (send : list (block * Z)) (data : list block) : option (list block) :=
  match mapM (typed_send cast) send, mapM cast data with
  | Some send, Some recv =>
      match MPI_Allreduce op send recv with
      | Some out => Some (inj <$> out)
      | None => None
      end
  | _, _ => None
  end.

(** All processes of [world] call [lammps_gather_atoms] together, process
    [k] with the buffer [data !! k].  The result is the buffers after the
    call and what was issued.  When some processes return early and others
    enter the reduction, the call does not complete ([None]). *)
Definition lammps_gather_atoms (world : list Atom.t) (name : string)
    (type count : Z) (data : list block)
    : option (list block * list event) :=
  if decide (length data = length world) then
    stages ← mapM id
      (imap (fun k atom => gather_stage (Z.of_nat k) atom name type count)
            world);
    match mapM returned stages return option (list block * list event) with
    | Some trs => Some (data, concat trs)
    | None =>
        send ← mapM reduces stages;
        n ← snd <$> head send;
        out ← (if decide (type = 0)
               then reduce_as as_ints ints int_sum send data
               else reduce_as as_doubles doubles double_sum send data);
        Some (out, [Allreduce n])
    end
  else None.

(** ** lammps_scatter_atoms *)

Definition scatter_int (atom : Atom.t) (natoms count : Z)
    (vptr data : block) : option block :=
  dptr ← as_ints data;
  if decide (count = 1) then
    vector ← as_ints vptr;
    ints <$> for_ natoms (fun i vector =>
      let m := Atom.map atom (i + 1) in
      if decide (m >= 0) then v ← load dptr i; store vector m v
      else Some vector) vector
  else
    array ← as_int_rows vptr;
    int_rows <$> for_ natoms (fun i array =>
      let m := Atom.map atom (i + 1) in
      if decide (m >= 0) then
        offset ← int_mul count i;
        snd <$> for_ count (fun j '(offset, array) =>
          v ← load dptr offset;
          row ← load array m;
          row ← store row j v;
          array ← store array m row;
          Some (offset + 1, array)) (offset, array)
      else Some array) array.

Definition scatter_double (atom : Atom.t) (natoms count : Z)
    (vptr data : block) : option block :=
  dptr ← as_doubles data;
  if decide (count = 1) then
    vector ← as_doubles vptr;
    doubles <$> for_ natoms (fun i vector =>
      let m := Atom.map atom (i + 1) in
      if decide (m >= 0) then v ← load dptr i; store vector m v
      else Some vector) vector
  else
    array ← as_double_rows vptr;
    double_rows <$> for_ natoms (fun i array =>
      let m := Atom.map atom (i + 1) in
      if decide (m >= 0) then
        offset ← int_mul count i;
        snd <$> for_ count (fun j '(offset, array) =>
          v ← load dptr offset;
          row ← load array m;
          row ← store row j v;
          array ← store array m row;
          Some (offset + 1, array)) (offset, array)
      else Some array) array.

(** One process calls [lammps_scatter_atoms]: its atoms after the call and
    what it issued. *)
Definition scatter_rank (me : Z) (atom : Atom.t) (name : string)
    (type count : Z) (data : block) : option (Atom.t * list event) :=
  let flag := 0 in
  let flag :=
    if decide (Atom.tag_enable atom = 0 \/ Atom.tag_consecutive atom = 0)
    then 1 else flag in
  let flag := if decide (Atom.natoms atom > MAXSMALLINT) then 1 else flag in
  let flag := if decide (Atom.map_style atom = 0) then 1 else flag in
  if decide (flag <> 0) then
    Some (atom,
      if decide (me = 0)
      then [Warning me "Library error in lammps_scatter_atoms"] else [])
  else
    let natoms := static_cast_int (Atom.natoms atom) in
    match Atom.extract atom name with
    | None =>
        Some (atom,
          [Warning me "lammps_scatter_atoms: unknown property name"])
    | Some vptr =>
        b ← (if decide (type = 0)
             then scatter_int atom natoms count vptr data
             else scatter_double atom natoms count vptr data);
        Some (Atom.set_peratom atom name b, [])
    end.

(** All processes of [world] call [lammps_scatter_atoms], process [k] with
    the buffer [data !! k]. *)
Definition lammps_scatter_atoms (world : list Atom.t) (name : string)
    (type count : Z) (data : list block)
    : option (list Atom.t * list event) :=
  if decide (length data = length world) then
    rs ← mapM id
      (imap (fun k ad => scatter_rank (Z.of_nat k) ad.1 name type count ad.2)
            (zip world data));
    Some (rs.*1, concat rs.*2)
  else None.

(** ** lammps_extract_compute *)

(** The members of a [Compute] the interface reads, the methods it calls
    and the data it hands out pointers to.  compute.h is not part of the
    sources at hand: a call of a method is an event of the trace, what the
    method does to the compute is not modelled. *)
Module Compute.
Record t := mk {
  scalar_flag : Z;
  vector_flag : Z;
  array_flag : Z;
  peratom_flag : Z;
  local_flag : Z;
  invoked_scalar : Z;               (* bigint *)
  invoked_vector : Z;
  invoked_array : Z;
  invoked_peratom : Z;
  invoked_local : Z
}.

Inductive method :=
| compute_scalar | compute_vector | compute_array
| compute_peratom | compute_local.

Inductive entity :=
| scalar | vector | array
| vector_atom | array_atom
| vector_local | array_local.
End Compute.

(** [if (compute->invoked_... != lmp->update->ntimestep) compute->...();] *)
Definition invoke_if_stale (icompute invoked ntimestep : Z)
    (m : Compute.method) : list (Z * Compute.method) :=
  if decide (invoked <> ntimestep) then [(icompute, m)] else [].

(** [compute] is the array [modify->compute], [find_compute] the value the
    call [modify->find_compute(id)] returns, [ntimestep] is
    [update->ntimestep].  The result is the entity of the compute with index
    [icompute] a pointer to which is returned ([None] is [NULL]) and the
    methods called. *)
Definition lammps_extract_compute (compute : list Compute.t)
    (find_compute : string -> Z) (ntimestep : Z) (id : string)
    (style type : Z)
    : option (option (Z * Compute.entity) * list (Z * Compute.method)) :=
  let icompute := find_compute id in
  if decide (icompute < 0) then Some (None, [])
  else
    c ← load compute icompute;
    let local :=
      if decide (style = 2) then
        if decide (Compute.local_flag c = 0) then (None, [])
        else if decide (type = 1) then
          (Some (icompute, Compute.vector_local),
           invoke_if_stale icompute (Compute.invoked_local c) ntimestep
                           Compute.compute_local)
        else if decide (type = 2) then
          (Some (icompute, Compute.array_local),
           invoke_if_stale icompute (Compute.invoked_local c) ntimestep
                           Compute.compute_local)
        else (None, [])
      else (None, []) in
    let per_atom :=
      if decide (style = 1) then
        if decide (Compute.peratom_flag c = 0) then (None, [])
        else if decide (type = 1) then
          (Some (icompute, Compute.vector_atom),
           invoke_if_stale icompute (Compute.invoked_peratom c) ntimestep
                           Compute.compute_peratom)
        else if decide (type = 2) then
          (Some (icompute, Compute.array_atom),
           invoke_if_stale icompute (Compute.invoked_peratom c) ntimestep
                           Compute.compute_peratom)
        else local
      else local in
    if decide (style = 0) then
      if decide (type = 0) then
        if decide (Compute.scalar_flag c = 0) then Some (None, [])
        else Some (Some (icompute, Compute.scalar),
                   invoke_if_stale icompute (Compute.invoked_scalar c)
                                   ntimestep Compute.compute_scalar)
      else if decide (type = 1) then
        if decide (Compute.vector_flag c = 0) then Some (None, [])
        else Some (Some (icompute, Compute.vector),
                   invoke_if_stale icompute (Compute.invoked_vector c)
                                   ntimestep Compute.compute_vector)
      else if decide (type = 2) then
        if decide (Compute.array_flag c = 0) then Some (None, [])
        else Some (Some (icompute, Compute.array),
                   invoke_if_stale icompute (Compute.invoked_array c)
                                   ntimestep Compute.compute_array)
      else Some per_atom
    else Some per_atom.

(** ** lammps_extract_fix *)

(** The members of a [Fix] the interface reads.  fix.h is not part of the
    sources at hand: [compute_scalar], [compute_vector] and [compute_array]
    are the values the calls of these methods return. *)
Module Fix.
Record t := mk {
  scalar_flag : Z;
  vector_flag : Z;
  array_flag : Z;
  peratom_flag : Z;
  local_flag : Z;
  compute_scalar : float;
  compute_vector : Z -> float;
  compute_array : Z -> Z -> float
}.
End Fix.

(** [fix_] is the array [modify->fix], [find_fix] the value the call
    [modify->find_fix(id)] returns. *)
Module Modify.
Record t := mk {
  fix_ : list Fix.t;
  find_fix : string -> Z
}.
End Modify.

(** What [lammps_extract_fix] returns a pointer to: a block it took from the
    heap, or a member of the fix with index [ifix]. *)
Inductive entity :=
| allocated (k : nat)
| vector_atom (ifix : Z)
| array_atom (ifix : Z)
| vector_local (ifix : Z)
| array_local (ifix : Z).

(** The heap: the blocks [malloc] has handed out and nobody has freed.
    [malloc(sizeof(double))] adds a block of one double, [uninit] being what
    it holds; the allocation is taken to succeed. *)
Definition malloc_double (uninit : float) (heap : list (list float))
    : nat * list (list float) :=
  (length heap, heap ++ [[uninit]]).

(** The result is the pointer returned ([None] is [NULL]) and the heap. *)
Definition lammps_extract_fix (uninit : float) (modify : Modify.t)
    (heap : list (list float)) (id : string) (style type i j : Z)
    : option (option entity * list (list float)) :=
  let ifix := Modify.find_fix modify id in
  if decide (ifix < 0) then Some (None, heap)
  else
    fix_ ← load (Modify.fix_ modify) ifix;
    let local (heap : list (list float)) :=
      if decide (style = 2) then
        if decide (Fix.local_flag fix_ = 0) then (None, heap)
        else if decide (type = 1) then (Some (vector_local ifix), heap)
        else if decide (type = 2) then (Some (array_local ifix), heap)
        else (None, heap)
      else (None, heap) in
    let per_atom (heap : list (list float)) :=
      if decide (style = 1) then
        if decide (Fix.peratom_flag fix_ = 0) then (None, heap)
        else if decide (type = 1) then (Some (vector_atom ifix), heap)
        else if decide (type = 2) then (Some (array_atom ifix), heap)
        else local heap
      else local heap in
    if decide (style = 0) then
      let dptr := (malloc_double uninit heap).1 in
      let heap := (malloc_double uninit heap).2 in
      if decide (type = 0) then
        if decide (Fix.scalar_flag fix_ = 0) then Some (None, heap)
        else Some (Some (allocated dptr),
                   <[dptr := [Fix.compute_scalar fix_]]> heap)
      else if decide (type = 1) then
        if decide (Fix.vector_flag fix_ = 0) then Some (None, heap)
        else Some (Some (allocated dptr),
                   <[dptr := [Fix.compute_vector fix_ i]]> heap)
      else if decide (type = 2) then
        if decide (Fix.array_flag fix_ = 0) then Some (None, heap)
        else Some (Some (allocated dptr),
                   <[dptr := [Fix.compute_array fix_ i j]]> heap)
      else Some (per_atom heap)
    else Some (per_atom heap).

(** ** lammps_extract_variable *)

(** The calls into [Variable] ([lmp->input->variable]) and [Group], whose code is not part of the
    sources at hand: [find] is [variable->find(name)], [equalstyle] and
    [atomstyle] the values of the calls of these names, [compute_equal] the
    value [variable->compute_equal(ivar)] returns, [compute_atom ivar igroup
    vector] the array [vector] as [variable->compute_atom(ivar,igroup,
    vector,1,0)] leaves it, and [group_find] is [group->find(group)]. *)
Module Input_variable.
Record t := mk {
  find : string -> Z;
  equalstyle : Z -> Z;
  atomstyle : Z -> Z;
  compute_equal : Z -> float;
  compute_atom : Z -> Z -> list float -> list float;
  group_find : option string -> Z
}.
End Input_variable.

(** [malloc(n*sizeof(double))]: a block of [n] doubles is added to the heap,
    [uninit] being what it holds; the allocation is taken to succeed. *)
Definition malloc_doubles (uninit : float) (n : Z) (heap : list (list float))
    : nat * list (list float) :=
  (length heap, heap ++ [replicate (Z.to_nat n) uninit]).

(** The result is the block a pointer to which is returned ([None] is
    [NULL]) and the heap. *)
Definition lammps_extract_variable (uninit : float) (variable : Input_variable.t)
    (nlocal : Z) (heap : list (list float)) (name : string)
    (group : option string) : option nat * list (list float) :=
  let ivar := Input_variable.find variable name in
  if decide (ivar < 0) then (None, heap)
  else if decide (Input_variable.equalstyle variable ivar <> 0) then
    let dptr := (malloc_doubles uninit 1 heap).1 in
    let heap := (malloc_doubles uninit 1 heap).2 in
    (Some dptr, <[dptr := [Input_variable.compute_equal variable ivar]]> heap)
  else if decide (Input_variable.atomstyle variable ivar <> 0) then
    let igroup := Input_variable.group_find variable group in
    if decide (igroup < 0) then (None, heap)
    else
      let vector := (malloc_doubles uninit nlocal heap).1 in
      let heap := (malloc_doubles uninit nlocal heap).2 in
      (Some vector,
       <[vector := Input_variable.compute_atom variable ivar igroup
                     (replicate (Z.to_nat nlocal) uninit)]> heap)
  else (None, heap).

(** ** lammps_create_atoms *)

(** The members of [Domain] the interface reads.  domain.cpp is not part of
    the sources at hand: [ownatom tag xdata img shrinkexceed] is what the
    call [domain->ownatom(tag,xdata,img,shrinkexceed)] returns, with the
    coordinates [xdata] and the image flag [*img] as it leaves them ([img]
    is [None] for [NULL]). *)
Module Domain.
Record t := mk {
  box_exist : Z;
  ownatom : Z -> list float -> option Z -> Z -> Z * list float * option Z
}.
End Domain.

(** One process: its atoms, the members [v] and [image] of [Atom] beside
    them, and its domain. *)
Module LAMMPS.
Record t := mk {
  atom : Atom.t;
  atom_v : list (list float);       (* double ** *)
  atom_image : list Z;              (* imageint * *)
  domain : Domain.t
}.

Definition set_atom (lmp : t) (a : Atom.t) : t :=
  mk a (atom_v lmp) (atom_image lmp) (domain lmp).
Definition set_v (lmp : t) (v : list (list float)) : t :=
  mk (atom lmp) v (atom_image lmp) (domain lmp).
Definition set_image (lmp : t) (image : list Z) : t :=
  mk (atom lmp) (atom_v lmp) image (domain lmp).
End LAMMPS.

Definition set_tag (a : Atom.t) (tag : list Z) : Atom.t :=
  Atom.mk (Atom.natoms a) (Atom.tag_enable a) (Atom.tag_consecutive a)
          (Atom.map_style a) (Atom.nlocal a) tag (Atom.map a)
          (Atom.peratom a).

Definition set_natoms (a : Atom.t) (natoms : Z) : Atom.t :=
  Atom.mk natoms (Atom.tag_enable a) (Atom.tag_consecutive a)
          (Atom.map_style a) (Atom.nlocal a) (Atom.tag a) (Atom.map a)
          (Atom.peratom a).

(** How far one process gets in [lammps_create_atoms]: it returns early,
    having issued [tr], or it enters [MPI_Allreduce] with its count of
    atoms. *)
Inductive created :=
| Refused (tr : list event)
| Counted (lmp : LAMMPS.t) (image : option (list Z))
          (nlocal_prev nlocal natoms_prev : Z).

Definition refused (s : created) : option (list event) :=
  match s with Refused tr => Some tr | Counted _ _ _ _ _ => None end.

Definition counted (s : created)
    : option (LAMMPS.t * option (list Z) * (Z * Z * Z)) :=
  match s with
  | Refused _ => None
  | Counted lmp image nlocal_prev nlocal natoms_prev =>
      Some (lmp, image, (nlocal_prev, nlocal, natoms_prev))
  end.

(** [atom->v[nlocal][k] = val;] *)
Definition store_v (lmp : LAMMPS.t) (nlocal k : Z) (val : float)
    : option LAMMPS.t :=
  row ← load (LAMMPS.atom_v lmp) nlocal;
  row ← store row k val;
  v ← store (LAMMPS.atom_v lmp) nlocal row;
  Some (LAMMPS.set_v lmp v).

Section create_atoms.

(** Methods of the engine that are not part of the sources at hand, as
    functions of the process they act on: [atom->avec->create_atom],
    [atom->data_fix_compute_variable], [atom->map_init] and
    [atom->map_set]. *)
Variable create_atom : LAMMPS.t -> Z -> list float -> LAMMPS.t.
Variable data_fix_compute_variable : LAMMPS.t -> Z -> Z -> LAMMPS.t.
Variable map_init : LAMMPS.t -> LAMMPS.t.
Variable map_set : LAMMPS.t -> LAMMPS.t.

(** The loop over the [n] atoms.  The state is the process, the array
    [image] of the caller (which [ownatom] writes to through [img]) and
    [nlocal]. *)
Definition create_loop (n : Z) (id : option (list Z)) (type : list Z)
    (x : list float) (v : option (list float)) (shrinkexceed : Z)
    (s : LAMMPS.t * option (list Z) * Z)
    : option (LAMMPS.t * option (list Z) * Z) :=
  for_ n (fun i '(lmp, image, nlocal) =>
    i0 ← int_mul 3 i;
    x0 ← load x i0;
    i1 ← int_add i0 1;
    x1 ← load x i1;
    i2 ← int_add i0 2;
    x2 ← load x i2;
    img ← match image with
          | Some a => c ← load a i; Some (Some c)
          | None => Some None
          end;
    tag ← match id with Some a => load a i | None => Some (-1) end;
    let r := Domain.ownatom (LAMMPS.domain lmp) tag [x0; x1; x2] img
                            shrinkexceed in
    let xdata := r.1.2 in
    image ← match image, r.2 with
            | Some a, Some c => a ← store a i c; Some (Some a)
            | _, _ => Some image
            end;
    if decide (r.1.1 = 0) then Some (lmp, image, nlocal)
    else
      ty ← load type i;
      let lmp := create_atom lmp ty xdata in
      t ← match id with Some a => load a i | None => int_add i 1 end;
      tag ← store (Atom.tag (LAMMPS.atom lmp)) nlocal t;
      let lmp := LAMMPS.set_atom lmp (set_tag (LAMMPS.atom lmp) tag) in
      lmp ← match v with
            | Some a =>
                v0 ← load a i0;
                lmp ← store_v lmp nlocal 0 v0;
                v1 ← load a i1;
                lmp ← store_v lmp nlocal 1 v1;
                v2 ← load a i2;
                store_v lmp nlocal 2 v2
            | None => Some lmp
            end;
      lmp ← match image with
            | Some a =>
                c ← load a i;
                im ← store (LAMMPS.atom_image lmp) nlocal c;
                Some (LAMMPS.set_image lmp im)
            | None => Some lmp
            end;
      nlocal ← int_add nlocal 1;
      Some (lmp, image, nlocal)) s.

(** One process, up to the reduction. *)
Definition create_stage (me : Z) (lmp : LAMMPS.t) (n : Z)
    (id : option (list Z)) (type : list Z) (x : list float)
    (v : option (list float)) (image : option (list Z)) (shrinkexceed : Z)
    : option created :=
  let flag := 0 in
  let flag :=
    if decide (Domain.box_exist (LAMMPS.domain lmp) = 0) then 1 else flag in
  let flag :=
    if decide (Atom.tag_enable (LAMMPS.atom lmp) = 0) then 1 else flag in
  if decide (flag <> 0) then
    Some (Refused
      (if decide (me = 0)
       then [Warning me "Library error in lammps_create_atoms"] else []))
  else
    let nlocal := Atom.nlocal (LAMMPS.atom lmp) in
    let natoms_prev := Atom.natoms (LAMMPS.atom lmp) in
    let nlocal_prev := nlocal in
    r ← create_loop n id type x v shrinkexceed (lmp, image, nlocal);
    Some (Counted r.1.1 r.1.2 nlocal_prev r.2 natoms_prev).

(** The text [sprintf] composes for the warning. *)
Definition invalid_total (natoms expected : Z) : string :=
  "Library warning in lammps_create_atoms, invalid total atoms "
  +:+ pretty natoms +:+ " " +:+ pretty expected.

(** One process, from the reduction on; [natoms] is the sum it receives. *)
Definition create_finish (me n natoms : Z)
    (c : LAMMPS.t * option (list Z) * (Z * Z * Z))
    : LAMMPS.t * option (list Z) * list event :=
  let lmp := c.1.1 in
  let nlocal_prev := c.2.1.1 in
  let nlocal := c.2.1.2 in
  let natoms_prev := c.2.2 in
  let lmp := LAMMPS.set_atom lmp (set_natoms (LAMMPS.atom lmp) natoms) in
  let lmp := data_fix_compute_variable lmp nlocal_prev nlocal in
  let lmp :=
    if decide (Atom.map_style (LAMMPS.atom lmp) <> 0)
    then map_set (map_init lmp) else lmp in
  (lmp, c.1.2,
   if decide (Atom.natoms (LAMMPS.atom lmp) <> natoms_prev + n) then
     if decide (me = 0)
     then [Warning me (invalid_total (Atom.natoms (LAMMPS.atom lmp))
                                     (natoms_prev + n))]
     else []
   else []).

(** All processes of [world] call [lammps_create_atoms] with the same [n]
    atoms.  The result is, for each process, the process and the array
    [image] of its caller after the call, and what was issued.  When some
    processes return early and others enter the reduction, the call does not
    complete ([None]).  The sum of the counts is taken in [Z]. *)
Definition lammps_create_atoms (world : list LAMMPS.t) (n : Z)
    (id : option (list Z)) (type : list Z) (x : list float)
    (v : option (list float)) (image : option (list Z)) (shrinkexceed : Z)
    : option (list (LAMMPS.t * option (list Z)) * list event) :=
  stages ← mapM Datatypes.id
    (imap (fun k lmp =>
             create_stage (Z.of_nat k) lmp n id type x v image shrinkexceed)
          world);
  match mapM refused stages with
  | Some trs => Some ((fun lmp => (lmp, image)) <$> world, concat trs)
  | None =>
      counts ← mapM counted stages;
      let natoms := foldr Z.add 0 ((fun c => c.2.1.2) <$> counts) in
      let rs := imap (fun k c => create_finish (Z.of_nat k) n natoms c)
                     counts in
      Some (fst <$> rs, Allreduce 1 :: concat (snd <$> rs))
  end.

End create_atoms.

(** ** lammps_has_error, lammps_get_last_error_message

    These two exist when [LAMMPS_EXCEPTIONS] is defined. *)

(** The members of [Error] behind [get_last_error()],
    [get_last_error_type()] and [set_last_error()].  error.cpp is not part of
    the sources at hand: the three calls are taken to read and to write a
    message ([None] is [NULL]) and its type. *)
Module Error.
Record t := mk {
  last_error : option (list ascii);   (* char * *)
  last_error_type : Z                 (* ErrorType *)
}.

Definition get_last_error (e : t) : option (list ascii) := last_error e.
Definition get_last_error_type (e : t) : Z := last_error_type e.
Definition set_last_error (e : t) (msg : option (list ascii)) (type : Z) : t :=
  mk msg type.
End Error.

Definition lammps_has_error (error : Error.t) : Z :=
  match Error.get_last_error error with Some _ => 1 | None => 0 end.

(** The [n] characters [strncpy] writes: those of [src] up to its
    terminator, then [NUL]s; no terminator when [src] has [n] characters or
    more. *)
Fixpoint strncpy_chars (n : nat) (src : list ascii) : option (list ascii) :=
  match n with
  | O => Some []
  | S n' =>
      match src with
      | [] => None
      | c :: src' =>
          if decide (c = NUL) then Some (replicate (S n') NUL)
          else cs ← strncpy_chars n' src'; Some (c :: cs)
      end
  end.

(** [strncpy(dst, src, n)], [n] being a [size_t]: a negative [int] arrives
    as a number beyond the size of any array. *)
Definition strncpy (dst src : list ascii) (n : Z) : option (list ascii) :=
  if decide (0 <= n <= Z.of_nat (length dst)) then
    cs ← strncpy_chars (Z.to_nat n) src; Some (overwrite dst 0 cs)
  else None.

(** The result is the value returned, the buffer and the error state.
    [ERROR_NONE] is a constant of error.h. *)
Definition lammps_get_last_error_message (ERROR_NONE : Z) (error : Error.t)
    (buffer : list ascii) (buffer_size : Z)
    : option (Z * list ascii * Error.t) :=
  match Error.get_last_error error with
  | Some msg =>
      let error_type := Error.get_last_error_type error in
      n ← int_add buffer_size (-1);
      buffer ← strncpy buffer msg n;
      Some (error_type, buffer, Error.set_last_error error None ERROR_NONE)
  | None => Some (0, buffer, error)
  end.

(** ** Notions the statements below are phrased in *)

(** A command as it stands in the buffer: with a newline after it unless it
    ends in one. *)
Definition terminate_line (line : list ascii) : list ascii :=
  if decide (last line = Some newline) then line else line ++ [newline].

Definition total_length (lines : list (list ascii)) : Z :=
  foldr (fun line n => Z.of_nat (length line) + n) 0 lines.

(** The checks a process makes before it touches anything: gather refuses
    when tags are disabled, when they are not consecutive or when there are
    more atoms than an [int] counts; scatter refuses in these cases and when
    there is no atom map. *)
Definition gather_refuses (atom : Atom.t) : Prop :=
  Atom.tag_enable atom = 0 \/ Atom.tag_consecutive atom = 0
  \/ Atom.natoms atom > MAXSMALLINT.

Definition scatter_refuses (atom : Atom.t) : Prop :=
  gather_refuses atom \/ Atom.map_style atom = 0.

(** *** The two element types

    The integer and the double branch of gather and of scatter are the same
    loops at two element types, but for one place: where the double branch
    of gather reads [array[i][j]], the integer branch reads [array[i][0]].
    [column] is that index. *)
Inductive kind := MPI_INT | MPI_DOUBLE.

Definition kind_of (type : Z) : kind :=
  if decide (type = 0) then MPI_INT else MPI_DOUBLE.

Definition carrier (K : kind) : Type :=
  match K with MPI_INT => Z | MPI_DOUBLE => float end.

Definition zero (K : kind) : carrier K :=
  match K with MPI_INT => 0 | MPI_DOUBLE => 0%float end.

Definition sum (K : kind) : carrier K -> carrier K -> carrier K :=
  match K with MPI_INT => int_sum | MPI_DOUBLE => double_sum end.

Definition vector_of (K : kind) : block -> option (list (carrier K)) :=
  match K with MPI_INT => as_ints | MPI_DOUBLE => as_doubles end.

Definition array_of (K : kind) : block -> option (list (list (carrier K))) :=
  match K with MPI_INT => as_int_rows | MPI_DOUBLE => as_double_rows end.

Definition buffer (K : kind) : list (carrier K) -> block :=
  match K with MPI_INT => ints | MPI_DOUBLE => doubles end.

Definition rows (K : kind) : list (list (carrier K)) -> block :=
  match K with MPI_INT => int_rows | MPI_DOUBLE => double_rows end.

Definition column (K : kind) (j : Z) : Z :=
  match K with MPI_INT => 0 | MPI_DOUBLE => j end.

(** A value the reduction hands through unchanged when all other processes
    contribute zero.  Every [int] is such a value; every double is, except
    the negative zero. *)
Definition exact (K : kind) (v : carrier K) : Prop :=
  sum K (zero K) v = v /\ sum K v (zero K) = v.

Section staging.
Context {V : Type} (zero : V) (op : V -> V -> V).

(** The loops of gather that fill [copy], at any element type; [sel j] is
    the column read for component [j]. *)
Definition stage_vector (tag : list Z) (nlocal : Z) (vector copy : list V)
    : option (list V) :=
  for_ nlocal (fun i copy =>
    t ← load tag i; v ← load vector i; store copy (t - 1) v) copy.

Definition stage_array (sel : Z -> Z) (tag : list Z) (nlocal count : Z)
    (array : list (list V)) (copy : list V) : option (list V) :=
  for_ nlocal (fun i copy =>
    t ← load tag i;
    offset ← int_mul count (t - 1);
    snd <$> for_ count (fun j '(offset, copy) =>
      row ← load array i; v ← load row (sel j);
      copy ← store copy offset v;
      Some (offset + 1, copy)) (offset, copy)) copy.

(** What an atom with per-atom values [row] puts into the staging vector. *)
Definition contribution (sel : Z -> Z) (count : Z) (row : list V) : list V :=
  (fun j => default zero (row !! Z.to_nat (sel j))) <$> seqZ 0 count.

(** The staging vector as a function of the atoms of a process, each a tag
    with the values it contributes: a vector of [n] zeros, overwritten atom
    by atom at [count * (tag - 1)]. *)
Definition staging (n count : Z) (items : list (Z * list V)) : list V :=
  foldl (fun copy it => overwrite copy (Z.to_nat (count * (it.1 - 1))) it.2)
        (replicate (Z.to_nat n) zero) items.

(** The value the atoms [items] put at offset [o], if any does; of two that
    do, the later one. *)
Fixpoint lookup_items (count : Z) (items : list (Z * list V)) (o : Z)
    : option V :=
  match items with
  | [] => None
  | it :: rest =>
      match lookup_items count rest o with
      | Some v => Some v
      | None =>
          if decide (count * (it.1 - 1) <= o < count * it.1)
          then it.2 !! Z.to_nat (o - count * (it.1 - 1)) else None
      end
  end.

(** The atoms of a process as the loops meet them: the first [nlocal] tags
    with what the first [nlocal] rows of the field contribute. *)
Definition staged_items (sel : Z -> Z) (count nlocal : Z) (tag : list Z)
    (field : list (list V)) : list (Z * list V) :=
  (fun a => (a.1, contribution sel count a.2))
    <$> zip (take (Z.to_nat nlocal) tag) (take (Z.to_nat nlocal) field).

(** Atoms with tags in [1, natoms] and [count] values each. *)
Definition fits (count natoms : Z) (items : list (Z * list V)) : Prop :=
  Forall (fun it => 1 <= it.1 <= natoms /\ Z.of_nat (length it.2) = count)
         items.


(** The element-wise sum of one vector per process. *)
Definition reduce (copies : list (list V)) : list V :=
  match copies with [] => [] | c :: cs => foldl (zip_with op) c cs end.
End staging.

(** *** The atoms of a process and of a world *)

(** The field as one row of values per local slot: the array itself, or,
    when [count == 1], the vector with one value per row. *)
Definition field_rows (K : kind) (vptr : block) (count : Z)
    : option (list (list (carrier K))) :=
  if decide (count = 1)
  then fmap (M := list) (fun v => [v]) <$> vector_of K vptr
  else array_of K vptr.

(** The atoms a process owns, each its tag and its values of the field
    [name]: the first [nlocal] slots. *)
Definition local_atoms (K : kind) (atom : Atom.t) (name : string)
    (count : Z) : option (list (Z * list (carrier K))) :=
  vptr ← Atom.extract atom name;
  field ← field_rows K vptr count;
  if decide (0 <= Atom.nlocal atom
             /\ Atom.nlocal atom <= Z.of_nat (length (Atom.tag atom))
             /\ Atom.nlocal atom <= Z.of_nat (length field))
  then Some (zip (take (Z.to_nat (Atom.nlocal atom)) (Atom.tag atom))
                 (take (Z.to_nat (Atom.nlocal atom)) field))
  else None.

(** What the atoms contribute to the staging vector. *)
Definition contributions (K : kind) (count : Z)
    (atoms : list (Z * list (carrier K))) : list (Z * list (carrier K)) :=
  (fun a => (a.1, contribution (zero K) (column K) count a.2)) <$> atoms.

(** A process that passes the checks of gather and whose atoms [atoms] have
    tags in [1, natoms] and [count] values each, with [count * natoms]
    in the range of [int]. *)
Definition gather_ready (K : kind) (atom : Atom.t) (name : string)
    (count natoms : Z) (atoms : list (Z * list (carrier K))) : Prop :=
  ~ gather_refuses atom
  /\ Atom.natoms atom = natoms /\ 0 <= natoms
  /\ 1 <= count /\ count * natoms <= MAXSMALLINT
  /\ local_atoms K atom name count = Some atoms
  /\ Forall (fun a => 1 <= a.1 <= natoms
                      /\ count <= Z.of_nat (length a.2)) atoms.

(** Every process of [world] is ready, process [k] with the atoms
    [atoms !! k]. *)
Definition world_ready (K : kind) (world : list Atom.t) (name : string)
    (count natoms : Z) (atoms : list (list (Z * list (carrier K)))) : Prop :=
  Forall2 (fun atom its => gather_ready K atom name count natoms its)
          world atoms.

(** The buffers the callers hand in: of the element type of the call, with
    room for [n] elements. *)
Definition buffers_ready (K : kind) (n : Z) (data : list block)
    (recv : list (list (carrier K))) : Prop :=
  data = buffer K <$> recv /\ Forall (fun r => n <= Z.of_nat (length r)) recv.

(** The staging vector of a process with atoms [its]. *)
Definition staging_of (K : kind) (count natoms : Z)
    (its : list (Z * list (carrier K))) : list (carrier K) :=
  staging (zero K) (count * natoms) count (contributions K count its).

(** What the reduction delivers. *)
Definition gathered (K : kind) (count natoms : Z)
    (atoms : list (list (Z * list (carrier K)))) : list (carrier K) :=
  reduce (sum K) (staging_of K count natoms <$> atoms).

(** The values of the atoms are handed through by the reduction. *)
Definition exact_atoms (K : kind) (atoms : list (Z * list (carrier K)))
    : Prop :=
  Forall (fun a => Forall (exact K) a.2) atoms.

(** *** Scatter *)

Section scattering.
Context {V : Type}.

(** The loops of scatter, at any element type. *)
Definition unstage_vector (map : Z -> Z) (natoms : Z) (dptr vector : list V)
    : option (list V) :=
  for_ natoms (fun i vector =>
    let m := map (i + 1) in
    if decide (m >= 0) then v ← load dptr i; store vector m v
    else Some vector) vector.

Definition unstage_array (map : Z -> Z) (natoms count : Z) (dptr : list V)
    (array : list (list V)) : option (list (list V)) :=
  for_ natoms (fun i array =>
    let m := map (i + 1) in
    if decide (m >= 0) then
      offset ← int_mul count i;
      snd <$> for_ count (fun j '(offset, array) =>
        v ← load dptr offset;
        row ← load array m;
        row ← store row j v;
        array ← store array m row;
        Some (offset + 1, array)) (offset, array)
    else Some array) array.

(** The [count] values of the atom with tag [t] in a buffer ordered by
    tag. *)
Definition slice (count : Z) (dptr : list V) (t : Z) : list V :=
  take (Z.to_nat count) (drop (Z.to_nat (count * (t - 1))) dptr).

(** What scatter does for the tag [t]: nothing when the map does not
    resolve it, else the slice of [t] goes into the slot the map gives. *)
Definition scatter_step (map : Z -> Z) (count : Z) (dptr : list V)
    (field : list (list V)) (t : Z) : list (list V) :=
  if decide (map t >= 0) then
    match field !! Z.to_nat (map t) with
    | Some row =>
        <[Z.to_nat (map t) := overwrite row 0 (slice count dptr t)]> field
    | None => field
    end
  else field.

Definition scattered (map : Z -> Z) (count natoms : Z) (dptr : list V)
    (field : list (list V)) : list (list V) :=
  foldl (scatter_step map count dptr) field (seqZ 1 natoms).

(** The lengths of the rows: what the slots of a field can take. *)
Definition shape (field : list (list V)) : list nat := length <$> field.

(** Every tag the map resolves leads to a slot of the field with [count]
    values. *)
Definition slots_fit (map : Z -> Z) (count natoms : Z)
    (field : list (list V)) : Prop :=
  Forall (fun t => map t >= 0 ->
            exists row, field !! Z.to_nat (map t) = Some row
                        /\ count <= Z.of_nat (length row))
         (seqZ 1 natoms).
End scattering.

(** The field handed back to the engine: a vector when [count == 1]. *)
Definition field_block (K : kind) (count : Z)
    (field : list (list (carrier K))) : block :=
  if decide (count = 1)
  then buffer K ((fun row => default (zero K) (head row)) <$> field)
  else rows K field.

(** A process that passes the checks of scatter, with the field [field] and
    the buffer [dptr]. *)
Definition scatter_ready (K : kind) (atom : Atom.t) (name : string)
    (count natoms : Z) (field : list (list (carrier K)))
    (dptr : list (carrier K)) (data : block) : Prop :=
  ~ scatter_refuses atom
  /\ Atom.natoms atom = natoms /\ 0 <= natoms
  /\ 1 <= count /\ count * natoms <= MAXSMALLINT
  /\ (exists vptr, Atom.extract atom name = Some vptr
                   /\ field_rows K vptr count = Some field)
  /\ data = buffer K dptr /\ count * natoms <= Z.of_nat (length dptr)
  /\ slots_fit (Atom.map atom) count natoms field.

(** The atom map of a process resolves a tag in [1, natoms] only to the
    local slot, among the first [nlocal], that holds the atom with that
    tag. *)
Definition map_consistent (atom : Atom.t) (natoms : Z) : Prop :=
  Forall (fun t => Atom.map atom t >= 0 ->
            Atom.map atom t < Atom.nlocal atom
            /\ Atom.tag atom !! Z.to_nat (Atom.map atom t) = Some t)
         (seqZ 1 natoms).

(** *** A small world

    Two atoms, tags 1 and 2, with a charge [q], a position [x] and a triple
    of integers [i3] each.  [process] is a process with tags enabled and
    consecutive and an atom map. *)
Definition process (natoms nlocal : Z) (tag : list Z) (map : Z -> Z)
    (peratom : gmap string block) : Atom.t :=
  Atom.mk natoms 1 1 1 nlocal tag map peratom.

(** Rank 0 owns the atom with tag 2, rank 1 the atom with tag 1. *)
Definition rank0 : Atom.t :=
  process 2 1 [2] (fun t => if decide (t = 2) then 0 else -1)
    (<["q" := doubles [7%float]]>
       (<["x" := double_rows [[1.5; 2.5; 3.5]%float]]>
          (<["i3" := int_rows [[1; 2; 3]]]> ∅))).

Definition rank1 : Atom.t :=
  process 2 1 [1] (fun t => if decide (t = 1) then 0 else -1)
    (<["q" := doubles [9%float]]>
       (<["x" := double_rows [[10; 20; 30]%float]]>
          (<["i3" := int_rows [[4; 5; 6]]]> ∅))).


(** The same two processes with tags disabled, and with no atom map. *)
Definition untagged (atom : Atom.t) : Atom.t :=
  Atom.mk (Atom.natoms atom) 0 (Atom.tag_consecutive atom)
    (Atom.map_style atom) (Atom.nlocal atom) (Atom.tag atom) (Atom.map atom)
    (Atom.peratom atom).

Definition unmapped (atom : Atom.t) : Atom.t :=
  Atom.mk (Atom.natoms atom) (Atom.tag_enable atom)
    (Atom.tag_consecutive atom) 0 (Atom.nlocal atom) (Atom.tag atom)
    (Atom.map atom) (Atom.peratom atom).

(** Gather, then scatter what was gathered. *)
Definition round_trip (world : list Atom.t) (name : string) (type count : Z)
    (data : list block) : option (list Atom.t) :=
  match lammps_gather_atoms world name type count data with
  | Some (data', _) =>
      match lammps_scatter_atoms world name type count data' with
      | Some (world', _) => Some world'
      | None => None
      end
  | None => None
  end.


(** *** What [lammps_commands_string] is to do, on lines *)

(** The lines of a text: what stands before the first newline, and what
    stands after each newline. *)
Fixpoint split_lines (s : list ascii) : list ascii * list (list ascii) :=
  match s with
  | [] => ([], [])
  | c :: s' =>
      let r := split_lines s' in
      if decide (c = newline) then ([], r.1 :: r.2) else (c :: r.1, r.2)
  end.

Definition unsplit (l : list ascii) (ls : list (list ascii)) : list ascii :=
  l ++ concat ((fun x => newline :: x) <$> ls).

(** A line whose last printable character is an ampersand, with that
    ampersand turned into a space; [None] for any other line. *)
Fixpoint blank_continuation (l : list ascii) : option (list ascii) :=
  match l with
  | [] => None
  | c :: l' =>
      match blank_continuation l' with
      | Some b => Some (c :: b)
      | None =>
          if bool_decide (c = "&"%char) && forallb isspace l'
          then Some (" "%char :: l') else None
      end
  end.

(** The commands of a text, [cur] being the line at hand and [raw] the
    lines after it: a line that ends in an ampersand takes up the next line,
    with a space in place of the ampersand and of the line break; nothing is
    defined when there is no next line.  Empty lines are no commands. *)
Fixpoint logical_lines (cur : list ascii) (raw : list (list ascii))
    : option (list (list ascii)) :=
  match blank_continuation cur with
  | Some b =>
      match raw with
      | [] => None
      | l :: ls => logical_lines (b ++ " "%char :: l) ls
      end
  | None =>
      rest ← match raw with
             | [] => Some []
             | l :: ls => logical_lines l ls
             end;
      Some (if decide (cur = []) then rest else cur :: rest)
  end.

Definition commands_of (s : list ascii) : option (list (list ascii)) :=
  logical_lines (split_lines s).1 (split_lines s).2.

(** The lines of a text that are not empty. *)
Definition nonempty_lines (s : list ascii) : list (list ascii) :=
  filter (fun l => l <> []) ((split_lines s).1 :: (split_lines s).2).

(** One line taking up the lines after it, as [concatenate_lines] does. *)
Fixpoint absorb (cur : list ascii) (raw : list (list ascii))
    : option (list ascii * list (list ascii)) :=
  match blank_continuation cur with
  | None => Some (cur, raw)
  | Some b =>
      match raw with
      | [] => None
      | l :: ls => absorb (b ++ " "%char :: l) ls
      end
  end.

(** What the array holds behind the terminator of the line at hand. *)
Definition rest_of (raw : list (list ascii)) : list ascii :=
  match raw with
  | [] => []
  | l :: ls => unsplit l ls ++ [NUL]
  end.

Definition saved_of (raw : list (list ascii)) : Z :=
  match raw with [] => 0 | _ :: _ => 1 end.


Definition spaces (sp : list ascii) : Prop :=
  Forall (fun c => isspace c = true) sp.

(** A line as it stands in a C string: no newline, no terminator in it. *)
Definition clean (l : list ascii) : Prop :=
  (newline ∉ l) /\ (NUL ∉ l).

(** What the array holds from the saved position on. *)
Definition from_saved (raw : list (list ascii)) : list ascii :=
  match raw with
  | [] => [NUL]
  | _ :: _ => rest_of raw
  end.

(** The commands of the lines that are left. *)
Definition remaining (raw : list (list ascii)) : option (list (list ascii)) :=
  match raw with
  | [] => Some []
  | l :: ls => logical_lines l ls
  end.

(** The next token, and the loop from there. *)
Definition following (fuel : nat) (buf : list ascii) (saved : Z)
    : option (list (list ascii)) :=
  r ← strtok buf saved;
  r ← concatenate_token r;
  one_by_one fuel r.1.1 r.1.2 r.2.

(** The lines [Input::one] is given in the course of an event: those of the
    call of [lammps_commands_string] on the string handed over. *)
Definition inputs (uninit : nat -> ascii) (e : event)
    : option (list (list ascii)) :=
  match e with
  | Commands_string line => lammps_commands_string uninit (line ++ [NUL])
  | _ => Some []
  end.

Definition commands_list_inputs (uninit : nat -> ascii) (ncmd : Z)
    (cmds : list (list ascii)) : option (list (list ascii)) :=
  evs ← lammps_commands_list uninit ncmd cmds;
  ls ← mapM (inputs uninit) evs;
  Some (concat ls).

(** *** What the statements on [lammps_extract_compute] are phrased in *)

(** The method that computes an entity, the time step it was last called
    at, and the flag that says the compute has the entity. *)
Definition method_of (e : Compute.entity) : Compute.method :=
  match e with
  | Compute.scalar => Compute.compute_scalar
  | Compute.vector => Compute.compute_vector
  | Compute.array => Compute.compute_array
  | Compute.vector_atom | Compute.array_atom => Compute.compute_peratom
  | Compute.vector_local | Compute.array_local => Compute.compute_local
  end.

Definition invoked (c : Compute.t) (m : Compute.method) : Z :=
  match m with
  | Compute.compute_scalar => Compute.invoked_scalar c
  | Compute.compute_vector => Compute.invoked_vector c
  | Compute.compute_array => Compute.invoked_array c
  | Compute.compute_peratom => Compute.invoked_peratom c
  | Compute.compute_local => Compute.invoked_local c
  end.

Definition flag_of (c : Compute.t) (e : Compute.entity) : Z :=
  match e with
  | Compute.scalar => Compute.scalar_flag c
  | Compute.vector => Compute.vector_flag c
  | Compute.array => Compute.array_flag c
  | Compute.vector_atom | Compute.array_atom => Compute.peratom_flag c
  | Compute.vector_local | Compute.array_local => Compute.local_flag c
  end.

(** *** What the statements on [lammps_extract_fix] are phrased in *)

(** A request for global data the fix does not have. *)
Definition no_global_data (fix_ : Fix.t) (type : Z) : Prop :=
  (type = 0 /\ Fix.scalar_flag fix_ = 0)
  \/ (type = 1 /\ Fix.vector_flag fix_ = 0)
  \/ (type = 2 /\ Fix.array_flag fix_ = 0)
  \/ (type <> 0 /\ type <> 1 /\ type <> 2).

(** The global value of a fix a request is for. *)
Definition global_value (fix_ : Fix.t) (type i j : Z) : float :=
  if decide (type = 0) then Fix.compute_scalar fix_
  else if decide (type = 1) then Fix.compute_vector fix_ i
  else Fix.compute_array fix_ i j.

(** *** What the statements on [lammps_create_atoms] are phrased in *)

(** What [ownatom] is asked for atom [i] of the call: its tag, its
    coordinates and its image flag. *)
Definition request (id : option (list Z)) (x : list float)
    (image : option (list Z)) (i : Z) : Z * list float * option Z :=
  (match id with
   | Some a => default (-1) (a !! Z.to_nat i)
   | None => -1
   end,
   [default 0%float (x !! Z.to_nat (3 * i));
    default 0%float (x !! Z.to_nat (3 * i + 1));
    default 0%float (x !! Z.to_nat (3 * i + 2))],
   match image with
   | Some a => Some (default 0 (a !! Z.to_nat i))
   | None => None
   end).

(** The process owns atom [i] of the call. *)
Definition owns (lmp : LAMMPS.t) (id : option (list Z)) (x : list float)
    (image : option (list Z)) (shrinkexceed : Z) (i : Z) : bool :=
  let r := request id x image i in
  bool_decide
    ((Domain.ownatom (LAMMPS.domain lmp) r.1.1 r.1.2 r.2 shrinkexceed).1.1
     <> 0).

(** How many elements of [l] satisfy [own]. *)
Definition tally {A} (own : A -> bool) (l : list A) : Z :=
  foldr (fun i acc => (if own i then 1 else 0) + acc) 0 l.

(** The arrays of the call hold [n] atoms, and the indices fit an [int]. *)
Definition atoms_given (n : Z) (id : option (list Z)) (type : list Z)
    (x : list float) (v : option (list float)) (image : option (list Z))
    : Prop :=
  0 <= n /\ 3 * n <= MAXSMALLINT
  /\ n <= Z.of_nat (length type) /\ 3 * n <= Z.of_nat (length x)
  /\ (forall a, id = Some a -> n <= Z.of_nat (length a))
  /\ (forall a, v = Some a -> 3 * n <= Z.of_nat (length a))
  /\ (forall a, image = Some a -> n <= Z.of_nat (length a)).

(** A process that passes the checks of [lammps_create_atoms] and has room
    in its [int] count for [n] more atoms. *)
Definition creates (n : Z) (lmp : LAMMPS.t) : Prop :=
  Domain.box_exist (LAMMPS.domain lmp) <> 0
  /\ Atom.tag_enable (LAMMPS.atom lmp) <> 0
  /\ 0 <= Atom.nlocal (LAMMPS.atom lmp)
  /\ Atom.nlocal (LAMMPS.atom lmp) + n <= MAXSMALLINT.

(** What is taken of [create_atom]: it counts the atom in [atom->nlocal],
    the slot of the new atom exists in [tag], [v] (three values) and
    [image], and the domain is left alone. *)
Definition makes_room (create_atom : LAMMPS.t -> Z -> list float -> LAMMPS.t)
    : Prop :=
  forall lmp ty xdata,
    0 <= Atom.nlocal (LAMMPS.atom lmp) ->
    let lmp' := create_atom lmp ty xdata in
    let slot := Z.to_nat (Atom.nlocal (LAMMPS.atom lmp)) in
    LAMMPS.domain lmp' = LAMMPS.domain lmp
    /\ Atom.nlocal (LAMMPS.atom lmp') = Atom.nlocal (LAMMPS.atom lmp) + 1
    /\ (slot < length (Atom.tag (LAMMPS.atom lmp')))%nat
    /\ (exists row, LAMMPS.atom_v lmp' !! slot = Some row
                    /\ (3 <= length row)%nat)
    /\ (slot < length (LAMMPS.atom_image lmp'))%nat.

(** What is taken of a method called after the reduction: it leaves
    [atom->natoms] alone. *)
Definition keeps_natoms (f : LAMMPS.t -> LAMMPS.t) : Prop :=
  forall lmp,
    Atom.natoms (LAMMPS.atom (f lmp)) = Atom.natoms (LAMMPS.atom lmp).

(** The processes that own atom [i]. *)
Definition owners (world : list LAMMPS.t) (id : option (list Z))
    (x : list float) (image : option (list Z)) (shrinkexceed : Z) (i : Z)
    : Z :=
  tally (fun lmp => owns lmp id x image shrinkexceed i) world.

(** The atoms the processes of [world] hold, by [atom->nlocal]. *)
Definition local_total (world : list LAMMPS.t) : Z :=
  foldr Z.add 0 ((fun lmp => Atom.nlocal (LAMMPS.atom lmp)) <$> world).

(** The array [image] of the caller while the loop is at atom [j]: the
    entries from [j] on are those of the call. *)
Definition image_kept (j : Z) (image0 image : option (list Z)) : Prop :=
  match image0, image with
  | None, None => True
  | Some a0, Some a =>
      length a = length a0
      /\ forall k, (Z.to_nat j <= k)%nat -> a !! k = a0 !! k
  | _, _ => False
  end.

(** The atoms the processes hold after the call, counted with the atoms of
    the call: each of those once for every process that owns it. *)
Definition created_total (world : list LAMMPS.t) (n : Z)
    (id : option (list Z)) (x : list float) (image : option (list Z))
    (shrinkexceed : Z) : Z :=
  local_total world
  + foldr Z.add 0 (owners world id x image shrinkexceed <$> seqZ 0 n).

(** How far a process gets, and what it enters the reduction with, when
    that is known to exist. *)
Definition stage_of (create_atom : LAMMPS.t -> Z -> list float -> LAMMPS.t)
    (n : Z) (id : option (list Z)) (type : list Z) (x : list float)
    (v : option (list float)) (image : option (list Z)) (shrinkexceed : Z)
    (k : nat) (lmp : LAMMPS.t) : created :=
  default (Refused [])
    (create_stage create_atom (Z.of_nat k) lmp n id type x v image
                  shrinkexceed).

Definition count_of (s : created)
    : LAMMPS.t * option (list Z) * (Z * Z * Z) :=
  match s with
  | Refused _ => (LAMMPS.mk (Atom.mk 0 0 0 0 0 [] (fun _ => 0) ∅) [] []
                            (Domain.mk 0 (fun _ xd img _ => (0, xd, img))),
                  None, (0, 0, 0))
  | Counted lmp image nlocal_prev nlocal natoms_prev =>
      (lmp, image, (nlocal_prev, nlocal, natoms_prev))
  end.

(** *** Two processes for [lammps_create_atoms]

    [append_atom] stands for [create_atom]: it counts the atom and appends
    its slot.  The first process owns the atom with tag 1, the second the
    atom with tag 2. *)
Definition append_atom (lmp : LAMMPS.t) (ty : Z) (xdata : list float)
    : LAMMPS.t :=
  let a := LAMMPS.atom lmp in
  let slot := Z.to_nat (Atom.nlocal a) in
  LAMMPS.mk
    (Atom.mk (Atom.natoms a) (Atom.tag_enable a) (Atom.tag_consecutive a)
             (Atom.map_style a) (Atom.nlocal a + 1)
             (resize (S slot) 0 (Atom.tag a)) (Atom.map a) (Atom.peratom a))
    (<[slot := [0; 0; 0]%float]> (resize (S slot) [] (LAMMPS.atom_v lmp)))
    (resize (S slot) 0 (LAMMPS.atom_image lmp))
    (LAMMPS.domain lmp).

Definition owner_of (t : Z) : Domain.t :=
  Domain.mk 1 (fun tag xdata img _ =>
                 (if decide (tag = t) then 1 else 0, xdata, img)).

Definition empty_process (t : Z) : LAMMPS.t :=
  LAMMPS.mk (process 0 0 [] (fun _ => -1) ∅) [] [] (owner_of t).

Definition no_box (lmp : LAMMPS.t) : LAMMPS.t :=
  LAMMPS.mk (LAMMPS.atom lmp) (LAMMPS.atom_v lmp) (LAMMPS.atom_image lmp)
            (Domain.mk 0 (Domain.ownatom (LAMMPS.domain lmp))).

(** * Properties *)

(** ** Integers, arrays, loops *)

Lemma checked_in_int z : in_int z -> checked z = Some z.
Proof. intros H. unfold checked. by rewrite decide_True. Qed.

Lemma checked_Some z r : checked z = Some r -> r = z /\ in_int z.
Proof. unfold checked. case_decide; [|done]. intros [= <-]. done. Qed.

Lemma static_cast_int_id z : in_int z -> static_cast_int z = z.
Proof.
  unfold in_int, INT_MIN, MAXSMALLINT, static_cast_int. intros H.
  rewrite Z.mod_small; lia.
Qed.

Lemma static_cast_int_range z : in_int (static_cast_int z).
Proof.
  unfold in_int, INT_MIN, MAXSMALLINT, static_cast_int.
  pose proof (Z.mod_pos_bound (z + 2 ^ 31) (2 ^ 32)). lia.
Qed.

Lemma load_nat {A} (a : list A) (i : nat) : load a (Z.of_nat i) = a !! i.
Proof. unfold load. rewrite decide_True by lia. by rewrite Nat2Z.id. Qed.

Lemma load_Some {A} (a : list A) i x :
  load a i = Some x <-> 0 <= i /\ a !! Z.to_nat i = Some x.
Proof.
  unfold load. case_decide; [tauto|]. split; [done|]. intros [? _]. lia.
Qed.

Lemma store_nat {A} (a : list A) (i : nat) v :
  (i < length a)%nat -> store a (Z.of_nat i) v = Some (<[i := v]> a).
Proof.
  intros H. unfold store. rewrite decide_True by lia. by rewrite Nat2Z.id.
Qed.

Lemma store_Some {A} (a a' : list A) i v :
  store a i v = Some a' <->
  0 <= i < Z.of_nat (length a) /\ a' = <[Z.to_nat i := v]> a.
Proof.
  unfold store. case_decide.
  - split; [by intros [= <-]|]. by intros [_ ->].
  - split; [done|]. intros [? _]. lia.
Qed.

(** The invariant rule of the counting loop. *)
Lemma for_loop_inv {St} (I : Z -> St -> Prop) k i body (s : St) :
  I i s ->
  (forall j s, i <= j < i + Z.of_nat k -> I j s ->
     exists s', body j s = Some s' /\ I (j + 1) s') ->
  exists s', for_loop k i body s = Some s' /\ I (i + Z.of_nat k) s'.
Proof.
  revert i s. induction k as [|k IH]; intros i s Hi Hstep.
  - exists s. split; [done|]. by replace (i + Z.of_nat 0) with i by lia.
  - destruct (Hstep i s) as (s1 & Hb & H1); [lia|done|].
    destruct (IH (i + 1) s1) as (s' & Hl & H'); [done| |].
    + intros j s2 Hj. apply Hstep. lia.
    + exists s'. simpl. rewrite Hb. simpl. split; [done|].
      by replace (i + Z.of_nat (S k)) with (i + 1 + Z.of_nat k) by lia.
Qed.

Lemma for_inv {St} (I : Z -> St -> Prop) n body (s : St) :
  0 <= n ->
  I 0 s ->
  (forall j s, 0 <= j < n -> I j s ->
     exists s', body j s = Some s' /\ I (j + 1) s') ->
  exists s', for_ n body s = Some s' /\ I n s'.
Proof.
  intros Hn H0 Hstep.
  destruct (for_loop_inv I (Z.to_nat n) 0 body s) as (s' & Hl & H');
    [done| |].
  - intros j s1 Hj. apply Hstep. lia.
  - exists s'. split; [done|]. by replace n with (0 + Z.of_nat (Z.to_nat n)) by lia.
Qed.

Lemma for_nonpos {St} n body (s : St) : n <= 0 -> for_ n body s = Some s.
Proof. intros H. unfold for_. by replace (Z.to_nat n) with O by lia. Qed.

(** ** lammps_get_natoms *)

(** C9. [lammps_get_natoms] returns 0 whenever the total atom count exceeds
    [MAXSMALLINT]; otherwise it returns the count converted to [int], which
    for an atom count (a number that is not negative) is the count itself:
    the value returned is the count or 0, never a truncation of the count. *)
Theorem lammps_get_natoms_spec (atom : Atom.t) :
  (Atom.natoms atom > MAXSMALLINT -> lammps_get_natoms atom = 0) /\
  (Atom.natoms atom <= MAXSMALLINT ->
     lammps_get_natoms atom = static_cast_int (Atom.natoms atom)) /\
  (0 <= Atom.natoms atom <= MAXSMALLINT ->
     lammps_get_natoms atom = Atom.natoms atom) /\
  (0 <= Atom.natoms atom ->
     lammps_get_natoms atom = Atom.natoms atom \/ lammps_get_natoms atom = 0).
Proof.
  unfold lammps_get_natoms. repeat split.
  - intros H. by rewrite decide_True.
  - intros H. by rewrite decide_False by lia.
  - intros H. rewrite decide_False by lia.
    apply static_cast_int_id. unfold in_int, INT_MIN. lia.
  - intros H. case_decide; [by right|left].
    apply static_cast_int_id. unfold in_int, INT_MIN. lia.
Qed.

(** ** lammps_commands_list *)

Lemma strlen_app (l rest : list ascii) :
  NUL ∉ l -> strlen (l ++ NUL :: rest) = Some (Z.of_nat (length l)).
Proof.
  induction l as [|c l IH]; intros Hl; [done|]. cbn [app strlen].
  - apply not_elem_of_cons in Hl as [Hc Hl].
    rewrite decide_False by done. rewrite IH by done. simpl. f_equal. lia.
Qed.

Lemma strlen_inv (s : list ascii) n :
  strlen s = Some n ->
  exists l rest, s = l ++ NUL :: rest /\ (NUL ∉ l) /\ n = Z.of_nat (length l).
Proof.
  revert n. induction s as [|c s IH]; intros n; simpl; [done|].
  case_decide as Hc.
  - intros [= <-]. exists [], s. subst c. split_and!; [done| |done].
    apply not_elem_of_nil.
  - destruct (strlen s) as [m|] eqn:Hs; simpl; [|done]. intros [= <-].
    destruct (IH m eq_refl) as (l & rest & -> & Hl & ->).
    exists (c :: l), rest. split_and!; [done| |simpl; lia].
    apply not_elem_of_cons. split; [congruence|done].
Qed.

Lemma c_str_inv (s line : list ascii) :
  c_str s = Some line ->
  exists rest, s = line ++ NUL :: rest /\ (NUL ∉ line).
Proof.
  unfold c_str. destruct (strlen s) as [n|] eqn:Hs; simpl; [|done].
  intros [= <-]. destruct (strlen_inv s n Hs) as (l & rest & -> & Hl & ->).
  exists rest. rewrite Nat2Z.id, take_app_length. done.
Qed.

Lemma c_str_app (l rest : list ascii) :
  NUL ∉ l -> c_str (l ++ NUL :: rest) = Some l.
Proof.
  intros Hl. unfold c_str. rewrite strlen_app by done. simpl.
  by rewrite Nat2Z.id, take_app_length.
Qed.

Lemma total_length_app l1 l2 :
  total_length (l1 ++ l2) = total_length l1 + total_length l2.
Proof. induction l1 as [|x l1 IH]; simpl; [done|]. rewrite IH. lia. Qed.

Lemma total_length_nonneg l : 0 <= total_length l.
Proof. induction l; simpl; lia. Qed.

Lemma total_length_take l (j : nat) line :
  l !! j = Some line ->
  total_length (take (S j) l) =
    total_length (take j l) + Z.of_nat (length line) /\
  total_length (take (S j) l) <= total_length l.
Proof.
  intros Hj. rewrite (take_S_r _ _ _ Hj), total_length_app. simpl.
  split; [lia|].
  rewrite <- (take_drop (S j) l) at 2.
  rewrite total_length_app, (take_S_r _ _ _ Hj), total_length_app. simpl.
  pose proof (total_length_nonneg (drop (S j) l)). lia.
Qed.

Lemma terminate_line_length line :
  (length (terminate_line line) <= length line + 1)%nat.
Proof.
  unfold terminate_line. case_decide; [lia|]. rewrite length_app. simpl. lia.
Qed.

Lemma buffered_length (lines : list (list ascii)) :
  Z.of_nat (length (concat (terminate_line <$> lines))) <=
    Z.of_nat (length lines) + total_length lines.
Proof.
  induction lines as [|l lines IH]; [simpl; lia|].
  rewrite fmap_cons. cbn [concat]. rewrite length_app, length_cons.
  change (total_length (l :: lines))
    with (Z.of_nat (length l) + total_length lines).
  pose proof (terminate_line_length l). lia.
Qed.

Lemma terminate_line_NUL line : NUL ∉ line -> NUL ∉ terminate_line line.
Proof.
  intros H. unfold terminate_line. case_decide; [done|].
  rewrite elem_of_app, list_elem_of_singleton. intros [?|?]; [done|].
  discriminate.
Qed.

Lemma buffered_NUL (lines : list (list ascii)) :
  Forall (fun line => NUL ∉ line) lines ->
  NUL ∉ concat (terminate_line <$> lines).
Proof.
  induction 1 as [|l lines Hl _ IH]; simpl; [apply not_elem_of_nil|].
  rewrite elem_of_app. intros [?|?]; [|done].
  by apply (terminate_line_NUL l).
Qed.

Lemma overwrite_length {A} (a : list A) off vs :
  (off + length vs <= length a)%nat -> length (overwrite a off vs) = length a.
Proof.
  intros H. unfold overwrite.
  rewrite !length_app, length_take, length_drop. lia.
Qed.

Lemma insert_middle {A} (l1 l2 : list A) x y :
  <[length l1 := x]> (l1 ++ y :: l2) = l1 ++ x :: l2.
Proof.
  rewrite insert_app_r_alt by lia. by rewrite Nat.sub_diag.
Qed.

(** The loop that adds up the lengths of the commands. *)
Lemma commands_list_size (cmds lines : list (list ascii)) n0 :
  Forall2 (fun cmd line => c_str cmd = Some line) cmds lines ->
  0 <= n0 -> n0 + total_length lines <= MAXSMALLINT ->
  for_ (Z.of_nat (length cmds))
    (fun i n => cmd ← load cmds i; len ← strlen cmd; int_add n len) n0
  = Some (n0 + total_length lines).
Proof.
  intros Hcl Hn0 Hmax.
  pose proof (Forall2_length _ _ _ Hcl) as Hlen.
  destruct (for_inv
    (fun j n => n = n0 + total_length (take (Z.to_nat j) lines))
    (Z.of_nat (length cmds))
    (fun i n => cmd ← load cmds i; len ← strlen cmd; int_add n len) n0)
    as (n & Hrun & Hn); [lia|simpl; lia| |].
  - intros j n Hj ->.
    destruct (lookup_lt_is_Some_2 cmds (Z.to_nat j)) as [cmd Hcmd]; [lia|].
    destruct (Forall2_lookup_l _ _ _ _ _ Hcl Hcmd) as (line & Hline & Hc).
    destruct (c_str_inv _ _ Hc) as (rest & -> & Hnul).
    destruct (total_length_take _ _ _ Hline) as [Hs Hle].
    pose proof (total_length_nonneg (take (Z.to_nat j) lines)).
    eexists. split.
    + replace j with (Z.of_nat (Z.to_nat j)) at 1 by lia.
      rewrite load_nat, Hcmd. simpl. rewrite strlen_app by done. simpl.
      apply checked_in_int. unfold in_int, INT_MIN. lia.
    + replace (Z.to_nat (j + 1)) with (S (Z.to_nat j)) by lia. lia.
  - rewrite Hrun, Hn. rewrite Nat2Z.id, take_ge by lia. done.
Qed.

Lemma take_c_string (line rest : list ascii) :
  take (Z.to_nat (Z.of_nat (length line) + 1)) (line ++ NUL :: rest)
  = line ++ [NUL].
Proof.
  replace (Z.to_nat (Z.of_nat (length line) + 1))
    with (length line + 1)%nat by lia.
  rewrite take_app_add'; [|done]. done.
Qed.

Lemma overwrite_middle {A} (l1 l2 vs : list A) :
  overwrite (l1 ++ l2) (length l1) vs = l1 ++ vs ++ drop (length vs) l2.
Proof.
  unfold overwrite. rewrite take_app_length.
  rewrite drop_app_add'; [|done]. done.
Qed.

(** C10. For commands [cmds] that are C strings [lines], none of them empty,
    [lammps_commands_list] allocates one buffer, fills it with the commands
    in order, each followed by one newline unless it ends in one, hands that
    string to [lammps_commands_string] and frees the buffer.  (The lengths
    are added up in an [int]: the sum has to fit.) *)
Theorem lammps_commands_list_spec (uninit : nat -> ascii)
    (cmds lines : list (list ascii)) :
  Forall2 (fun cmd line => c_str cmd = Some line /\ line <> []) cmds lines ->
  Z.of_nat (length cmds) + 1 + total_length lines <= MAXSMALLINT ->
  lammps_commands_list uninit (Z.of_nat (length cmds)) cmds
  = Some [Smalloc (Z.of_nat (length cmds) + 1 + total_length lines);
          Commands_string (concat (terminate_line <$> lines));
          Sfree].
Proof.
  intros Hcl Hmax.
  pose proof (Forall2_length _ _ _ Hcl) as Hlen.
  pose proof (total_length_nonneg lines) as Htot.
  assert (Forall2 (fun cmd line => c_str cmd = Some line) cmds lines) as Hcl'.
  { eapply Forall2_impl; [exact Hcl|]. by intros ?? [? _]. }
  assert (Forall (fun line => NUL ∉ line) lines) as Hnul.
  { apply Forall_forall. intros line Hin.
    apply list_elem_of_lookup in Hin as [j Hj].
    destruct (Forall2_lookup_r _ _ _ _ _ Hcl' Hj) as (cmd & _ & Hc).
    by destruct (c_str_inv _ _ Hc) as (? & _ & ?). }
  unfold lammps_commands_list.
  assert (int_add (Z.of_nat (length cmds)) 1
          = Some (Z.of_nat (length cmds) + 1)) as ->.
  { apply checked_in_int. unfold in_int, INT_MIN, MAXSMALLINT in *. lia. }
  cbn [mbind option_bind].
  rewrite (commands_list_size cmds lines) by (done || lia).
  cbn [mbind option_bind].
  set (N := Z.of_nat (length cmds) + 1 + total_length lines).
  assert (length (smalloc uninit N) = Z.to_nat N) as Hsm.
  { unfold smalloc. by rewrite length_fmap, length_seq. }
  destruct (smalloc uninit N) as [|c0 rest0] eqn:Hstr0;
    [simpl in Hsm; lia|].
  assert (store (c0 :: rest0) 0 NUL = Some (NUL :: rest0)) as ->.
  { unfold store. rewrite decide_True by (simpl; lia). done. }
  cbn [mbind option_bind].
  match goal with |- context [for_ ?n ?body ?s] =>
    destruct (for_inv
      (fun j st =>
         let acc := concat (terminate_line <$> take (Z.to_nat j) lines) in
         exists rest, st.1 = acc ++ NUL :: rest
           /\ st.2 = Z.of_nat (length acc)
           /\ length st.1 = Z.to_nat N)
      n body s) as ([str n'] & Hrun & rest & Hstr & _ & _)
  end.
  - lia.
  - exists rest0. simpl. split_and!; [done|done|]. simpl in Hsm. done.
  - intros j [str n] Hj (rest & Hstr & Hn & HN). simpl in Hstr, Hn, HN.
    set (acc := concat (terminate_line <$> take (Z.to_nat j) lines)) in *.
    destruct (lookup_lt_is_Some_2 cmds (Z.to_nat j)) as [cmd Hcmd]; [lia|].
    destruct (Forall2_lookup_l _ _ _ _ _ Hcl Hcmd)
      as (line & Hline & Hc & Hne).
    destruct (c_str_inv _ _ Hc) as (crest & -> & Hlnul).
    destruct (total_length_take _ _ _ Hline) as [Hs Hle].
    pose proof (buffered_length (take (Z.to_nat j) lines)) as Hacc.
    rewrite length_take in Hacc. fold acc in Hacc.
    pose proof (total_length_nonneg (take (Z.to_nat j) lines)).
    assert (is_Some (last line)) as [c Hlast].
    { apply last_is_Some. done. }
    apply last_Some in Hlast as Hsplit. destruct Hsplit as [line' Hline'].
    assert (concat (terminate_line <$> take (Z.to_nat (j + 1)) lines)
            = acc ++ terminate_line line) as Hacc'.
    { replace (Z.to_nat (j + 1)) with (S (Z.to_nat j)) by lia.
      rewrite (take_S_r _ _ _ Hline), fmap_app, concat_app. simpl.
      by rewrite app_nil_r. }
    cbn beta iota. rewrite Hacc'.
    assert (load cmds j = Some (line ++ NUL :: crest)) as ->.
    { apply load_Some. split; [lia|done]. }
    cbn [mbind option_bind].
    unfold strcpy. rewrite strlen_app by done. cbn [mbind option_bind].
    rewrite decide_True by lia. cbn [mbind option_bind].
    rewrite take_c_string. subst str n.
    rewrite Nat2Z.id, overwrite_middle. rewrite length_app. simpl length.
    replace (length line + 1)%nat with (S (length line)) by lia.
    cbn [drop].
    assert (length (acc ++ (line ++ [NUL]) ++ drop (length line) rest)
            = Z.to_nat N) as HN'.
    { rewrite !length_app, length_drop. rewrite length_app in HN.
      simpl in *. unfold N in *. lia. }
    remember (drop (length line) rest) as rest2 eqn:Hrest2.
    assert (1 <= length rest2)%nat as Hcap.
    { rewrite !length_app in HN'. simpl in HN'. unfold N in HN'. lia. }
    replace (acc ++ (line ++ [NUL]) ++ rest2)
      with ((acc ++ line') ++ c :: NUL :: rest2)
      by (rewrite Hline', <- !app_assoc; done).
    replace (Z.of_nat (length acc) + Z.of_nat (length line) - 1)
      with (Z.of_nat (length (acc ++ line')))
      by (rewrite Hline', !length_app; simpl; lia).
    rewrite load_nat, list_lookup_middle by done. cbn [mbind option_bind].
    unfold terminate_line. rewrite Hline', last_snoc.
    destruct (decide (c <> newline)) as [Hc'|Hc'].
    + rewrite decide_False by congruence.
      replace ((acc ++ line') ++ c :: NUL :: rest2)
        with ((acc ++ line' ++ [c]) ++ NUL :: rest2)
        by (rewrite <- !app_assoc; done).
      replace (Z.of_nat (length acc) + Z.of_nat (length (line' ++ [c])))
        with (Z.of_nat (length (acc ++ line' ++ [c])))
        by (rewrite !length_app; simpl; lia).
      rewrite store_nat by (rewrite !length_app; simpl; lia).
      rewrite insert_middle. cbn [mbind option_bind].
      destruct rest2 as [|x rest3]; [simpl in Hcap; lia|].
      replace ((acc ++ line' ++ [c]) ++ newline :: x :: rest3)
        with ((acc ++ (line' ++ [c]) ++ [newline]) ++ x :: rest3)
        by (rewrite <- !app_assoc; done).
      replace (Z.of_nat (length (acc ++ line' ++ [c])) + 1)
        with (Z.of_nat (length (acc ++ (line' ++ [c]) ++ [newline])))
        by (rewrite !length_app; simpl; lia).
      rewrite store_nat by (rewrite !length_app; simpl; lia).
      rewrite insert_middle. cbn [mbind option_bind].
      eexists. split; [done|]. exists rest3. simpl. split_and!; [done|done|].
      rewrite <- HN', Hline'. rewrite !length_app. simpl. lia.
    + rewrite decide_True
        by (destruct (decide (c = newline)) as [->|?]; [done|contradiction]).
      eexists. split; [done|]. exists rest2. simpl. split_and!.
      * by rewrite <- !app_assoc.
      * rewrite !length_app. simpl. lia.
      * rewrite <- HN', Hline'. rewrite !length_app. simpl. lia.
  - rewrite Hrun. cbn [mbind option_bind fst]. simpl in Hstr. rewrite Hstr.
    rewrite Nat2Z.id, take_ge by lia.
    rewrite c_str_app by (by apply buffered_NUL). done.
Qed.

(** ** The checks of gather and scatter *)

Lemma mapM_imap {A B} (f : nat -> A -> option B) (g : nat -> A -> B) l :
  (forall i x, l !! i = Some x -> f i x = Some (g i x)) ->
  mapM id (imap f l) = Some (imap g l).
Proof.
  intros H. apply mapM_Some, Forall2_same_length_lookup_2.
  - by rewrite !length_imap.
  - intros i y z. rewrite !list_lookup_imap.
    destruct (l !! i) as [x|] eqn:Hx; simpl; [|done].
    intros [= <-] [= <-]. by apply H.
Qed.

Lemma concat_other_ranks {A} (e : event) (l : list A) (h : nat -> nat) :
  (forall k, h k <> O) ->
  concat (imap (fun (k : nat) (_ : A) =>
                  if decide (Z.of_nat (h k) = 0) then [e] else []) l)
  = [].
Proof.
  revert h. induction l as [|y l IH]; intros h Hh; [done|].
  rewrite imap_cons. cbn [concat].
  rewrite decide_False by (specialize (Hh O); lia).
  apply (IH (h ∘ S)). intros k. apply Hh.
Qed.

Lemma concat_rank0 {A} (e : event) (x : A) (l : list A) :
  concat (imap (fun (k : nat) (_ : A) =>
                  if decide (Z.of_nat k = 0) then [e] else []) (x :: l))
  = [e].
Proof.
  rewrite imap_cons. cbn [concat]. rewrite decide_True by done.
  simpl. f_equal. apply (concat_other_ranks e l S). done.
Qed.

Lemma gather_stage_refuses me atom name type count :
  gather_refuses atom ->
  gather_stage me atom name type count
  = Some (Returned (if decide (me = 0)
                    then [Warning me "Library error in lammps_gather_atoms"]
                    else [])).
Proof.
  intros [H|[H|H]]; unfold gather_stage.
  - rewrite (decide_True (P := _ \/ _)) by tauto.
    by destruct (decide (Atom.natoms atom > MAXSMALLINT)).
  - rewrite (decide_True (P := _ \/ _)) by tauto.
    by destruct (decide (Atom.natoms atom > MAXSMALLINT)).
  - rewrite (decide_True (P := Atom.natoms atom > MAXSMALLINT)) by done.
    done.
Qed.

Lemma scatter_rank_refuses me atom name type count data :
  scatter_refuses atom ->
  scatter_rank me atom name type count data
  = Some (atom, if decide (me = 0)
                then [Warning me "Library error in lammps_scatter_atoms"]
                else []).
Proof.
  intros H. unfold scatter_rank.
  destruct (decide (Atom.map_style atom = 0)) as [Hm|Hm]; [done|].
  destruct H as [[H|[H|H]]|H]; [| | |done].
  - rewrite (decide_True (P := _ \/ _)) by tauto.
    by destruct (decide (Atom.natoms atom > MAXSMALLINT)).
  - rewrite (decide_True (P := _ \/ _)) by tauto.
    by destruct (decide (Atom.natoms atom > MAXSMALLINT)).
  - rewrite (decide_True (P := Atom.natoms atom > MAXSMALLINT)) by done.
    done.
Qed.

Lemma gather_refused world name type count data :
  Forall gather_refuses world -> world <> [] ->
  length data = length world ->
  lammps_gather_atoms world name type count data
  = Some (data, [Warning 0 "Library error in lammps_gather_atoms"]).
Proof.
  intros Hall Hne Hlen. unfold lammps_gather_atoms.
  rewrite decide_True by done.
  rewrite (mapM_imap _ (fun k _ =>
    Returned (if decide (Z.of_nat k = 0)
              then [Warning (Z.of_nat k) "Library error in lammps_gather_atoms"]
              else []))).
  2:{ intros i x Hx. apply gather_stage_refuses.
      by eapply Forall_lookup_1. }
  cbn [mbind option_bind].
  rewrite (mapM_Some_2 returned _
    (imap (fun k _ =>
       if decide (Z.of_nat k = 0)
       then [Warning 0 "Library error in lammps_gather_atoms"] else []) world)).
  - destruct world as [|a w]; [done|]. by rewrite concat_rank0.
  - apply Forall2_same_length_lookup_2; [by rewrite !length_imap|].
    intros i y z. rewrite !list_lookup_imap.
    destruct (world !! i); simpl; [|done]. intros [= <-] [= <-]. simpl.
    case_decide as Hk; [|done]. by rewrite Hk.
Qed.

Lemma scatter_refused world name type count data :
  Forall scatter_refuses world -> world <> [] ->
  length data = length world ->
  lammps_scatter_atoms world name type count data
  = Some (world, [Warning 0 "Library error in lammps_scatter_atoms"]).
Proof.
  intros Hall Hne Hlen. unfold lammps_scatter_atoms.
  rewrite decide_True by done.
  rewrite (mapM_imap _ (fun k (ad : Atom.t * block) =>
    (ad.1, if decide (Z.of_nat k = 0)
           then [Warning 0 "Library error in lammps_scatter_atoms"]
           else []))).
  2:{ intros i [a d] Hx. simpl. rewrite scatter_rank_refuses.
      - case_decide as Hk; [|done]. by rewrite Hk.
      - apply lookup_zip_Some in Hx as [Hx _]. by eapply Forall_lookup_1. }
  cbn [mbind option_bind]. f_equal. f_equal.
  - rewrite fmap_imap.
    rewrite (imap_ext _ (const fst)) by done.
    rewrite imap_const. apply fst_zip. lia.
  - rewrite fmap_imap.
    rewrite (imap_ext _ (fun k _ =>
      if decide (Z.of_nat k = 0)
      then [Warning 0 "Library error in lammps_scatter_atoms"] else []))
      by done.
    destruct world as [|a w]; [done|].
    destruct data as [|d ds]; [done|]. simpl zip. by rewrite concat_rank0.
Qed.

(** C3. When tags are disabled, or not consecutive, or the atom count is
    beyond [MAXSMALLINT] (on every process: the three are global state),
    gather and scatter do nothing: the buffers of gather and the atoms of
    scatter are as they were, and one warning is issued, by rank 0. *)
Theorem precondition_rejection world name type count data :
  Forall gather_refuses world -> world <> [] ->
  length data = length world ->
  lammps_gather_atoms world name type count data
  = Some (data, [Warning 0 "Library error in lammps_gather_atoms"])
  /\ lammps_scatter_atoms world name type count data
  = Some (world, [Warning 0 "Library error in lammps_scatter_atoms"]).
Proof.
  intros Hall Hne Hlen. split.
  - by apply gather_refused.
  - apply scatter_refused; [|done|done].
    eapply Forall_impl; [exact Hall|]. intros a Ha. by left.
Qed.

Lemma gather_stage_unmapped me atom name type count :
  gather_stage me (unmapped atom) name type count
  = gather_stage me atom name type count.
Proof. by destruct atom. Qed.

(** C8. Scatter also refuses when there is no atom map ([map_style == 0]):
    one warning, from rank 0, and no atom is modified.  Gather does not look
    at the atom map: without it, it does what it does with it. *)
Theorem scatter_needs_map world name type count data :
  Forall (fun atom => Atom.map_style atom = 0) world -> world <> [] ->
  length data = length world ->
  lammps_scatter_atoms world name type count data
  = Some (world, [Warning 0 "Library error in lammps_scatter_atoms"])
  /\ lammps_gather_atoms (unmapped <$> world) name type count data
     = lammps_gather_atoms world name type count data.
Proof.
  intros Hall Hne Hlen. split.
  - apply scatter_refused; [|done|done].
    eapply Forall_impl; [exact Hall|]. intros a Ha. by right.
  - unfold lammps_gather_atoms. rewrite length_fmap, imap_fmap.
    by rewrite (imap_ext _
      (fun k atom => gather_stage (Z.of_nat k) atom name type count))
      by (intros; apply gather_stage_unmapped).
Qed.

(** ** The staging vector *)

Section staging_facts.
Context {V : Type} (zero : V).
Implicit Types (items : list (Z * list V)) (copy row : list V).

Lemma overwrite_lookup copy (off : nat) row (o : nat) :
  (off + length row <= length copy)%nat ->
  overwrite copy off row !! o
  = if decide (off <= o < off + length row)%nat
    then row !! (o - off)%nat else copy !! o.
Proof.
  intros Hfit. unfold overwrite.
  destruct (decide (o < off)%nat) as [Hlt|Hge].
  - rewrite lookup_app_l by (rewrite length_take; lia).
    rewrite lookup_take_lt by done. by rewrite decide_False by lia.
  - rewrite lookup_app_r by (rewrite length_take; lia).
    rewrite length_take, Nat.min_l by lia.
    destruct (decide (o < off + length row)%nat) as [Hin|Hout].
    + rewrite lookup_app_l by lia. by rewrite decide_True by lia.
    + rewrite lookup_app_r by lia. rewrite lookup_drop.
      rewrite decide_False by lia. f_equal. lia.
Qed.

Lemma lookup_items_app count items1 items2 o :
  lookup_items count (items1 ++ items2) o
  = match lookup_items count items2 o with
    | Some v => Some v
    | None => lookup_items count items1 o
    end.
Proof.
  induction items1 as [|it items1 IH]; simpl.
  - by destruct (lookup_items count items2 o).
  - rewrite IH. by destruct (lookup_items count items2 o).
Qed.

(** An offset is covered by the tag [o / count + 1] only. *)
Lemma covered_once count t1 t2 o :
  count * (t1 - 1) <= o < count * t1 ->
  count * (t2 - 1) <= o < count * t2 ->
  t1 = t2.
Proof. intros H1 H2. nia. Qed.

Lemma lookup_items_None count items o :
  (forall it, it ∈ items -> ~ count * (it.1 - 1) <= o < count * it.1) ->
  lookup_items count items o = None.
Proof.
  induction items as [|it items IH]; intros H; simpl; [done|].
  rewrite IH by (intros it' Hin; apply H; by right).
  rewrite decide_False; [done|]. apply H. by left.
Qed.

Lemma lookup_items_Some count items o v :
  lookup_items count items o = Some v ->
  exists it, it ∈ items /\ count * (it.1 - 1) <= o < count * it.1
    /\ it.2 !! Z.to_nat (o - count * (it.1 - 1)) = Some v.
Proof.
  induction items as [|it items IH]; simpl; [done|].
  destruct (lookup_items count items o) as [w|] eqn:Hrest.
  - intros [= <-]. destruct (IH eq_refl) as (it' & Hin & Hc & Hv).
    exists it'. split; [by right|done].
  - case_decide as Hc; [|done]. intros Hv. exists it. split; [by left|done].
Qed.

Lemma lookup_items_elem count items it o :
  NoDup items.*1 -> it ∈ items ->
  count * (it.1 - 1) <= o < count * it.1 ->
  lookup_items count items o = it.2 !! Z.to_nat (o - count * (it.1 - 1)).
Proof.
  induction items as [|it' items IH]; intros Hnd Hin Hc.
  - by apply elem_of_nil in Hin.
  - rewrite fmap_cons in Hnd. apply NoDup_cons in Hnd as [Hnotin Hnd].
    simpl. apply elem_of_cons in Hin as [->|Hin].
    + rewrite lookup_items_None; [by rewrite decide_True|].
      intros it2 Hin2 Hc2. apply Hnotin.
      rewrite (covered_once _ _ _ _ Hc Hc2).
      apply list_elem_of_fmap. by exists it2.
    + rewrite IH by done.
      destruct (it.2 !! Z.to_nat (o - count * (it.1 - 1))) eqn:Hv; [done|].
      rewrite decide_False; [done|]. intros Hc'. apply Hnotin.
      rewrite (covered_once _ _ _ _ Hc' Hc).
      apply list_elem_of_fmap. by exists it.
Qed.

Lemma staging_snoc n count items it :
  staging zero n count (items ++ [it])
  = overwrite (staging zero n count items)
              (Z.to_nat (count * (it.1 - 1))) it.2.
Proof. unfold staging. by rewrite foldl_app. Qed.

Lemma staging_length n count natoms items :
  0 <= count -> n = count * natoms -> fits count natoms items ->
  length (staging zero n count items) = Z.to_nat n.
Proof.
  intros Hc Hn. induction items as [|it items IH] using rev_ind; intros Hfit.
  - unfold staging. simpl. by rewrite length_replicate.
  - apply Forall_app in Hfit as [Hfit Hit].
    apply Forall_singleton in Hit as [Ht Hlen].
    rewrite staging_snoc, overwrite_length; [by apply IH|].
    rewrite IH by done. nia.
Qed.

Lemma staging_lookup n count natoms items (o : nat) :
  0 <= count -> n = count * natoms -> fits count natoms items ->
  Z.of_nat o < n ->
  staging zero n count items !! o
  = Some (default zero (lookup_items count items (Z.of_nat o))).
Proof.
  intros Hc Hn Hfit Ho. revert Hfit.
  induction items as [|it items IH] using rev_ind; intros Hfit.
  - unfold staging. simpl. apply lookup_replicate_2. lia.
  - apply Forall_app in Hfit as [Hfit Hit].
    apply Forall_singleton in Hit as [Ht Hlen].
    rewrite staging_snoc, overwrite_lookup
      by (rewrite (staging_length n count natoms) by done; nia).
    rewrite lookup_items_app. simpl.
    destruct (decide (count * (it.1 - 1) <= Z.of_nat o < count * it.1))
      as [Hcov|Hcov].
    + rewrite decide_True by nia.
      replace (Z.to_nat (Z.of_nat o - count * (it.1 - 1)))
        with (o - Z.to_nat (count * (it.1 - 1)))%nat by nia.
      destruct (lookup_lt_is_Some_2 it.2
                  (o - Z.to_nat (count * (it.1 - 1)))%nat) as [v Hv]; [nia|].
      by rewrite Hv.
    + rewrite decide_False by nia. by apply IH.
Qed.

Lemma overwrite_snoc copy (off : nat) row v :
  (off + length row < length copy)%nat ->
  <[(off + length row)%nat := v]> (overwrite copy off row)
  = overwrite copy off (row ++ [v]).
Proof.
  intros Hfit. apply list_eq. intros o.
  destruct (decide (o = off + length row)%nat) as [->|Hne].
  - rewrite list_lookup_insert_eq by (rewrite overwrite_length; lia).
    rewrite overwrite_lookup by (rewrite length_app; simpl; lia).
    rewrite decide_True by (rewrite length_app; simpl; lia).
    replace (off + length row - off)%nat with (length row) by lia.
    by rewrite list_lookup_middle.
  - rewrite list_lookup_insert_ne by done.
    rewrite !overwrite_lookup by (rewrite ?length_app; simpl; lia).
    rewrite length_app. simpl.
    destruct (decide (off <= o < off + length row)%nat) as [Hin|Hout].
    + rewrite decide_True by lia. by rewrite lookup_app_l by lia.
    + by rewrite decide_False by lia.
Qed.

Lemma overwrite_nil copy (off : nat) :
  (off <= length copy)%nat -> overwrite copy off [] = copy.
Proof.
  intros H. unfold overwrite. simpl. rewrite Nat.add_0_r.
  apply take_drop.
Qed.

Lemma contribution_length sel count row :
  length (contribution zero sel count row) = Z.to_nat count.
Proof. unfold contribution. by rewrite length_fmap, length_seqZ. Qed.

Lemma contribution_lookup sel count row (j : nat) :
  Z.of_nat j < count ->
  contribution zero sel count row !! j
  = Some (default zero (row !! Z.to_nat (sel (Z.of_nat j)))).
Proof.
  intros Hj. unfold contribution.
  rewrite list_lookup_fmap, lookup_seqZ_lt by done. done.
Qed.

(** The loop over the components of one atom. *)
Lemma stage_row sel count (array : list (list V)) i raw copy off :
  load array i = Some raw ->
  (forall j, 0 <= j < count -> 0 <= sel j < Z.of_nat (length raw)) ->
  0 <= count -> 0 <= off -> off + count <= Z.of_nat (length copy) ->
  for_ count (fun j '(offset, copy) =>
      row ← load array i; v ← load row (sel j);
      copy ← store copy offset v;
      Some (offset + 1, copy)) (off, copy)
  = Some (off + count,
          overwrite copy (Z.to_nat off) (contribution zero sel count raw)).
Proof.
  intros Hraw Hsel Hc Hoff Hfit.
  set (crow := contribution zero sel count raw).
  match goal with |- for_ ?n ?body ?s = _ =>
    destruct (for_inv
      (fun j st => st = (off + j, overwrite copy (Z.to_nat off)
                                    (take (Z.to_nat j) crow)))
      n body s) as (st & Hrun & Hst)
  end.
  - done.
  - simpl. rewrite overwrite_nil by lia. f_equal. lia.
  - intros j st Hj ->. rewrite Hraw. cbn [mbind option_bind].
    destruct (Hsel j Hj) as [Hs0 Hs1].
    destruct (lookup_lt_is_Some_2 raw (Z.to_nat (sel j))) as [v Hv]; [lia|].
    assert (load raw (sel j) = Some v) as ->
      by (apply load_Some; split; [lia|done]).
    cbn [mbind option_bind].
    assert (crow !! Z.to_nat j = Some v) as Hcrow.
    { unfold crow. rewrite contribution_lookup by lia.
      rewrite Z2Nat.id by lia. by rewrite Hv. }
    assert (length (take (Z.to_nat j) crow) = Z.to_nat j) as Hlen.
    { rewrite length_take. unfold crow. rewrite contribution_length. lia. }
    unfold store. rewrite decide_True by (rewrite overwrite_length; lia).
    cbn [mbind option_bind]. eexists. split; [done|]. f_equal; [lia|].
    replace (Z.to_nat (off + j))
      with (Z.to_nat off + length (take (Z.to_nat j) crow))%nat by lia.
    rewrite overwrite_snoc by lia.
    replace (Z.to_nat (j + 1)) with (S (Z.to_nat j)) by lia.
    by rewrite (take_S_r _ _ _ Hcrow).
  - rewrite Hrun, Hst. do 3 f_equal. apply take_ge.
    unfold crow. rewrite contribution_length. lia.
Qed.

(** The loop over the atoms of a process, whatever its body, as long as the
    body overwrites [copy] as atom [i] says. *)
Lemma stage_loop (body : Z -> list V -> option (list V)) items n count natoms :
  0 <= count -> n = count * natoms -> fits count natoms items ->
  (forall (i : nat) it copy,
     items !! i = Some it -> length copy = Z.to_nat n ->
     body (Z.of_nat i) copy
     = Some (overwrite copy (Z.to_nat (count * (it.1 - 1))) it.2)) ->
  for_ (Z.of_nat (length items)) body (replicate (Z.to_nat n) zero)
  = Some (staging zero n count items).
Proof.
  intros Hc Hn Hfit Hbody.
  destruct (for_inv
    (fun j copy => copy = staging zero n count (take (Z.to_nat j) items))
    (Z.of_nat (length items)) body (replicate (Z.to_nat n) zero))
    as (copy & Hrun & Hcopy).
  - lia.
  - done.
  - intros j copy Hj ->.
    destruct (lookup_lt_is_Some_2 items (Z.to_nat j)) as [it Hit]; [lia|].
    eexists. split.
    + rewrite <- (Z2Nat.id j) at 1 by lia. apply (Hbody _ it); [done|].
      apply (staging_length n count natoms); [done|done|].
      by apply Forall_take.
    + replace (Z.to_nat (j + 1)) with (S (Z.to_nat j)) by lia.
      by rewrite (take_S_r _ _ _ Hit), staging_snoc.
  - rewrite Hrun, Hcopy. by rewrite Nat2Z.id, take_ge by lia.
Qed.

Lemma overwrite_single copy (i : nat) v :
  (i < length copy)%nat -> <[i := v]> copy = overwrite copy i [v].
Proof.
  intros Hi. rewrite <- (overwrite_nil copy i) at 1 by lia.
  replace i with (i + length (@nil V))%nat at 1 by (simpl; lia).
  by rewrite overwrite_snoc by (simpl; lia).
Qed.

Lemma staged_items_length sel count nlocal tag field :
  0 <= nlocal <= Z.of_nat (length tag) ->
  nlocal <= Z.of_nat (length field) ->
  Z.of_nat (length (staged_items zero sel count nlocal tag field)) = nlocal.
Proof.
  intros Ht Hf. unfold staged_items.
  rewrite length_fmap, length_zip_with, !length_take. lia.
Qed.

Lemma staged_items_lookup sel count nlocal tag field (i : nat) it :
  staged_items zero sel count nlocal tag field !! i = Some it ->
  exists t raw, tag !! i = Some t /\ field !! i = Some raw
    /\ it = (t, contribution zero sel count raw).
Proof.
  unfold staged_items. rewrite list_lookup_fmap.
  destruct (zip _ _ !! i) as [[t raw]|] eqn:Hz; simpl; [|done].
  intros [= <-]. apply lookup_zip_Some in Hz as [Ht Hr]. simpl in *.
  apply lookup_take_Some in Ht as [Ht _].
  apply lookup_take_Some in Hr as [Hr _]. by exists t, raw.
Qed.

Lemma staged_items_fits sel count natoms nlocal tag field :
  0 <= count ->
  Forall (fun a => 1 <= a.1 <= natoms)
    (zip (take (Z.to_nat nlocal) tag) (take (Z.to_nat nlocal) field)) ->
  fits count natoms (staged_items zero sel count nlocal tag field).
Proof.
  intros Hc H. unfold fits, staged_items. apply Forall_fmap.
  eapply Forall_impl; [exact H|]. intros a Ha. simpl. split; [done|].
  rewrite contribution_length. lia.
Qed.

Lemma stage_vector_spec sel natoms nlocal tag (vector : list V) :
  sel 0 = 0 ->
  0 <= nlocal <= Z.of_nat (length tag) ->
  nlocal <= Z.of_nat (length vector) ->
  Forall (fun a => 1 <= a.1 <= natoms)
    (zip (take (Z.to_nat nlocal) tag)
         (take (Z.to_nat nlocal) ((fun v => [v]) <$> vector))) ->
  stage_vector tag nlocal vector (replicate (Z.to_nat (1 * natoms)) zero)
  = Some (staging zero (1 * natoms) 1
            (staged_items zero sel 1 nlocal tag ((fun v => [v]) <$> vector))).
Proof.
  intros Hsel Ht Hv Htags. unfold stage_vector.
  rewrite <- (staged_items_length sel 1 nlocal tag ((fun v => [v]) <$> vector))
    at 1 by (rewrite ?length_fmap; lia).
  apply (stage_loop _ _ _ 1 natoms); [lia|done| |].
  - by apply staged_items_fits.
  - intros i it copy Hit Hlen.
    pose proof (Forall_lookup_1 _ _ _ _
      (staged_items_fits sel 1 natoms nlocal tag _ ltac:(lia) Htags) Hit)
      as [Hrange _].
    apply staged_items_lookup in Hit as (t & raw & Htag & Hraw & ->).
    rewrite list_lookup_fmap in Hraw.
    destruct (vector !! i) as [v|] eqn:Hvi; simpl in Hraw; [|done].
    injection Hraw as <-. simpl in Hrange.
    rewrite !load_nat, Htag. cbn [mbind option_bind]. rewrite Hvi.
    cbn [mbind option_bind]. unfold store.
    rewrite decide_True by lia. f_equal.
    rewrite overwrite_single by lia. cbn [fst snd].
    replace (Z.to_nat (1 * (t - 1))) with (Z.to_nat (t - 1)) by lia.
    f_equal. unfold contribution, seqZ. simpl.
    change (Z.of_nat 0 + 0) with 0. by rewrite Hsel.
Qed.

Lemma stage_array_spec sel count natoms nlocal tag (array : list (list V)) :
  (forall j, 0 <= j < count -> 0 <= sel j <= j) ->
  1 <= count -> 0 <= natoms -> count * natoms <= MAXSMALLINT ->
  0 <= nlocal <= Z.of_nat (length tag) ->
  nlocal <= Z.of_nat (length array) ->
  Forall (fun a => 1 <= a.1 <= natoms /\ count <= Z.of_nat (length a.2))
    (zip (take (Z.to_nat nlocal) tag) (take (Z.to_nat nlocal) array)) ->
  stage_array sel tag nlocal count array
    (replicate (Z.to_nat (count * natoms)) zero)
  = Some (staging zero (count * natoms) count
            (staged_items zero sel count nlocal tag array)).
Proof.
  intros Hsel Hc Hnat Hmax Ht Ha Hatoms. unfold stage_array.
  assert (Forall (fun a => 1 <= a.1 <= natoms)
    (zip (take (Z.to_nat nlocal) tag) (take (Z.to_nat nlocal) array)))
    as Htags.
  { eapply Forall_impl; [exact Hatoms|]. by intros a [? _]. }
  rewrite <- (staged_items_length sel count nlocal tag array) at 1 by lia.
  apply (stage_loop _ _ _ count natoms); [lia|done| |].
  - apply staged_items_fits; [lia|done].
  - intros i it copy Hit Hlen.
    pose proof (Forall_lookup_1 _ _ _ _
      (staged_items_fits sel count natoms nlocal tag _ ltac:(lia) Htags) Hit)
      as [Hrange _].
    assert (i < Z.to_nat nlocal)%nat as Hi.
    { apply lookup_lt_Some in Hit.
      pose proof (staged_items_length sel count nlocal tag array). lia. }
    apply staged_items_lookup in Hit as (t & raw & Htag & Hraw & ->).
    assert (count <= Z.of_nat (length raw)) as Hrow.
    { assert (zip (take (Z.to_nat nlocal) tag) (take (Z.to_nat nlocal) array)
              !! i = Some (t, raw)) as Hz.
      { apply lookup_zip_Some. simpl. by rewrite !lookup_take_lt by lia. }
      by destruct (Forall_lookup_1 _ _ _ _ Hatoms Hz) as [_ ?]. }
    simpl in Hrange. cbn [fst snd].
    rewrite (load_nat tag), Htag. cbn [mbind option_bind].
    unfold int_mul. rewrite checked_in_int
      by (unfold in_int, INT_MIN; nia).
    cbn [mbind option_bind].
    rewrite (stage_row sel count array (Z.of_nat i) raw copy
               (count * (t - 1))).
    + done.
    + by rewrite load_nat.
    + intros j Hj. specialize (Hsel j Hj). lia.
    + lia.
    + nia.
    + nia.
Qed.
End staging_facts.

(** ** One process of gather *)

Lemma local_atoms_inv K atom name count atoms :
  local_atoms K atom name count = Some atoms ->
  exists vptr field,
    Atom.extract atom name = Some vptr
    /\ field_rows K vptr count = Some field
    /\ 0 <= Atom.nlocal atom <= Z.of_nat (length (Atom.tag atom))
    /\ Atom.nlocal atom <= Z.of_nat (length field)
    /\ atoms = zip (take (Z.to_nat (Atom.nlocal atom)) (Atom.tag atom))
                   (take (Z.to_nat (Atom.nlocal atom)) field).
Proof.
  unfold local_atoms.
  destruct (Atom.extract atom name) as [vptr|]; simpl; [|done].
  destruct (field_rows K vptr count) as [field|] eqn:Hf; simpl; [|done].
  case_decide as H; [|done]. intros [= <-]. exists vptr, field.
  destruct H as (? & ? & ?). split_and!; done.
Qed.

Lemma column_le K count j : 0 <= j < count -> 0 <= column K j <= j.
Proof. destruct K; simpl; lia. Qed.

Lemma gather_stage_ready K me atom name type count natoms atoms :
  kind_of type = K ->
  gather_ready K atom name count natoms atoms ->
  gather_stage me atom name type count
  = Some (Reduces (buffer K (staging_of K count natoms atoms)) (count * natoms)).
Proof.
  unfold staging_of. intros HK (Href & Hnat & H0 & Hc & Hmax & Hloc & Hatoms).
  destruct (local_atoms_inv _ _ _ _ _ Hloc)
    as (vptr & field & Hex & Hfield & Hnl & Hnf & ->).
  unfold gather_refuses in Href. unfold gather_stage.
  rewrite (decide_False (P := _ \/ _)) by tauto.
  rewrite (decide_False (P := Atom.natoms atom > MAXSMALLINT)) by lia.
  rewrite (decide_False (P := 0 <> 0)) by (intros Hx; by apply Hx).
  rewrite Hex, Hnat.
  rewrite static_cast_int_id by (unfold in_int, INT_MIN; lia).
  assert (int_mul count natoms = Some (count * natoms)) as Hmul.
  { apply checked_in_int. unfold in_int, INT_MIN. nia. }
  rewrite Hmul. cbn [mbind option_bind].
  assert (Forall (fun a => 1 <= a.1 <= natoms)
    (zip (take (Z.to_nat (Atom.nlocal atom)) (Atom.tag atom))
         (take (Z.to_nat (Atom.nlocal atom)) field))) as Htags.
  { eapply Forall_impl; [exact Hatoms|]. by intros a [? _]. }
  unfold field_rows in Hfield. unfold kind_of in HK.
  destruct (decide (type = 0)) as [Htype|Htype]; destruct K;
    try discriminate HK.
  - (* the integer branch *)
    unfold gather_int. rewrite Hmul. cbn [mbind option_bind]. cbv zeta.
    destruct (decide (count = 1)) as [->|Hc1].
    + simpl in Hfield.
      destruct (as_ints vptr) as [vector|]; simpl in Hfield; [|done].
      injection Hfield as <-. cbn [mbind option_bind].
      pose proof (stage_vector_spec (V := Z) 0 (column MPI_INT) natoms
        (Atom.nlocal atom) (Atom.tag atom) vector eq_refl Hnl
        ltac:(by rewrite length_fmap in Hnf) Htags) as Hs.
      unfold stage_vector in Hs. rewrite Hs. done.
    + simpl in Hfield. rewrite Hfield. cbn [mbind option_bind].
      pose proof (stage_array_spec (V := Z) 0 (column MPI_INT) count natoms
        (Atom.nlocal atom) (Atom.tag atom) field
        (column_le MPI_INT count) Hc H0 Hmax Hnl Hnf Hatoms) as Hs.
      unfold stage_array in Hs. simpl column in Hs. rewrite Hs. done.
  - (* the double branch *)
    unfold gather_double. rewrite Hmul. cbn [mbind option_bind]. cbv zeta.
    destruct (decide (count = 1)) as [->|Hc1].
    + simpl in Hfield.
      destruct (as_doubles vptr) as [vector|]; simpl in Hfield; [|done].
      injection Hfield as <-. cbn [mbind option_bind].
      pose proof (stage_vector_spec (V := float) 0%float (column MPI_DOUBLE)
        natoms (Atom.nlocal atom) (Atom.tag atom) vector eq_refl Hnl
        ltac:(by rewrite length_fmap in Hnf) Htags) as Hs.
      unfold stage_vector in Hs. rewrite Hs. done.
    + simpl in Hfield. rewrite Hfield. cbn [mbind option_bind].
      pose proof (stage_array_spec (V := float) 0%float (column MPI_DOUBLE)
        count natoms (Atom.nlocal atom) (Atom.tag atom) field
        (column_le MPI_DOUBLE count) Hc H0 Hmax Hnl Hnf Hatoms) as Hs.
      unfold stage_array in Hs. simpl column in Hs. rewrite Hs. done.
Qed.

(** ** All processes of gather *)

Lemma mapM_fmap_to {A B C} (f : B -> option C) (g : A -> B) (h : A -> C) l :
  (forall x, f (g x) = Some (h x)) -> mapM f (g <$> l) = Some (h <$> l).
Proof.
  intros H. induction l as [|x l IH]; [done|].
  rewrite !fmap_cons. cbn [mapM]. rewrite H. cbn [mbind option_bind].
  rewrite IH. done.
Qed.

Lemma vector_of_buffer K c : vector_of K (buffer K c) = Some c.
Proof. by destruct K. Qed.

Lemma contributions_fits K count natoms its :
  0 <= count ->
  Forall (fun a => 1 <= a.1 <= natoms /\ count <= Z.of_nat (length a.2)) its ->
  fits count natoms (contributions K count its).
Proof.
  intros Hc H. unfold fits, contributions. apply Forall_fmap.
  eapply Forall_impl; [exact H|]. intros a [Ha _]. simpl. split; [done|].
  rewrite contribution_length. lia.
Qed.

Lemma gather_ready_fits K atom name count natoms its :
  gather_ready K atom name count natoms its ->
  1 <= count /\ 0 <= natoms
  /\ fits count natoms (contributions K count its).
Proof.
  intros (_ & _ & H0 & Hc & _ & _ & Hits). split_and!; [done|done|].
  apply contributions_fits; [lia|done].
Qed.

Lemma staging_of_length K atom name count natoms its :
  gather_ready K atom name count natoms its ->
  length (staging_of K count natoms its) = Z.to_nat (count * natoms).
Proof.
  intros H. destruct (gather_ready_fits _ _ _ _ _ _ H) as (Hc & H0 & Hfit).
  apply (staging_length _ _ count natoms); [lia|done|done].
Qed.

Lemma reduce_as_kind K type send data :
  kind_of type = K ->
  (if decide (type = 0)
   then reduce_as as_ints ints int_sum send data
   else reduce_as as_doubles doubles double_sum send data)
  = reduce_as (vector_of K) (buffer K) (sum K) send data.
Proof.
  unfold kind_of. intros <-. by destruct (decide (type = 0)).
Qed.

Lemma gather_completes K world name type count natoms atoms data recv :
  kind_of type = K ->
  world <> [] ->
  world_ready K world name count natoms atoms ->
  buffers_ready K (count * natoms) data recv ->
  length data = length world ->
  lammps_gather_atoms world name type count data
  = Some (buffer K <$>
            ((fun r => overwrite r 0 (gathered K count natoms atoms)) <$> recv),
          [Allreduce (count * natoms)]).
Proof.
  intros HK Hne Hready [-> Hrecv] Hlen.
  set (n := count * natoms).
  unfold lammps_gather_atoms. rewrite decide_True by done.
  assert (mapM id
    (imap (fun k atom => gather_stage (Z.of_nat k) atom name type count)
          world)
    = Some ((fun its => Reduces (buffer K (staging_of K count natoms its)) n)
              <$> atoms)) as ->.
  { apply mapM_Some, Forall2_same_length_lookup_2.
    - rewrite length_imap, length_fmap. by eapply Forall2_length.
    - intros i y z. rewrite list_lookup_imap, list_lookup_fmap.
      destruct (world !! i) as [atom|] eqn:Hw; simpl; [|done].
      destruct (Forall2_lookup_l _ _ _ _ _ Hready Hw) as (its & Hits & Hr).
      rewrite Hits. simpl. intros [= <-] [= <-].
      by apply gather_stage_ready. }
  cbn [mbind option_bind].
  assert (exists its0 atoms', atoms = its0 :: atoms') as (its0 & atoms' & Hat).
  { destruct Hready; [done|]. eauto. }
  assert (forall its, its ∈ atoms ->
            length (staging_of K count natoms its) = Z.to_nat n) as Hlens.
  { intros its Hin. apply list_elem_of_lookup in Hin as [i Hi].
    destruct (Forall2_lookup_r _ _ _ _ _ Hready Hi) as (atom & _ & Hr).
    by rewrite (staging_of_length _ _ _ _ _ _ Hr). }
  assert (0 <= n) as Hn.
  { destruct (Forall2_lookup_r _ _ _ 0%nat its0 Hready
                ltac:(by rewrite Hat)) as (atom & _ & Hr).
    destruct (gather_ready_fits _ _ _ _ _ _ Hr) as (Hc & H0 & _).
    unfold n. nia. }
  assert (mapM returned
    ((fun its => Reduces (buffer K (staging_of K count natoms its)) n)
       <$> atoms) = None) as -> by (by rewrite Hat).
  rewrite (mapM_fmap_to reduces _
    (fun its => (buffer K (staging_of K count natoms its), n))) by done.
  cbn [mbind option_bind].
  assert (snd <$> head ((fun its =>
            (buffer K (staging_of K count natoms its), n)) <$> atoms)
          = Some n) as -> by (by rewrite Hat).
  cbn [mbind option_bind].
  rewrite (reduce_as_kind K) by done.
  unfold reduce_as.
  rewrite (mapM_fmap_to (typed_send (vector_of K)) _
    (fun its => (staging_of K count natoms its, n))).
  2:{ intros its. unfold typed_send. simpl. by rewrite vector_of_buffer. }
  rewrite (mapM_fmap_Some _ _ _ (vector_of_buffer K)).
  assert (MPI_Allreduce (sum K)
            ((fun its => (staging_of K count natoms its, n)) <$> atoms) recv
          = Some ((fun r => overwrite r 0 (gathered K count natoms atoms))
                    <$> recv)) as ->; [|done].
  unfold MPI_Allreduce. rewrite Hat at 1. rewrite fmap_cons.
  rewrite decide_True.
  - assert (foldl (zip_with (sum K))
              (take (Z.to_nat n) (staging_of K count natoms its0))
              ((fun s : list (carrier K) * Z => take (Z.to_nat n) s.1) <$>
                 ((fun its => (staging_of K count natoms its, n)) <$> atoms'))
            = gathered K count natoms atoms) as ->; [|done].
    unfold gathered. rewrite Hat, fmap_cons. unfold reduce.
    rewrite take_ge by (rewrite Hlens; [lia|rewrite Hat; by left]).
    f_equal. rewrite <- list_fmap_compose. apply Forall_fmap_ext_1.
    apply Forall_forall. intros its Hin. simpl.
    rewrite take_ge; [done|]. rewrite Hlens; [lia|rewrite Hat; by right].
  - split_and!; [done| |done].
    apply Forall_fmap, Forall_forall.
    intros its Hin. simpl. split; [done|]. rewrite Hlens by done. lia.
Qed.

(** ** The reduction *)

Section reduction_facts.
Context {V : Type} (zero : V) (op : V -> V -> V).
Implicit Types (items : list (Z * list V)) (copy row : list V).


Lemma reduce_length (copies : list (list V)) (n : nat) :
  copies <> [] -> Forall (fun copy => length copy = n) copies ->
  length (reduce op copies) = n.
Proof.
  intros Hne H. destruct H as [|c cs Hc Hcs]; [done|]. simpl. clear Hne.
  revert c Hc. induction Hcs as [|c1 cs Hc1 _ IH]; intros c Hc; [done|].
  simpl. apply IH. rewrite length_zip_with. lia.
Qed.

Hypothesis op_zero : op zero zero = zero.

(** A value the sum with zero leaves as it is. *)
Let ex (v : V) : Prop := op zero v = v /\ op v zero = v.

(** The sum of the staging vectors of two sets of atoms with no tag in
    common is the staging vector of their union. *)
Lemma staging_merge n count natoms items1 items2 :
  1 <= count -> n = count * natoms -> 0 <= natoms ->
  fits count natoms items1 -> fits count natoms items2 ->
  (forall t, t ∈ items1.*1 -> t ∈ items2.*1 -> False) ->
  Forall (fun it => Forall ex it.2) items1 ->
  Forall (fun it => Forall ex it.2) items2 ->
  zip_with op (staging zero n count items1) (staging zero n count items2)
  = staging zero n count (items1 ++ items2).
Proof.
  intros Hc Hn H0 Hf1 Hf2 Hdisj Hex1 Hex2.
  assert (fits count natoms (items1 ++ items2)) as Hf12
    by (by apply Forall_app).
  apply (list_eq_same_length _ _ (Z.to_nat n)).
  - by apply (staging_length _ _ count natoms); [lia|done|done].
  - rewrite length_zip_with,
      !(staging_length zero n count natoms) by (done || lia). lia.
  - intros o x y Ho.
    rewrite lookup_zip_with,
      !(staging_lookup zero n count natoms) by (done || lia).
    rewrite lookup_items_app. cbn [mbind option_bind].
    intros [= <-] [= <-].
    destruct (lookup_items count items2 (Z.of_nat o)) as [v2|] eqn:H2;
      destruct (lookup_items count items1 (Z.of_nat o)) as [v1|] eqn:H1;
      simpl.
    + exfalso.
      apply lookup_items_Some in H1 as (it1 & Hin1 & Hc1 & _).
      apply lookup_items_Some in H2 as (it2 & Hin2 & Hc2 & _).
      apply (Hdisj it1.1).
      * apply list_elem_of_fmap. by exists it1.
      * rewrite (covered_once _ _ _ _ Hc1 Hc2).
        apply list_elem_of_fmap. by exists it2.
    + apply lookup_items_Some in H2 as (it2 & Hin2 & _ & Hv).
      pose proof (Forall_forall (fun it => Forall ex it.2) items2) as [Hfa _].
      specialize (Hfa Hex2 it2 Hin2). simpl in Hfa.
      by destruct (Forall_lookup_1 _ _ _ _ Hfa Hv) as [? _].
    + apply lookup_items_Some in H1 as (it1 & Hin1 & _ & Hv).
      pose proof (Forall_forall (fun it => Forall ex it.2) items1) as [Hfa _].
      specialize (Hfa Hex1 it1 Hin1). simpl in Hfa.
      by destruct (Forall_lookup_1 _ _ _ _ Hfa Hv) as [_ ?].
    + done.
Qed.

(** With no tag on two processes, the reduction delivers the staging vector
    of all atoms taken together. *)
Lemma reduce_disjoint n count natoms items0 (others : list (list (Z * list V))) :
  1 <= count -> n = count * natoms -> 0 <= natoms ->
  Forall (fits count natoms) (items0 :: others) ->
  Forall (Forall (fun it => Forall ex it.2)) (items0 :: others) ->
  NoDup (concat (items0 :: others)).*1 ->
  reduce op (staging zero n count <$> items0 :: others)
  = staging zero n count (concat (items0 :: others)).
Proof.
  intros Hc Hn H0. rewrite fmap_cons. unfold reduce.
  revert items0. induction others as [|items1 others IH];
    intros items0 Hfit Hex Hnd.
  - simpl. by rewrite app_nil_r.
  - apply Forall_cons in Hfit as [Hf0 Hfit].
    apply Forall_cons in Hfit as [Hf1 Hfit].
    apply Forall_cons in Hex as [He0 Hex].
    apply Forall_cons in Hex as [He1 Hex].
    simpl in Hnd. rewrite app_assoc in Hnd.
    rewrite fmap_cons. cbn [foldl].
    rewrite (staging_merge n count natoms) by
      (try done; intros t Ht1 Ht2;
       rewrite fmap_app in Hnd; apply NoDup_app in Hnd as [Hnd _];
       rewrite fmap_app in Hnd; apply NoDup_app in Hnd as (_ & Hd & _);
       by apply (Hd t)).
    rewrite (IH (items0 ++ items1)).
    + simpl. by rewrite app_assoc.
    + apply Forall_cons. split; [by apply Forall_app|done].
    + apply Forall_cons. split; [by apply Forall_app|done].
    + done.
Qed.




End reduction_facts.

(** ** What gather delivers *)

Lemma sum_zero K : sum K (zero K) (zero K) = zero K.
Proof. by destruct K. Qed.

Lemma exact_zero K : exact K (zero K).
Proof. split; apply sum_zero. Qed.

(** Every [int] passes through the reduction unchanged. *)
Lemma exact_int (v : Z) : in_int v -> exact MPI_INT v.
Proof.
  intros Hv. unfold exact. simpl. unfold int_sum.
  rewrite Z.add_0_l, Z.add_0_r. split; by apply static_cast_int_id.
Qed.

Lemma contributions_fst K count its :
  (contributions K count its).*1 = its.*1.
Proof.
  unfold contributions. rewrite <- list_fmap_compose.
  by apply list_fmap_ext.
Qed.

Lemma contributions_concat K count (atoms : list (list (Z * list (carrier K)))) :
  concat (contributions K count <$> atoms)
  = contributions K count (concat atoms).
Proof.
  induction atoms as [|its atoms IH]; [done|].
  rewrite fmap_cons. simpl. rewrite IH. unfold contributions.
  by rewrite fmap_app.
Qed.

Lemma contributions_exact K count its :
  exact_atoms K its ->
  Forall (fun it => Forall (exact K) it.2) (contributions K count its).
Proof.
  intros H. unfold contributions. apply Forall_fmap.
  eapply Forall_impl; [exact H|]. intros a Ha. simpl.
  unfold contribution. apply Forall_fmap, Forall_forall. intros j _. simpl.
  destruct (a.2 !! Z.to_nat (column K j)) as [v|] eqn:Hv.
  - apply (Forall_lookup_1 _ _ _ _ Ha Hv).
  - apply exact_zero.
Qed.

Lemma world_ready_elem K world name count natoms atoms its :
  world_ready K world name count natoms atoms -> its ∈ atoms ->
  exists atom, gather_ready K atom name count natoms its.
Proof.
  intros Hr Hin. apply list_elem_of_lookup in Hin as [i Hi].
  destruct (Forall2_lookup_r _ _ _ _ _ Hr Hi) as (atom & _ & Hra).
  by exists atom.
Qed.

Lemma world_ready_concat K world name count natoms atoms :
  world_ready K world name count natoms atoms ->
  Forall (fun a => 1 <= a.1 <= natoms /\ count <= Z.of_nat (length a.2))
         (concat atoms).
Proof.
  intros Hr. apply Forall_concat, Forall_forall. intros its Hin.
  destruct (world_ready_elem _ _ _ _ _ _ _ Hr Hin) as (atom & Ha).
  by destruct Ha as (_ & _ & _ & _ & _ & _ & ?).
Qed.

(** Where a process owns the atom: its contribution. *)
Lemma staging_of_owned K count natoms its a j :
  1 <= count -> 0 <= natoms ->
  Forall (fun a => 1 <= a.1 <= natoms /\ count <= Z.of_nat (length a.2)) its ->
  NoDup its.*1 -> a ∈ its -> 0 <= j < count ->
  staging_of K count natoms its !! Z.to_nat (count * (a.1 - 1) + j)
  = a.2 !! Z.to_nat (column K j).
Proof.
  intros Hc H0 Hfit Hnd Hin Hj. unfold staging_of.
  destruct (proj1 (Forall_forall _ its) Hfit a Hin) as [Ht Hlen].
  rewrite (staging_lookup _ _ count natoms)
    by (try done; try lia; try nia; by apply contributions_fits; [lia|]).
  rewrite (lookup_items_elem count _
             (a.1, contribution (zero K) (column K) count a.2)).
  - simpl. rewrite Z2Nat.id by nia.
    replace (count * (a.1 - 1) + j - count * (a.1 - 1)) with j by lia.
    rewrite contribution_lookup by lia. rewrite (Z2Nat.id j) by lia.
    pose proof (column_le K count j Hj).
    destruct (lookup_lt_is_Some_2 a.2 (Z.to_nat (column K j))) as [v Hv];
      [lia|].
    by rewrite Hv.
  - by rewrite contributions_fst.
  - unfold contributions. apply list_elem_of_fmap. by exists a.
  - simpl. nia.
Qed.


(** With no tag on two processes, the reduction delivers the staging vector
    of all atoms of the world. *)
Lemma gathered_disjoint K world name count natoms atoms :
  world <> [] ->
  world_ready K world name count natoms atoms ->
  NoDup (concat atoms).*1 ->
  exact_atoms K (concat atoms) ->
  gathered K count natoms atoms = staging_of K count natoms (concat atoms).
Proof.
  intros Hne Hr Hnd Hex.
  destruct atoms as [|its0 atoms'].
  { apply Forall2_length in Hr. by destruct world. }
  destruct (world_ready_elem _ _ _ _ _ _ its0 Hr ltac:(by left))
    as (atom0 & Hr0).
  destruct (gather_ready_fits _ _ _ _ _ _ Hr0) as (Hc & H0 & _).
  unfold gathered, staging_of.
  rewrite (list_fmap_compose (contributions K count)
             (staging (zero K) (count * natoms) count)).
  rewrite fmap_cons.
  rewrite (reduce_disjoint (zero K) (sum K) (sum_zero K)
             (count * natoms) count natoms); [|done|done|done| | |].
  - by rewrite <- fmap_cons, contributions_concat.
  - rewrite <- fmap_cons. apply Forall_fmap, Forall_forall.
    intros its Hin. simpl.
    destruct (world_ready_elem _ _ _ _ _ _ _ Hr Hin) as (atom & Ha).
    by destruct (gather_ready_fits _ _ _ _ _ _ Ha) as (_ & _ & ?).
  - rewrite <- fmap_cons. apply Forall_fmap, Forall_forall.
    intros its Hin. simpl. apply contributions_exact.
    unfold exact_atoms in *. rewrite Forall_concat in Hex.
    by eapply Forall_forall in Hex.
  - by rewrite <- fmap_cons, contributions_concat, contributions_fst.
Qed.






(** ** Scatter *)

Section scatter_facts.
Context {V : Type}.
Implicit Types (field array : list (list V)) (dptr row : list V).

Lemma slice_length count dptr t :
  0 <= count -> 1 <= t -> count * t <= Z.of_nat (length dptr) ->
  length (slice count dptr t) = Z.to_nat count.
Proof.
  intros Hc Ht Hfit. unfold slice. rewrite length_take, length_drop. nia.
Qed.

Lemma slice_lookup count dptr t (j : nat) :
  0 <= count -> 1 <= t -> Z.of_nat j < count ->
  slice count dptr t !! j = dptr !! Z.to_nat (count * (t - 1) + Z.of_nat j).
Proof.
  intros Hc Ht Hj. unfold slice.
  rewrite lookup_take_lt by lia. rewrite lookup_drop. f_equal. nia.
Qed.

Lemma overwrite_front row vs :
  overwrite row 0 vs = vs ++ drop (length vs) row.
Proof. done. Qed.

(** The loop over the components of one atom. *)
Lemma unstage_row count dptr array (m : nat) row off :
  array !! m = Some row ->
  0 <= count -> count <= Z.of_nat (length row) ->
  0 <= off -> off + count <= Z.of_nat (length dptr) ->
  for_ count (fun j '(offset, array) =>
      v ← load dptr offset;
      row ← load array (Z.of_nat m);
      row ← store row j v;
      array ← store array (Z.of_nat m) row;
      Some (offset + 1, array)) (off, array)
  = Some (off + count,
          <[m := overwrite row 0
                   (take (Z.to_nat count) (drop (Z.to_nat off) dptr))]> array).
Proof.
  intros Hrow Hc Hlen Hoff Hfit.
  set (vals := drop (Z.to_nat off) dptr).
  assert (Z.to_nat count <= length vals)%nat as Hvals
    by (unfold vals; rewrite length_drop; lia).
  pose proof (lookup_lt_Some _ _ _ Hrow) as Hm.
  match goal with |- for_ ?n ?body ?s = _ =>
    destruct (for_inv
      (fun j st => st = (off + j,
         <[m := overwrite row 0 (take (Z.to_nat j) vals)]> array))
      n body s) as (st & Hrun & Hst)
  end.
  - done.
  - simpl. rewrite take_0, overwrite_nil by lia.
    rewrite list_insert_id by done. f_equal. lia.
  - intros j st Hj ->.
    destruct (lookup_lt_is_Some_2 vals (Z.to_nat j)) as [v Hv]; [lia|].
    assert (load dptr (off + j) = Some v) as ->.
    { apply load_Some. split; [lia|]. unfold vals in Hv.
      rewrite lookup_drop in Hv. rewrite <- Hv. f_equal. lia. }
    cbn [mbind option_bind].
    rewrite load_nat, list_lookup_insert_eq by done.
    cbn [mbind option_bind].
    assert (length (take (Z.to_nat j) vals) = Z.to_nat j) as Hlj
      by (rewrite length_take; lia).
    unfold store at 2.
    rewrite decide_True by (rewrite overwrite_length; simpl; lia).
    cbn [mbind option_bind].
    rewrite store_nat by (by rewrite length_insert).
    cbn [mbind option_bind]. eexists. split; [done|]. f_equal; [lia|].
    rewrite list_insert_insert_eq. f_equal.
    replace (Z.to_nat j) with (0 + length (take (Z.to_nat j) vals))%nat
      at 1 by lia.
    rewrite overwrite_snoc by (simpl; lia).
    replace (Z.to_nat (j + 1)) with (S (Z.to_nat j)) by lia.
    by rewrite (take_S_r _ _ _ Hv).
  - by rewrite Hrun, Hst.
Qed.

Lemma scatter_step_shape map count dptr field t :
  0 <= count -> 1 <= t -> count * t <= Z.of_nat (length dptr) ->
  (map t >= 0 -> exists row, field !! Z.to_nat (map t) = Some row
                             /\ count <= Z.of_nat (length row)) ->
  shape (scatter_step map count dptr field t) = shape field.
Proof.
  intros Hc Ht Hfit Hslot. unfold scatter_step.
  case_decide as Hm; [|done].
  destruct (Hslot Hm) as (row & Hrow & Hlen). rewrite Hrow.
  unfold shape. rewrite list_fmap_insert.
  apply list_insert_id. rewrite list_lookup_fmap, Hrow. simpl. f_equal.
  rewrite overwrite_length; [done|]. rewrite slice_length by done. lia.
Qed.

Lemma shape_slot field1 field2 (m : nat) row count :
  shape field1 = shape field2 ->
  field1 !! m = Some row -> count <= Z.of_nat (length row) ->
  exists row', field2 !! m = Some row' /\ length row' = length row.
Proof.
  intros Hs Hrow Hlen.
  assert (shape field2 !! m = Some (length row)) as H
    by (rewrite <- Hs; unfold shape; by rewrite list_lookup_fmap, Hrow).
  unfold shape in H. rewrite list_lookup_fmap in H.
  destruct (field2 !! m) as [row'|]; simpl in H; [|done].
  injection H as H. by exists row'.
Qed.

Lemma slots_fit_lookup map count natoms field t :
  slots_fit map count natoms field -> 1 <= t <= natoms -> map t >= 0 ->
  exists row, field !! Z.to_nat (map t) = Some row
              /\ count <= Z.of_nat (length row).
Proof.
  intros Hs Ht. unfold slots_fit in Hs. rewrite Forall_seqZ in Hs.
  apply Hs. lia.
Qed.

Lemma scattered_prefix_shape map count natoms dptr field (i : nat) :
  0 <= count -> count * natoms <= Z.of_nat (length dptr) ->
  slots_fit map count natoms field -> Z.of_nat i <= natoms ->
  shape (foldl (scatter_step map count dptr) field (seqZ 1 (Z.of_nat i)))
  = shape field.
Proof.
  intros Hc Hfit Hslots. induction i as [|i IH]; intros Hi; [done|].
  rewrite seqZ_S, foldl_app. cbn [foldl].
  rewrite scatter_step_shape; [apply IH; lia|done|lia|nia|].
  intros Hm.
  destruct (slots_fit_lookup _ _ _ _ (1 + Z.of_nat i) Hslots ltac:(lia) Hm)
    as (row & Hrow & Hlen).
  destruct (shape_slot field _ _ row count (eq_sym (IH ltac:(lia))) Hrow Hlen)
    as (row' & Hrow' & Hlen').
  exists row'. split; [done|lia].
Qed.

Lemma unstage_array_spec map count natoms dptr field :
  1 <= count -> 0 <= natoms -> count * natoms <= MAXSMALLINT ->
  count * natoms <= Z.of_nat (length dptr) ->
  slots_fit map count natoms field ->
  unstage_array map natoms count dptr field
  = Some (scattered map count natoms dptr field).
Proof.
  intros Hc H0 Hmax Hfit Hslots. unfold unstage_array, scattered.
  match goal with |- for_ ?n ?body ?s = _ =>
    destruct (for_inv
      (fun i arr => arr = foldl (scatter_step map count dptr) field
                            (seqZ 1 i))
      n body s) as (arr & Hrun & Harr)
  end.
  - done.
  - done.
  - intros i arr Hi ->. cbv zeta.
    replace (seqZ 1 (i + 1))
      with (seqZ 1 (Z.of_nat (Z.to_nat i)) ++ [i + 1]).
    2:{ replace (i + 1) with (Z.of_nat (S (Z.to_nat i))) at 2 by lia.
        rewrite seqZ_S. do 2 f_equal. lia. }
    rewrite foldl_app. cbn [foldl]. rewrite Z2Nat.id by lia.
    set (arr := foldl (scatter_step map count dptr) field (seqZ 1 i)).
    unfold scatter_step.
    destruct (decide (map (i + 1) >= 0)) as [Hm|Hm]; [|by eexists].
    destruct (slots_fit_lookup _ _ _ _ (i + 1) Hslots ltac:(lia) Hm)
      as (row0 & Hrow0 & Hlen0).
    pose proof (scattered_prefix_shape map count natoms dptr field
                  (Z.to_nat i) ltac:(lia) Hfit Hslots ltac:(lia)) as Hshape.
    rewrite Z2Nat.id in Hshape by lia. fold arr in Hshape.
    destruct (shape_slot field arr _ row0 count (eq_sym Hshape) Hrow0 Hlen0)
      as (row & Hrow & Hlen).
    rewrite Hrow.
    unfold int_mul. rewrite checked_in_int by (unfold in_int, INT_MIN; nia).
    cbn [mbind option_bind].
    assert (map (i + 1) = Z.of_nat (Z.to_nat (map (i + 1)))) as Hmz by lia.
    rewrite Hmz, !Nat2Z.id.
    rewrite (unstage_row count dptr arr (Z.to_nat (map (i + 1))) row
               (count * i)) by (done || lia || nia).
    eexists. split; [done|]. simpl. unfold slice.
    by replace (count * (i + 1 - 1)) with (count * i) by lia.
  - by rewrite Hrun, Harr.
Qed.

Lemma unstage_vector_spec map natoms dptr vector :
  0 <= natoms -> natoms <= Z.of_nat (length dptr) ->
  slots_fit map 1 natoms ((fun v => [v]) <$> vector) ->
  exists vector',
    unstage_vector map natoms dptr vector = Some vector'
    /\ (fun v => [v]) <$> vector'
       = scattered map 1 natoms dptr ((fun v => [v]) <$> vector).
Proof.
  intros H0 Hfit Hslots. unfold unstage_vector, scattered.
  set (field := (fun v => [v]) <$> vector) in *.
  match goal with |- exists _, for_ ?n ?body ?s = _ /\ _ =>
    destruct (for_inv
      (fun i vec => (fun v => [v]) <$> vec
                    = foldl (scatter_step map 1 dptr) field (seqZ 1 i))
      n body s) as (vec & Hrun & Hvec)
  end.
  - done.
  - done.
  - intros i vec Hi Hvec. cbv zeta.
    replace (seqZ 1 (i + 1))
      with (seqZ 1 (Z.of_nat (Z.to_nat i)) ++ [i + 1]).
    2:{ replace (i + 1) with (Z.of_nat (S (Z.to_nat i))) at 2 by lia.
        rewrite seqZ_S. do 2 f_equal. lia. }
    rewrite foldl_app. cbn [foldl]. rewrite Z2Nat.id by lia.
    rewrite <- Hvec. unfold scatter_step.
    destruct (decide (map (i + 1) >= 0)) as [Hm|Hm]; [|by eexists].
    destruct (slots_fit_lookup _ _ _ _ (i + 1) Hslots ltac:(lia) Hm)
      as (row0 & Hrow0 & Hlen0).
    pose proof (scattered_prefix_shape map 1 natoms dptr field
                  (Z.to_nat i) ltac:(lia) ltac:(lia) Hslots ltac:(lia))
      as Hshape.
    rewrite Z2Nat.id in Hshape by lia. rewrite <- Hvec in Hshape.
    destruct (shape_slot field _ _ row0 1 (eq_sym Hshape) Hrow0 Hlen0)
      as (row & Hrow & Hlen).
    rewrite Hrow. rewrite list_lookup_fmap in Hrow.
    destruct (vec !! Z.to_nat (map (i + 1))) as [old|] eqn:Hold;
      simpl in Hrow; [|done].
    injection Hrow as <-.
    destruct (lookup_lt_is_Some_2 dptr (Z.to_nat i)) as [v Hv]; [lia|].
    assert (load dptr i = Some v) as ->
      by (apply load_Some; split; [lia|done]).
    cbn [mbind option_bind]. unfold store.
    rewrite decide_True by (apply lookup_lt_Some in Hold; lia).
    eexists. split; [done|]. rewrite list_fmap_insert. f_equal.
    unfold slice. replace (1 * (i + 1 - 1)) with i by lia.
    rewrite (drop_S _ _ _ Hv). done.
  - exists vec. by rewrite Hrun.
Qed.

(** A slot no tag of [ts] maps to is left as it is. *)
Lemma scatter_frame map count dptr field (ts : list Z) (m : nat) :
  (forall t, t ∈ ts -> map t <> Z.of_nat m) ->
  foldl (scatter_step map count dptr) field ts !! m = field !! m.
Proof.
  revert field. induction ts as [|t ts IH]; intros field Hts; [done|].
  cbn [foldl]. rewrite IH by (intros t' Hin; apply Hts; by right).
  unfold scatter_step. case_decide as Hm; [|done].
  destruct (field !! Z.to_nat (map t)) as [row|]; [|done].
  apply list_lookup_insert_ne. intros Heq. apply (Hts t); [by left|lia].
Qed.

(** Whatever the tags [ts] do to a slot, they leave its length and what
    lies beyond its first [count] values. *)
Lemma scatter_rest map count dptr field (ts : list Z) (m : nat) row :
  0 <= count ->
  (forall t, t ∈ ts -> 1 <= t /\ count * t <= Z.of_nat (length dptr)) ->
  field !! m = Some row -> count <= Z.of_nat (length row) ->
  exists row', foldl (scatter_step map count dptr) field ts !! m = Some row'
    /\ length row' = length row
    /\ drop (Z.to_nat count) row' = drop (Z.to_nat count) row.
Proof.
  intros Hc. revert field row.
  induction ts as [|t ts IH]; intros field row Hts Hrow Hlen.
  - by exists row.
  - cbn [foldl].
    destruct (Hts t ltac:(by left)) as [Ht Hfit].
    assert (forall t', t' ∈ ts ->
              1 <= t' /\ count * t' <= Z.of_nat (length dptr)) as Hts'
      by (intros t' Hin; apply Hts; by right).
    unfold scatter_step at 2.
    destruct (decide (map t >= 0)) as [Hm|Hm]; [|by apply IH].
    destruct (decide (Z.to_nat (map t) = m)) as [Heq|Hne].
    + rewrite Heq, Hrow.
      destruct (IH (<[m := overwrite row 0 (slice count dptr t)]> field)
                  (overwrite row 0 (slice count dptr t)) Hts')
        as (row' & Hrow' & Hlen' & Hdrop').
      * apply list_lookup_insert_eq. by eapply lookup_lt_Some.
      * rewrite overwrite_length; [done|].
        rewrite slice_length by done. lia.
      * exists row'. split; [done|].
        rewrite Hlen', Hdrop'.
        rewrite overwrite_length by (rewrite slice_length by done; lia).
        split; [done|]. rewrite overwrite_front.
        rewrite drop_app_length'; [|by rewrite slice_length].
        by rewrite slice_length.
    + destruct (field !! Z.to_nat (map t)) as [r|]; [|by apply IH].
      apply IH; [done| |done]. by rewrite list_lookup_insert_ne.
Qed.
End scatter_facts.

(** ** One process of scatter *)

Lemma field_block_vector K (vector : list (carrier K)) :
  field_block K 1 ((fun v => [v]) <$> vector) = buffer K vector.
Proof.
  unfold field_block. rewrite decide_True by done. f_equal.
  rewrite <- list_fmap_compose. rewrite <- (list_fmap_id vector) at 2.
  by apply list_fmap_ext.
Qed.

Lemma scatter_rank_ready K me atom name type count natoms field dptr data :
  kind_of type = K ->
  scatter_ready K atom name count natoms field dptr data ->
  scatter_rank me atom name type count data
  = Some (Atom.set_peratom atom name
            (field_block K count
               (scattered (Atom.map atom) count natoms dptr field)),
          []).
Proof.
  intros HK (Href & Hnat & H0 & Hc & Hmax & (vptr & Hex & Hfield) & -> & Hfit
             & Hslots).
  unfold scatter_refuses, gather_refuses in Href. unfold scatter_rank.
  rewrite (decide_False (P := _ \/ _)) by tauto.
  rewrite (decide_False (P := Atom.natoms atom > MAXSMALLINT)) by lia.
  rewrite (decide_False (P := Atom.map_style atom = 0)) by tauto.
  rewrite (decide_False (P := 0 <> 0)) by (intros Hx; by apply Hx).
  rewrite Hex, Hnat.
  rewrite static_cast_int_id by (unfold in_int, INT_MIN; lia).
  unfold field_rows in Hfield. unfold kind_of in HK.
  destruct (decide (type = 0)) as [Htype|Htype]; destruct K;
    try discriminate HK.
  - (* the integer branch *)
    cbn [carrier] in *.
    unfold scatter_int. simpl as_ints. cbn [mbind option_bind].
    destruct (decide (count = 1)) as [->|Hc1].
    + simpl in Hfield.
      destruct (as_ints vptr) as [vector|]; simpl in Hfield; [|done].
      injection Hfield as <-. cbn [mbind option_bind].
      destruct (unstage_vector_spec (V := Z) (Atom.map atom) natoms dptr
                  vector H0 ltac:(lia) Hslots) as (vector' & Hrun & Hv').
      unfold unstage_vector in Hrun. rewrite Hrun. simpl.
      rewrite <- Hv'. by rewrite (field_block_vector MPI_INT).
    + simpl in Hfield. rewrite Hfield. cbn [mbind option_bind].
      pose proof (unstage_array_spec (V := Z) (Atom.map atom) count natoms
                    dptr field Hc H0 Hmax Hfit Hslots) as Hrun.
      unfold unstage_array in Hrun. rewrite Hrun. simpl.
      unfold field_block. by rewrite decide_False by done.
  - (* the double branch *)
    cbn [carrier] in *.
    unfold scatter_double. simpl as_doubles. cbn [mbind option_bind].
    destruct (decide (count = 1)) as [->|Hc1].
    + simpl in Hfield.
      destruct (as_doubles vptr) as [vector|]; simpl in Hfield; [|done].
      injection Hfield as <-. cbn [mbind option_bind].
      destruct (unstage_vector_spec (V := float) (Atom.map atom) natoms dptr
                  vector H0 ltac:(lia) Hslots) as (vector' & Hrun & Hv').
      unfold unstage_vector in Hrun. rewrite Hrun. simpl.
      rewrite <- Hv'. by rewrite (field_block_vector MPI_DOUBLE).
    + simpl in Hfield. rewrite Hfield. cbn [mbind option_bind].
      pose proof (unstage_array_spec (V := float) (Atom.map atom) count
                    natoms dptr field Hc H0 Hmax Hfit Hslots) as Hrun.
      unfold unstage_array in Hrun. rewrite Hrun. simpl.
      unfold field_block. by rewrite decide_False by done.
Qed.

Lemma scatter_step_hit {V} map count (dptr : list V) field t (m : nat) row :
  map t = Z.of_nat m -> field !! m = Some row ->
  scatter_step map count dptr field t
  = <[m := overwrite row 0 (slice count dptr t)]> field.
Proof.
  intros Hm Hrow. unfold scatter_step.
  rewrite decide_True by lia. by rewrite Hm, Nat2Z.id, Hrow.
Qed.

Lemma scattered_shape {V} map count natoms (dptr : list V) field :
  0 <= count -> 0 <= natoms -> count * natoms <= Z.of_nat (length dptr) ->
  slots_fit map count natoms field ->
  shape (scattered map count natoms dptr field) = shape field.
Proof.
  intros Hc H0 Hfit Hslots. unfold scattered.
  rewrite <- (Z2Nat.id natoms) at 1 by lia.
  apply (scattered_prefix_shape map count natoms); (done || lia).
Qed.

Lemma field_rows_field_block K count field :
  (count = 1 -> Forall (fun row => length row = 1%nat) field) ->
  field_rows K (field_block K count field) count = Some field.
Proof.
  intros H1. unfold field_rows, field_block.
  destruct (decide (count = 1)) as [Hc|Hc].
  - rewrite vector_of_buffer. simpl. f_equal.
    rewrite <- list_fmap_compose. rewrite <- (list_fmap_id field) at 2.
    apply Forall_fmap_ext_1. eapply Forall_impl; [exact (H1 Hc)|].
    intros row Hrow. simpl. by destruct row as [|v [|??]].
  - by destruct K.
Qed.

Lemma field_rows_shape K vptr count field :
  field_rows K vptr count = Some field ->
  count = 1 -> Forall (fun row => length row = 1%nat) field.
Proof.
  unfold field_rows. intros H ->. rewrite decide_True in H by done.
  destruct (vector_of K vptr) as [vector|]; simpl in H; [|done].
  injection H as <-. by apply Forall_fmap, Forall_forall.
Qed.

Lemma shape_Forall {V} (field1 field2 : list (list V)) (n : nat) :
  shape field1 = shape field2 ->
  Forall (fun row => length row = n) field2 ->
  Forall (fun row => length row = n) field1.
Proof.
  unfold shape. intros Hs H.
  assert (Forall (fun k => k = n) (length <$> field1)) as H1
    by (rewrite Hs; by apply Forall_fmap).
  by apply Forall_fmap in H1.
Qed.

(** C7. One process of scatter, on its own atoms and its own buffer, with
    no event at all (no reduction, no warning): the field afterwards is the
    field before but for the slots the map resolves.  A slot [m] that no tag
    in [1, natoms] maps to is as it was; a slot [m] that the map gives for
    [t] (and for no later tag) holds the [count] values of the buffer at
    [count * (t - 1)], and beyond them what it held.  Other fields are
    untouched. *)
Theorem scatter_locality (K : kind) me atom name type count natoms
    field dptr data :
  kind_of type = K ->
  scatter_ready K atom name count natoms field dptr data ->
  exists atom' field',
    scatter_rank me atom name type count data = Some (atom', [])
    /\ (exists vptr', Atom.extract atom' name = Some vptr'
                      /\ field_rows K vptr' count = Some field')
    /\ (forall name', name' <> name ->
          Atom.extract atom' name' = Atom.extract atom name')
    /\ shape field' = shape field
    /\ (forall m : nat,
          (forall t, 1 <= t <= natoms -> Atom.map atom t <> Z.of_nat m) ->
          field' !! m = field !! m)
    /\ (forall t (m : nat) row,
          1 <= t <= natoms -> Atom.map atom t = Z.of_nat m ->
          (forall t', t < t' <= natoms -> Atom.map atom t' <> Z.of_nat m) ->
          field !! m = Some row ->
          field' !! m
          = Some (slice count dptr t ++ drop (Z.to_nat count) row)
          /\ forall j : nat, Z.of_nat j < count ->
               slice count dptr t !! j
               = dptr !! Z.to_nat (count * (t - 1) + Z.of_nat j)).
Proof.
  intros HK Hready.
  pose proof (scatter_rank_ready K me _ _ _ _ _ _ _ _ HK Hready) as Hrun.
  destruct Hready as (Href & Hnat & H0 & Hc & Hmax & (vptr & Hex & Hfield)
                      & -> & Hfit & Hslots).
  pose proof (scattered_shape (Atom.map atom) count natoms dptr field
                ltac:(lia) H0 Hfit Hslots) as Hshape.
  eexists _, (scattered (Atom.map atom) count natoms dptr field).
  split_and!.
  - exact Hrun.
  - eexists. split.
    + unfold Atom.extract, Atom.set_peratom. simpl. apply lookup_insert_eq.
    + apply field_rows_field_block. intros Hc1.
      apply (shape_Forall _ field); [done|].
      by apply (field_rows_shape K vptr count).
  - intros name' Hne. unfold Atom.extract, Atom.set_peratom. simpl.
    by apply lookup_insert_ne.
  - done.
  - intros m Hm. unfold scattered. apply scatter_frame.
    intros t Ht. apply elem_of_seqZ in Ht. apply Hm. lia.
  - intros t m row Ht Hmap Hlater Hrow. split.
    2:{ intros j Hj. apply slice_lookup; lia. }
    assert (Atom.map atom t >= 0) as Hm by lia.
    destruct (slots_fit_lookup _ _ _ _ t Hslots Ht Hm) as (row0 & Hrow0 & Hlen).
    rewrite Hmap, Nat2Z.id, Hrow in Hrow0. injection Hrow0 as <-.
    unfold scattered.
    assert (seqZ 1 natoms
            = seqZ 1 (t - 1) ++ t :: seqZ (t + 1) (natoms - t)) as ->.
    { replace natoms with ((t - 1) + (1 + (natoms - t))) at 1 by lia.
      rewrite seqZ_app by lia. f_equal.
      rewrite (seqZ_cons (1 + (t - 1))) by lia.
      f_equal; [lia|]. f_equal; lia. }
    rewrite foldl_app. cbn [foldl].
    rewrite scatter_frame.
    2:{ intros t' Ht'. apply elem_of_seqZ in Ht'. apply Hlater. lia. }
    destruct (scatter_rest (Atom.map atom) count dptr field
                (seqZ 1 (t - 1)) m row ltac:(lia)) as (r & Hr & Hlr & Hdr);
      [|done|done|].
    { intros t' Ht'. apply elem_of_seqZ in Ht'. split; [lia|nia]. }
    rewrite (scatter_step_hit _ _ _ _ _ m r) by done.
    rewrite list_lookup_insert_eq by (by eapply lookup_lt_Some).
    rewrite overwrite_front, slice_length by (lia || nia).
    by rewrite Hdr.
Qed.

(** ** Gather, then scatter *)

Lemma set_peratom_id atom name b :
  Atom.extract atom name = Some b -> Atom.set_peratom atom name b = atom.
Proof.
  destruct atom. unfold Atom.extract, Atom.set_peratom. simpl. intros H.
  f_equal. by apply insert_id.
Qed.

Lemma field_block_rows K vptr count field :
  field_rows K vptr count = Some field -> field_block K count field = vptr.
Proof.
  unfold field_rows. destruct (decide (count = 1)) as [->|Hc].
  - destruct (vector_of K vptr) as [vector|] eqn:Hv; simpl; [|done].
    intros [= <-]. rewrite field_block_vector.
    by destruct K, vptr; simpl in Hv; try done; injection Hv as ->.
  - unfold field_block. rewrite decide_False by done. intros Ha.
    by destruct K, vptr; simpl in Ha; try done; injection Ha as ->.
Qed.

Lemma scatter_steps_id {V} map count (dptr : list V) field (ts : list Z) :
  (forall t, t ∈ ts -> scatter_step map count dptr field t = field) ->
  foldl (scatter_step map count dptr) field ts = field.
Proof.
  induction ts as [|t ts IH]; intros H; [done|]. cbn [foldl].
  rewrite H by (by left). apply IH. intros t' Hin. apply H. by right.
Qed.

(** One process scatters what was gathered from a world its atoms are part
    of: on the double branch, and for [count = 1], nothing changes. *)
Lemma scatter_gathered K me atom name type count natoms its all r :
  kind_of type = K -> K = MPI_DOUBLE \/ count = 1 ->
  gather_ready K atom name count natoms its ->
  Atom.map_style atom <> 0 -> map_consistent atom natoms ->
  its ⊆ all -> NoDup all.*1 ->
  Forall (fun a => 1 <= a.1 <= natoms /\ count <= Z.of_nat (length a.2)) all ->
  count * natoms <= Z.of_nat (length r) ->
  scatter_rank me atom name type count
    (buffer K (overwrite r 0 (staging_of K count natoms all)))
  = Some (atom, []).
Proof.
  intros HK Hfaithful Hready Hstyle Hmap Hsub Hnd Hall Hr.
  pose proof Hready as (Href & Hnat & H0 & Hc & Hmax & Hloc & Hatoms).
  destruct (local_atoms_inv _ _ _ _ _ Hloc)
    as (vptr & field & Hex & Hfield & Hnl & Hnf & Hits).
  set (G := staging_of K count natoms all).
  assert (length G = Z.to_nat (count * natoms)) as HG.
  { unfold G, staging_of. apply (staging_length _ _ count natoms); [lia|done|].
    apply contributions_fits; [lia|done]. }
  assert (forall t, 1 <= t <= natoms -> Atom.map atom t >= 0 ->
            exists row, field !! Z.to_nat (Atom.map atom t) = Some row
                        /\ (t, row) ∈ its
                        /\ count <= Z.of_nat (length row)) as Hslot.
  { intros t Ht Hm. unfold map_consistent in Hmap.
    rewrite Forall_seqZ in Hmap.
    destruct (Hmap t ltac:(lia) Hm) as [Hlt Htag].
    destruct (lookup_lt_is_Some_2 field (Z.to_nat (Atom.map atom t)))
      as [row Hrow]; [lia|].
    assert ((t, row) ∈ its) as Hin.
    { rewrite Hits. apply (list_elem_of_lookup_2 _ (Z.to_nat (Atom.map atom t))).
      apply lookup_zip_Some. simpl. by rewrite !lookup_take_lt by lia. }
    exists row. split_and!; [done|done|].
    by destruct (proj1 (Forall_forall _ its) Hatoms _ Hin) as [_ ?]. }
  rewrite (scatter_rank_ready K me atom name type count natoms field
             (overwrite r 0 G)); [|done|].
  2:{ unfold scatter_ready. split_and!; try done.
      - unfold scatter_refuses. tauto.
      - by exists vptr.
      - rewrite overwrite_length by (simpl; lia). done.
      - unfold slots_fit. apply Forall_seqZ. intros t Ht Hm.
        destruct (Hslot t ltac:(lia) Hm) as (row & Hrow & _ & Hlen).
        by exists row. }
  assert (scattered (Atom.map atom) count natoms (overwrite r 0 G) field
          = field) as ->.
  { unfold scattered. apply scatter_steps_id. intros t Ht.
    apply elem_of_seqZ in Ht.
    destruct (decide (Atom.map atom t >= 0)) as [Hm|Hm];
      [|unfold scatter_step; by rewrite decide_False].
    destruct (Hslot t ltac:(lia) Hm) as (row & Hrow & Hin & Hlen).
    rewrite (scatter_step_hit _ _ _ _ _ (Z.to_nat (Atom.map atom t)) row)
      by (done || lia).
    apply list_insert_id. rewrite Hrow. f_equal.
    assert (slice count (overwrite r 0 G) t = take (Z.to_nat count) row)
      as ->.
    2:{ rewrite overwrite_front, length_take, Nat.min_l by lia.
        symmetry. apply take_drop. }
    apply (list_eq_same_length _ _ (Z.to_nat count)).
    - rewrite length_take. lia.
    - apply slice_length; [lia|lia|].
      rewrite overwrite_length by (simpl; lia). nia.
    - intros j x y Hj. rewrite slice_lookup by lia.
      rewrite lookup_take_lt by done.
      rewrite overwrite_lookup by (simpl; lia).
      rewrite decide_True by nia. rewrite Nat.sub_0_r.
      unfold G.
      pose proof (staging_of_owned K count natoms all (t, row) (Z.of_nat j)
                    Hc H0 Hall Hnd (Hsub _ Hin) ltac:(lia)) as Ho.
      simpl in Ho. rewrite Ho.
      assert (column K (Z.of_nat j) = Z.of_nat j) as ->.
      { destruct Hfaithful as [->| ->]; [done|]. destruct K; simpl; lia. }
      rewrite Nat2Z.id. congruence. }
  by rewrite (field_block_rows K vptr), (set_peratom_id _ _ _ Hex).
Qed.

(** X1. On the double branch, and for a field with one value per atom,
    gather followed by scatter of what was gathered leaves every process as
    it was,
    when each tag is on one process, every atom map resolves a tag to the
    local slot that holds it, and every value of the field is one that a sum
    with zero leaves unchanged ([exact_atoms]: every [int] is such a value,
    the double negative zero is not). *)
Theorem round_trip_identity (K : kind) world name type count natoms
    (atoms : list (list (Z * list (carrier K)))) data recv :
  kind_of type = K -> K = MPI_DOUBLE \/ count = 1 -> world <> [] ->
  world_ready K world name count natoms atoms ->
  buffers_ready K (count * natoms) data recv ->
  length data = length world ->
  NoDup (concat atoms).*1 -> exact_atoms K (concat atoms) ->
  Forall (fun atom => Atom.map_style atom <> 0
                      /\ map_consistent atom natoms) world ->
  round_trip world name type count data = Some world.
Proof.
  intros HK Hfaithful Hne Hready Hbuf Hlen Hnd Hex Hmaps.
  unfold round_trip.
  rewrite (gather_completes K world name type count natoms atoms data recv)
    by done.
  rewrite (gathered_disjoint K world name) by done.
  destruct Hbuf as [-> Hrecv].
  unfold lammps_scatter_atoms.
  rewrite decide_True by (by rewrite !length_fmap in *).
  rewrite (mapM_imap _ (fun _ (ad : Atom.t * block) => (ad.1, []))).
  2:{ intros i [atom d] Hi. simpl.
      apply lookup_zip_Some in Hi as [Hw Hd]. simpl in Hw, Hd.
      rewrite !list_lookup_fmap in Hd.
      destruct (recv !! i) as [r|] eqn:Hri; simpl in Hd; [|done].
      injection Hd as <-.
      destruct (Forall2_lookup_l _ _ _ _ _ Hready Hw) as (its & Hits & Hr).
      destruct (proj1 (Forall_forall _ world) Hmaps atom
                  ltac:(by eapply list_elem_of_lookup_2)) as [Hstyle Hmap].
      apply (scatter_gathered K _ atom name type count natoms its); try done.
      - intros a Ha. clear -Ha Hits. revert i Hits.
        induction atoms as [|its' atoms IH]; intros i Hits; [done|].
        simpl. apply elem_of_app. destruct i as [|i]; simpl in Hits.
        + injection Hits as ->. by left.
        + right. by eapply IH.
      - by apply (world_ready_concat K world name).
      - by apply (proj1 (Forall_forall _ recv) Hrecv r),
          (list_elem_of_lookup_2 _ i). }
  cbn [mbind option_bind]. f_equal.
  rewrite fmap_imap. rewrite (imap_ext _ (const fst)) by done.
  rewrite imap_const. apply fst_zip. rewrite !length_fmap in *. lia.
Qed.

(** X2. On the double branch, and for a field with one value per atom, the
    buffer of every process holds, after a gather over disjoint partitions
    of atoms whose values a sum with zero leaves unchanged ([exact_atoms]:
    every [int] is such a value, the double negative zero is not),
    component [j] of the atom with tag [t] at [count * (t - 1) + j]. *)
Theorem gather_layout (K : kind) world name type count natoms
    (atoms : list (list (Z * list (carrier K)))) data recv :
  kind_of type = K -> K = MPI_DOUBLE \/ count = 1 -> world <> [] ->
  world_ready K world name count natoms atoms ->
  buffers_ready K (count * natoms) data recv ->
  length data = length world ->
  NoDup (concat atoms).*1 -> exact_atoms K (concat atoms) ->
  exists total,
    lammps_gather_atoms world name type count data
    = Some (buffer K <$> ((fun r => overwrite r 0 total) <$> recv),
            [Allreduce (count * natoms)])
    /\ length total = Z.to_nat (count * natoms)
    /\ forall a j, a ∈ concat atoms -> 0 <= j < count ->
         total !! Z.to_nat (count * (a.1 - 1) + j) = a.2 !! Z.to_nat j.
Proof.
  intros HK Hfaithful Hne Hready Hbuf Hlen Hnd Hex.
  assert (exists its, its ∈ atoms) as [its Hits].
  { destruct atoms as [|its ?]; [|exists its; by left].
    apply Forall2_length in Hready. by destruct world. }
  destruct (world_ready_elem _ _ _ _ _ _ _ Hready Hits) as (atom & Ha).
  destruct (gather_ready_fits _ _ _ _ _ _ Ha) as (Hc & H0 & _).
  pose proof (world_ready_concat _ _ _ _ _ _ Hready) as Hall.
  exists (staging_of K count natoms (concat atoms)). split_and!.
  - rewrite <- (gathered_disjoint K world name) by done.
    by apply gather_completes.
  - unfold staging_of. apply (staging_length _ _ count natoms); [lia|done|].
    apply contributions_fits; [lia|done].
  - intros a j Hin Hj. rewrite staging_of_owned by done.
    do 2 f_equal. destruct Hfaithful as [->| ->]; [done|].
    destruct K; simpl; lia.
Qed.

(** ** The integer branch of gather *)

(** C1. The integer branch with [count = 3]: the buffer holds the first
    component of each atom three times, [4; 4; 4; 1; 1; 1], where the
    components are [4; 5; 6] and [1; 2; 3].  The double branch on the same
    world delivers the three components of each atom. *)
Theorem gather_int_components :
  lammps_gather_atoms [rank0; rank1] "i3" 0 3
    [ints [0; 0; 0; 0; 0; 0]; ints [0; 0; 0; 0; 0; 0]]
  = Some ([ints [4; 4; 4; 1; 1; 1]; ints [4; 4; 4; 1; 1; 1]], [Allreduce 6])
  /\ lammps_gather_atoms [rank0; rank1] "x" 1 3
       [doubles [0; 0; 0; 0; 0; 0]%float; doubles [0; 0; 0; 0; 0; 0]%float]
     = Some ([doubles [10; 20; 30; 1.5; 2.5; 3.5]%float;
              doubles [10; 20; 30; 1.5; 2.5; 3.5]%float], [Allreduce 6]).
Proof. split; vm_compute; reflexivity. Qed.

(** C2. Gather then scatter of the integer triple: the local storage is
    not what it was, each atom now holds its first component three times.
    On the position [x], a double field, the same round trip leaves the
    storage as it was. *)
Theorem round_trip_int_components :
  (fmap (M := list) (fun atom => Atom.extract atom "i3")
     <$> round_trip [rank0; rank1] "i3" 0 3
           [ints [0; 0; 0; 0; 0; 0]; ints [0; 0; 0; 0; 0; 0]])
  = Some [Some (int_rows [[1; 1; 1]]); Some (int_rows [[4; 4; 4]])]
  /\ Atom.extract rank0 "i3" = Some (int_rows [[1; 2; 3]])
  /\ Atom.extract rank1 "i3" = Some (int_rows [[4; 5; 6]])
  /\ (fmap (M := list) (fun atom => Atom.extract atom "x")
        <$> round_trip [rank0; rank1] "x" 1 3
              [doubles [0; 0; 0; 0; 0; 0]%float;
               doubles [0; 0; 0; 0; 0; 0]%float])
     = Some [Atom.extract rank0 "x"; Atom.extract rank1 "x"].
Proof. split_and!; vm_compute; reflexivity. Qed.

(** ** The warning for an unknown name *)

(** C4. With a name [Atom::extract] does not know, every process issues
    the warning, in gather and in scatter: two processes, two warnings. *)
Theorem unknown_name_warns_on_every_rank :
  lammps_gather_atoms [rank0; rank1] "nope" 1 3
    [doubles [0; 0; 0; 0; 0; 0]%float; doubles [0; 0; 0; 0; 0; 0]%float]
  = Some ([doubles [0; 0; 0; 0; 0; 0]%float; doubles [0; 0; 0; 0; 0; 0]%float],
          [Warning 0 "lammps_gather_atoms: unknown property name";
           Warning 1 "lammps_gather_atoms: unknown property name"])
  /\ snd <$> lammps_scatter_atoms [rank0; rank1] "nope" 1 3
               [doubles [0; 0; 0; 0; 0; 0]%float;
                doubles [0; 0; 0; 0; 0; 0]%float]
     = Some [Warning 0 "lammps_scatter_atoms: unknown property name";
             Warning 1 "lammps_scatter_atoms: unknown property name"].
Proof. split; vm_compute; reflexivity. Qed.

(** ** concatenate_lines, lammps_commands_string *)

Lemma load_app_l {A} (pre X : list A) (i : nat) :
  load (pre ++ X) (Z.of_nat (length pre) + Z.of_nat i) = X !! i.
Proof.
  replace (Z.of_nat (length pre) + Z.of_nat i)
    with (Z.of_nat (length pre + i)) by lia.
  rewrite load_nat. by rewrite lookup_app_r, Nat.add_sub' by lia.
Qed.

Lemma load_app_0 {A} (pre X : list A) :
  load (pre ++ X) (Z.of_nat (length pre)) = X !! O.
Proof.
  rewrite <- (load_app_l pre X 0). f_equal. lia.
Qed.

Lemma drop_app_Z {A} (pre X : list A) :
  drop (Z.to_nat (Z.of_nat (length pre))) (pre ++ X) = X.
Proof. by rewrite Nat2Z.id, drop_app_length. Qed.

Lemma store_app_l {A} (pre X : list A) (i : nat) v :
  (i < length X)%nat ->
  store (pre ++ X) (Z.of_nat (length pre) + Z.of_nat i) v
  = Some (pre ++ <[i := v]> X).
Proof.
  intros Hi.
  replace (Z.of_nat (length pre) + Z.of_nat i)
    with (Z.of_nat (length pre + i)) by lia.
  rewrite store_nat by (rewrite length_app; lia).
  by rewrite insert_app_r.
Qed.

Lemma strcspn_newline_app t d more :
  newline ∉ t -> NUL ∉ t -> d = NUL \/ d = newline ->
  strcspn_newline (t ++ d :: more) = Some (Z.of_nat (length t)).
Proof.
  intros Hn Hz Hd. induction t as [|c t IH]; simpl.
  - rewrite decide_True by tauto. done.
  - apply not_elem_of_cons in Hn as [Hc Hn].
    apply not_elem_of_cons in Hz as [Hc' Hz].
    rewrite decide_False by (intros [->| ->]; done).
    rewrite IH by done. simpl. f_equal. lia.
Qed.

Lemma strcspn_newline_none s :
  newline ∉ s -> NUL ∉ s -> strcspn_newline s = None.
Proof.
  induction s as [|c s IH]; intros Hn Hz; simpl; [done|].
  apply not_elem_of_cons in Hn as [Hc Hn].
  apply not_elem_of_cons in Hz as [Hc' Hz].
  rewrite decide_False by (intros [->| ->]; done).
  by rewrite IH.
Qed.

Lemma strspn_newline_head c s : c <> newline -> strspn_newline (c :: s) = 0.
Proof. intros H. simpl. by rewrite decide_False. Qed.

(** A token that starts where the scan starts. *)
Lemma strtok_token pre t d more :
  t <> [] -> newline ∉ t -> NUL ∉ t -> d = NUL \/ d = newline ->
  strtok (pre ++ t ++ d :: more) (Z.of_nat (length pre))
  = Some (pre ++ t ++ NUL :: more, Some (Z.of_nat (length pre)),
          Z.of_nat (length pre) + Z.of_nat (length t)
          + (if decide (d = NUL) then 0 else 1)).
Proof.
  intros Ht Hn Hz Hd. unfold strtok. rewrite decide_True by lia.
  rewrite drop_app_Z.
  destruct t as [|c t]; [done|].
  apply not_elem_of_cons in Hn as [Hc Hn].
  apply not_elem_of_cons in Hz as [Hc' Hz].
  cbn [app]. rewrite strspn_newline_head by done. rewrite Z.add_0_r.
  rewrite load_app_0. cbn [lookup list_lookup mbind option_bind].
  rewrite decide_False by done.
  rewrite drop_app_Z.
  change (c :: t ++ d :: more) with ((c :: t) ++ d :: more).
  rewrite (strcspn_newline_app (c :: t) d more)
    by ((apply not_elem_of_cons; done) || done).
  cbn [mbind option_bind].
  rewrite app_assoc.
  replace (Z.of_nat (length pre) + Z.of_nat (length (c :: t)))
    with (Z.of_nat (length (pre ++ c :: t))) by (rewrite length_app; lia).
  rewrite load_app_0. cbn [lookup list_lookup mbind option_bind].
  destruct (decide (d = NUL)) as [->|Hd'].
  - rewrite Z.add_0_r, <- app_assoc. done.
  - rewrite store_nat by (rewrite !length_app; simpl; lia).
    rewrite insert_middle, <- app_assoc. done.
Qed.

(** A newline where the scan starts is skipped. *)
Lemma strtok_skip pre X :
  strtok (pre ++ newline :: X) (Z.of_nat (length pre))
  = strtok ((pre ++ [newline]) ++ X) (Z.of_nat (length (pre ++ [newline]))).
Proof.
  unfold strtok. rewrite !decide_True by lia. rewrite !drop_app_Z.
  rewrite <- app_assoc. cbn [app strspn_newline].
  rewrite decide_True by done.
  replace (Z.of_nat (length (pre ++ [newline])) + strspn_newline X)
    with (Z.of_nat (length pre) + Z.succ (strspn_newline X))
    by (rewrite length_app; simpl; lia).
  done.
Qed.

(** The terminator where the scan starts: no token. *)
Lemma strtok_end pre more :
  strtok (pre ++ NUL :: more) (Z.of_nat (length pre))
  = Some (pre ++ NUL :: more, None, Z.of_nat (length pre)).
Proof.
  unfold strtok. rewrite decide_True by lia. rewrite drop_app_Z.
  rewrite strspn_newline_head by done. rewrite Z.add_0_r.
  rewrite load_app_0. cbn [lookup list_lookup mbind option_bind].
  by rewrite decide_True.
Qed.

(** Nothing that ends the token before the array ends. *)
Lemma strtok_unterminated pre X :
  X <> [] -> newline ∉ X -> NUL ∉ X ->
  strtok (pre ++ X) (Z.of_nat (length pre)) = None.
Proof.
  intros HX Hn Hz. unfold strtok. rewrite decide_True by lia.
  rewrite drop_app_Z. destruct X as [|c X]; [done|].
  apply not_elem_of_cons in Hn as Hn'. destruct Hn' as [Hc _].
  apply not_elem_of_cons in Hz as Hz'. destruct Hz' as [Hc' _].
  rewrite strspn_newline_head by done. rewrite Z.add_0_r.
  rewrite load_app_0. cbn [lookup list_lookup mbind option_bind].
  rewrite decide_False by done. rewrite drop_app_Z.
  by rewrite strcspn_newline_none.
Qed.

Lemma load_at {A} (pre X Y : list A) x n :
  n = Z.of_nat (length (pre ++ X)) -> load (pre ++ X ++ x :: Y) n = Some x.
Proof.
  intros ->. rewrite app_assoc, load_nat. by rewrite list_lookup_middle.
Qed.

Lemma store_at {A} (pre X Y : list A) x y n :
  n = Z.of_nat (length (pre ++ X)) ->
  store (pre ++ X ++ x :: Y) n y = Some (pre ++ X ++ y :: Y).
Proof.
  intros ->. rewrite app_assoc.
  rewrite store_nat by (rewrite !length_app; simpl; lia).
  by rewrite insert_middle, <- app_assoc.
Qed.

(** *** Where [concatenate_lines] looks for the ampersand *)

Lemma last_printable (cur : list ascii) :
  cur <> [] ->
  exists a c sp,
    cur = a ++ c :: sp /\ spaces sp /\ (isspace c = false \/ a = []).
Proof.
  induction cur as [|x cur IH] using rev_ind; [done|]. intros _.
  destruct (isspace x) eqn:Hx.
  - destruct cur as [|y cur'].
    + exists [], x, []. split_and!; [done|constructor|by right].
    + destruct IH as (a & c & sp & -> & Hsp & Hc); [done|].
      exists a, c, (sp ++ [x]). split_and!; [|by apply Forall_app_2; [|constructor]|done].
      by rewrite <- app_assoc.
  - exists cur, x, []. split_and!; [done|constructor|by left].
Qed.

Lemma trim_spec fuel pre a c sp X :
  spaces sp -> isspace c = false \/ a = [] -> (length sp < fuel)%nat ->
  trim fuel (pre ++ (a ++ c :: sp) ++ X) (Z.of_nat (length pre))
       (Z.of_nat (length (a ++ c :: sp)) - 1)
  = Some (Z.of_nat (length a)).
Proof.
  intros Hsp Hc. revert fuel X.
  induction sp as [|x sp IH] using rev_ind; intros fuel X Hfuel.
  - destruct fuel as [|fuel]; [simpl in Hfuel; lia|]. cbn [trim].
    replace (Z.of_nat (length (a ++ [c])) - 1) with (Z.of_nat (length a))
      by (rewrite length_app; simpl; lia).
    case_decide as H0; [done|].
    rewrite <- (List.app_assoc a [c] X). cbn [app].
    rewrite (load_at pre a X c) by (rewrite length_app; lia).
    cbn [mbind option_bind].
    destruct Hc as [->| ->]; [done|]. simpl in H0. done.
  - apply Forall_app in Hsp as [Hsp Hx]. apply Forall_cons in Hx as [Hx _].
    rewrite length_app in Hfuel. simpl in Hfuel.
    destruct fuel as [|fuel]; [lia|]. cbn [trim].
    rewrite decide_False by (rewrite !length_app; simpl; rewrite length_app; simpl; lia).
    replace (pre ++ (a ++ c :: sp ++ [x]) ++ X)
      with (pre ++ (a ++ c :: sp) ++ x :: X)
      by (rewrite <- !app_assoc; cbn [app]; rewrite <- app_assoc; done).
    rewrite (load_at pre (a ++ c :: sp) X x)
      by (rewrite !length_app; simpl; rewrite length_app; simpl; lia).
    cbn [mbind option_bind]. rewrite Hx.
    replace (Z.of_nat (length (a ++ c :: sp ++ [x])) - 1 - 1)
      with (Z.of_nat (length (a ++ c :: sp)) - 1)
      by (rewrite !length_app; simpl; rewrite length_app; simpl; lia).
    change (x :: X) with ([x] ++ X). apply IH; [done|lia].
Qed.

Lemma forallb_isspace sp : forallb isspace sp = true <-> spaces sp.
Proof.
  unfold spaces. induction sp as [|c sp IH]; simpl.
  - split; [constructor|done].
  - rewrite andb_true_iff, IH, Forall_cons. done.
Qed.

Lemma isspace_ampersand c : isspace c = true -> c <> "&"%char.
Proof. intros H ->. vm_compute in H. discriminate. Qed.

Lemma blank_spaces sp : spaces sp -> blank_continuation sp = None.
Proof.
  induction 1 as [|c sp Hc _ IH]; [done|]. simpl. rewrite IH.
  rewrite bool_decide_eq_false_2 by (by apply isspace_ampersand). done.
Qed.

Lemma blank_decomp a c sp :
  spaces sp -> isspace c = false \/ a = [] ->
  blank_continuation (a ++ c :: sp)
  = if decide (c = "&"%char) then Some (a ++ " "%char :: sp) else None.
Proof.
  intros Hsp. induction a as [|x a IH]; intros Hc.
  - simpl. rewrite (blank_spaces sp) by done.
    destruct (decide (c = "&"%char)) as [->|Hne].
    + rewrite bool_decide_eq_true_2 by done.
      rewrite (proj2 (forallb_isspace sp)) by done. done.
    + rewrite bool_decide_eq_false_2 by done. done.
  - destruct Hc as [Hc|?]; [|done].
    cbn [app blank_continuation]. rewrite IH by (by left).
    destruct (decide (c = "&"%char)) as [->|Hne]; [done|].
    assert (forallb isspace (a ++ c :: sp) = false) as ->; [|by rewrite andb_false_r].
    apply not_true_iff_false. rewrite forallb_isspace. intros HF.
    apply Forall_app in HF as [_ HF]. apply Forall_cons in HF as [HF _].
    congruence.
Qed.

Lemma blank_Some cur b :
  blank_continuation cur = Some b ->
  exists a sp,
    cur = a ++ "&"%char :: sp /\ spaces sp /\ b = a ++ " "%char :: sp.
Proof.
  intros Hb. destruct (decide (cur = [])) as [->|Hne]; [done|].
  destruct (last_printable cur Hne) as (a & c & sp & -> & Hsp & Hc).
  rewrite blank_decomp in Hb by done.
  destruct (decide (c = "&"%char)) as [->|]; [|done].
  injection Hb as <-. by exists a, sp.
Qed.

Lemma spaces_clean sp x : spaces sp -> x ∈ sp -> isspace x = true.
Proof. intros Hsp Hx. by eapply Forall_forall in Hsp. Qed.

Lemma blank_clean cur b :
  blank_continuation cur = Some b -> clean cur -> clean b /\ length b = length cur.
Proof.
  intros (a & sp & -> & Hsp & ->)%blank_Some [Hn Hz].
  rewrite !elem_of_app, !elem_of_cons in Hn, Hz.
  split; [split|].
  - rewrite !elem_of_app, !elem_of_cons. intros [?|[?|?]]; [tauto|done|tauto].
  - rewrite !elem_of_app, !elem_of_cons. intros [?|[?|?]]; [tauto|done|tauto].
  - rewrite !length_app. done.
Qed.

Lemma clean_join b l : clean b -> clean l -> clean (b ++ " "%char :: l).
Proof.
  intros [Hn Hz] [Hn' Hz']. split; rewrite !elem_of_app, !elem_of_cons;
    (intros [?|[?|?]]; [tauto|done|tauto]).
Qed.

Lemma absorb_Some cur raw cur' raw' :
  absorb cur raw = Some (cur', raw') ->
  cur <> [] -> clean cur -> Forall clean raw ->
  cur' <> [] /\ clean cur' /\ Forall clean raw'
  /\ (length raw' <= length raw)%nat
  /\ blank_continuation cur' = None.
Proof.
  revert cur. induction raw as [|l ls IH]; intros cur; simpl.
  - destruct (blank_continuation cur) eqn:Hb; [done|].
    intros [= <- <-] ???. done.
  - destruct (blank_continuation cur) as [b|] eqn:Hb.
    + intros Ha Hne Hc [Hl Hls]%Forall_cons.
      destruct (blank_clean _ _ Hb Hc) as [Hcb _].
      destruct (IH _ Ha) as (?&?&?&?&?); [by destruct b|by apply clean_join|done|].
      split_and!; [done..|lia|done].
    + intros [= <- <-] ???. split_and!; try done.
Qed.

Lemma rest_of_cons l ls :
  rest_of (l :: ls)
  = l ++ (match ls with [] => NUL | _ :: _ => newline end) :: rest_of ls.
Proof.
  destruct ls as [|l' ls]; unfold rest_of, unsplit; simpl.
  - by rewrite app_nil_r.
  - rewrite <- !app_assoc. f_equal. simpl. f_equal.
    by rewrite <- app_assoc.
Qed.

Lemma rest_of_length raw : (length raw <= length (rest_of raw))%nat.
Proof.
  induction raw as [|l ls IH]; [done|]. rewrite rest_of_cons.
  rewrite length_app. simpl. lia.
Qed.

(** *** concatenate_lines *)

Lemma continue_lines_spec fuel raw : forall cur pre a c sp,
  cur = a ++ c :: sp -> spaces sp -> isspace c = false \/ a = [] ->
  clean cur -> Forall clean raw -> (length raw < fuel)%nat ->
  continue_lines fuel (pre ++ cur ++ NUL :: rest_of raw)
    (Z.of_nat (length pre)) (Z.of_nat (length cur)) (Z.of_nat (length a))
    (Z.of_nat (length pre) + Z.of_nat (length cur) + saved_of raw)
  = match absorb cur raw with
    | None => None
    | Some (cur', raw') =>
        Some (pre ++ cur' ++ NUL :: rest_of raw',
              Z.of_nat (length pre) + Z.of_nat (length cur') + saved_of raw')
    end.
Proof.
  revert raw. induction fuel as [|fuel IH]; intros raw cur pre a c sp
    Hcur Hsp Hc Hclean Hraw Hfuel; [lia|].
  cbn [continue_lines].
  assert (load (pre ++ cur ++ NUL :: rest_of raw)
               (Z.of_nat (length pre) + Z.of_nat (length a)) = Some c) as ->.
  { rewrite Hcur, <- (List.app_assoc a). cbn [app]. apply load_at.
    rewrite length_app. lia. }
  cbn [mbind option_bind].
  pose proof (blank_decomp a c sp Hsp Hc) as Hb. rewrite <- Hcur in Hb.
  destruct (decide (c = "&"%char)) as [->|Hne].
  2:{ destruct raw; simpl; by rewrite Hb. }
  rewrite (store_at pre cur (rest_of raw) NUL " "%char)
    by (rewrite length_app; lia).
  cbn [mbind option_bind].
  assert (store (pre ++ cur ++ " "%char :: rest_of raw)
                (Z.of_nat (length pre) + Z.of_nat (length a)) " "%char
          = Some (pre ++ (a ++ " "%char :: sp) ++ " "%char :: rest_of raw)) as ->.
  { rewrite Hcur, <- !(List.app_assoc a). cbn [app]. apply store_at.
    rewrite length_app. lia. }
  cbn [mbind option_bind].
  set (b := a ++ " "%char :: sp) in *.
  destruct (blank_clean _ _ Hb Hclean) as [Hcb Hlb].
  destruct raw as [|l ls].
  - simpl. rewrite Hb.
    replace (pre ++ b ++ [" "%char]) with (pre ++ (b ++ [" "%char])) by done.
    rewrite strtok_unterminated; [done| | |].
    + by destruct b.
    + rewrite elem_of_app, list_elem_of_singleton. destruct Hcb. intros [?|?]; done.
    + rewrite elem_of_app, list_elem_of_singleton. destruct Hcb. intros [?|?]; done.
  - apply Forall_cons in Hraw as [Hl Hls].
    cbn [absorb]. rewrite Hb. rewrite rest_of_cons.
    set (d := match ls with [] => NUL | _ :: _ => newline end).
    set (t := b ++ " "%char :: l).
    assert (clean t) as Ht by (by apply clean_join).
    replace (pre ++ b ++ " "%char :: l ++ d :: rest_of ls)
      with (pre ++ t ++ d :: rest_of ls)
      by (unfold t; rewrite <- app_assoc; done).
    rewrite strtok_token;
      [|by destruct b|apply Ht|apply Ht|destruct ls; [by left|by right]].
    cbn [mbind option_bind fst snd].
    rewrite drop_app_Z, strlen_app by apply Ht.
    cbn [mbind option_bind].
    destruct (last_printable t) as (a' & c' & sp' & Ht' & Hsp' & Hc');
      [by destruct b|].
    assert (trim (S (length (pre ++ t ++ NUL :: rest_of ls)))
              (pre ++ t ++ NUL :: rest_of ls) (Z.of_nat (length pre))
              (Z.of_nat (length t) - 1) = Some (Z.of_nat (length a'))) as ->.
    { rewrite Ht'.
      replace (pre ++ (a' ++ c' :: sp') ++ NUL :: rest_of ls)
        with (pre ++ (a' ++ c' :: sp') ++ (NUL :: rest_of ls)) by done.
      apply trim_spec; [done|done|].
      rewrite !length_app. simpl. lia. }
    cbn [mbind option_bind].
    replace (Z.of_nat (length pre) + Z.of_nat (length t)
             + (if decide (d = NUL) then 0 else 1))
      with (Z.of_nat (length pre) + Z.of_nat (length t) + saved_of ls)
      by (unfold d; destruct ls; simpl; done).
    apply (IH ls t pre a' c' sp'); try done. simpl in Hfuel. lia.
Qed.

Lemma concatenate_lines_spec pre cur raw :
  cur <> [] -> clean cur -> Forall clean raw ->
  concatenate_lines (pre ++ cur ++ NUL :: rest_of raw)
    (Z.of_nat (length pre))
    (Z.of_nat (length pre) + Z.of_nat (length cur) + saved_of raw)
  = match absorb cur raw with
    | None => None
    | Some (cur', raw') =>
        Some (pre ++ cur' ++ NUL :: rest_of raw',
              Z.of_nat (length pre) + Z.of_nat (length cur') + saved_of raw')
    end.
Proof.
  intros Hne Hclean Hraw. unfold concatenate_lines.
  rewrite drop_app_Z, strlen_app by apply Hclean.
  cbn [mbind option_bind].
  destruct (last_printable cur Hne) as (a & c & sp & Hcur & Hsp & Hc).
  assert (trim (S (length (pre ++ cur ++ NUL :: rest_of raw)))
            (pre ++ cur ++ NUL :: rest_of raw) (Z.of_nat (length pre))
            (Z.of_nat (length cur) - 1) = Some (Z.of_nat (length a))) as ->.
  { rewrite Hcur.
    replace (pre ++ (a ++ c :: sp) ++ NUL :: rest_of raw)
      with (pre ++ (a ++ c :: sp) ++ (NUL :: rest_of raw)) by done.
    apply trim_spec; [done|done|].
    rewrite !length_app. simpl. lia. }
  cbn [mbind option_bind].
  apply (continue_lines_spec _ raw cur pre a c sp); try done.
  pose proof (rest_of_length raw). rewrite !length_app. simpl. lia.
Qed.

(** *** lammps_commands_string *)

Lemma logical_absorb cur raw :
  logical_lines cur raw
  = match absorb cur raw with
    | None => None
    | Some (cur', raw') =>
        rest ← remaining raw';
        Some (if decide (cur' = []) then rest else cur' :: rest)
    end.
Proof.
  revert cur. induction raw as [|l ls IH]; intros cur; simpl.
  - by destruct (blank_continuation cur).
  - destruct (blank_continuation cur); [apply IH|done].
Qed.

Lemma one_by_one_step fuel buf p saved :
  one_by_one (S fuel) buf (Some p) saved
  = line ← c_str (drop (Z.to_nat p) buf);
    rest ← following fuel buf saved;
    Some (line :: rest).
Proof.
  cbn [one_by_one]. unfold following.
  destruct (c_str (drop (Z.to_nat p) buf)); [|done]. cbn [mbind option_bind].
  destruct (strtok buf saved) as [r|]; [|done]. cbn [mbind option_bind].
  by destruct (concatenate_token r).
Qed.

Lemma one_by_one_None fuel buf saved : one_by_one fuel buf None saved = Some [].
Proof. by destruct fuel. Qed.

Lemma following_end fuel P more :
  following fuel (P ++ NUL :: more) (Z.of_nat (length P)) = Some [].
Proof.
  unfold following. rewrite strtok_end. cbn [mbind option_bind].
  unfold concatenate_token. cbn [fst snd mbind option_bind].
  apply one_by_one_None.
Qed.

Lemma state_split P cur raw :
  exists P',
    P ++ cur ++ NUL :: rest_of raw = P' ++ from_saved raw
    /\ Z.of_nat (length P) + Z.of_nat (length cur) + saved_of raw
       = Z.of_nat (length P').
Proof.
  destruct raw as [|l ls].
  - exists (P ++ cur). split; [by rewrite <- app_assoc|].
    rewrite length_app. simpl. lia.
  - exists (P ++ cur ++ [NUL]). split.
    + rewrite <- !app_assoc. done.
    + rewrite !length_app. simpl. lia.
Qed.

Lemma following_spec n : forall raw fuel P,
  (length raw <= n)%nat -> (length raw <= fuel)%nat -> Forall clean raw ->
  following fuel (P ++ from_saved raw) (Z.of_nat (length P)) = remaining raw.
Proof.
  induction n as [|n IH]; intros raw fuel P Hn Hfuel Hraw.
  { destruct raw; [|simpl in Hn; lia]. apply following_end. }
  destruct raw as [|l ls]; [apply following_end|].
  apply Forall_cons in Hraw as [Hl Hls]. simpl in Hn, Hfuel.
  cbn [from_saved remaining]. rewrite rest_of_cons.
  destruct l as [|c l].
  - destruct ls as [|l' ls'].
    + cbn [app rest_of]. apply following_end.
    + cbn [app]. unfold following. rewrite strtok_skip.
      change (following fuel ((P ++ [newline]) ++ from_saved (l' :: ls'))
                (Z.of_nat (length (P ++ [newline])))
              = logical_lines [] (l' :: ls')).
      rewrite IH by (done || simpl in *; lia).
      simpl. by destruct (logical_lines l' ls').
  - set (t := c :: l) in *.
    unfold following. rewrite strtok_token;
      [|done|apply Hl|apply Hl|destruct ls; [by left|by right]].
    cbn [mbind option_bind]. unfold concatenate_token.
    cbn [fst snd].
    replace (Z.of_nat (length P) + Z.of_nat (length t)
             + (if decide ((match ls with [] => NUL | _ :: _ => newline end)
                           = NUL) then 0 else 1))
      with (Z.of_nat (length P) + Z.of_nat (length t) + saved_of ls)
      by (destruct ls; simpl; done).
    rewrite concatenate_lines_spec by done.
    rewrite logical_absorb.
    destruct (absorb t ls) as [[cur' raw']|] eqn:Hab; [|done].
    destruct (absorb_Some _ _ _ _ Hab) as (Hne & Hc' & Hraw' & Hlen & _);
      [done..|].
    cbn [mbind option_bind fst snd].
    destruct fuel as [|fuel]; [lia|].
    rewrite one_by_one_step.
    rewrite drop_app_Z, c_str_app by apply Hc'.
    cbn [mbind option_bind].
    destruct (state_split P cur' raw') as (P' & -> & ->).
    rewrite IH by (done || lia).
    destruct (remaining raw'); [|done]. simpl.
    by rewrite decide_False.
Qed.

Lemma split_lines_unsplit s :
  unsplit (split_lines s).1 (split_lines s).2 = s.
Proof.
  unfold unsplit. induction s as [|c s IH]; [done|]. cbn [split_lines].
  case_decide as Hc; cbn [fst snd].
  - subst c. rewrite fmap_cons. cbn [concat app]. by rewrite IH.
  - cbn [app]. by rewrite IH.
Qed.

Lemma split_lines_clean s :
  NUL ∉ s ->
  Forall clean ((split_lines s).1 :: (split_lines s).2).
Proof.
  induction s as [|c s IH]; intros Hz.
  - simpl. repeat constructor; apply not_elem_of_nil.
  - apply not_elem_of_cons in Hz as [Hc Hz].
    specialize (IH Hz). apply Forall_cons in IH as [[Hn1 Hz1] IH].
    cbn [split_lines]. case_decide as Hnl; cbn [fst snd].
    + apply Forall_cons. split; [split; apply not_elem_of_nil|].
      apply Forall_cons. done.
    + apply Forall_cons. split; [|done].
      split; apply not_elem_of_cons; split; (done || congruence).
Qed.

Lemma split_lines_length s : (length (split_lines s).2 <= length s)%nat.
Proof.
  induction s as [|c s IH]; [done|]. cbn [split_lines].
  case_decide; simpl; lia.
Qed.

(** The refinement: the commands [Input::one] is given are the commands of
    the text. *)
Lemma commands_string_refines (uninit : nat -> ascii) (str s : list ascii) :
  c_str str = Some s ->
  Z.of_nat (length s) < MAXSMALLINT ->
  lammps_commands_string uninit str = commands_of s.
Proof.
  intros Hs Hmax. destruct (c_str_inv _ _ Hs) as (rest & -> & Hz).
  unfold lammps_commands_string. rewrite strlen_app by done.
  cbn [mbind option_bind].
  assert (int_add (Z.of_nat (length s)) 1 = Some (Z.of_nat (length s) + 1))
    as ->.
  { apply checked_in_int. unfold in_int, INT_MIN, MAXSMALLINT in *. lia. }
  cbn [mbind option_bind].
  assert (length (smalloc uninit (Z.of_nat (length s) + 1))
          = S (length s)) as Hsm.
  { unfold smalloc. rewrite length_fmap, length_seq. lia. }
  unfold strcpy. rewrite strlen_app by done. cbn [mbind option_bind].
  rewrite decide_True by lia. cbn [mbind option_bind].
  rewrite take_c_string.
  assert (overwrite (smalloc uninit (Z.of_nat (length s) + 1)) (Z.to_nat 0)
            (s ++ [NUL]) = s ++ [NUL]) as ->.
  { unfold overwrite. simpl. rewrite drop_ge, app_nil_r; [done|].
    rewrite length_app. simpl. lia. }
  pose proof (split_lines_unsplit s) as Hun.
  pose proof (split_lines_clean s Hz) as Hcl.
  pose proof (split_lines_length s) as Hlen.
  pose proof (following_spec (S (length s))
    ((split_lines s).1 :: (split_lines s).2)
    (S (length (s ++ [NUL]))) []) as Hf.
  cbn [from_saved rest_of app] in Hf. rewrite Hun in Hf.
  unfold following in Hf. simpl length in Hf.
  apply Hf; [simpl; lia| |done].
  rewrite length_app. simpl. lia.
Qed.

(** X3. [lammps_commands_string] gives [Input::one] the commands of the
    text, in order: the text is cut at its newlines, empty lines are passed
    over, and a line whose last printable character is an ampersand is
    joined with the line after it, the ampersand and the line break each
    replaced by a space, as often as the joined line ends in an ampersand
    again.  When such a line is the last one, with no newline after it, the
    call is undefined ([commands_of] has no value).  (The length of the text
    has to fit an [int].) *)
Theorem commands_string_commands (uninit : nat -> ascii)
    (str s : list ascii) :
  c_str str = Some s ->
  Z.of_nat (length s) < MAXSMALLINT ->
  lammps_commands_string uninit str = commands_of s.
Proof. apply commands_string_refines. Qed.

Lemma blank_plain l : "&"%char ∉ l -> blank_continuation l = None.
Proof.
  intros Hl. destruct (blank_continuation l) as [b|] eqn:Hb; [|done].
  apply blank_Some in Hb as (a & sp & -> & _). exfalso. apply Hl.
  rewrite elem_of_app, elem_of_cons. tauto.
Qed.

Lemma logical_plain ls : forall l,
  Forall (fun l => "&"%char ∉ l) (l :: ls) ->
  logical_lines l ls = Some (filter (fun l => l <> []) (l :: ls)).
Proof.
  induction ls as [|l' ls IH]; intros l [Hl Hls]%Forall_cons.
  - simpl. rewrite blank_plain by done. simpl.
    destruct (decide (l = [])) as [->|Hne].
    + by rewrite filter_cons_False by (by intros ?).
    + by rewrite filter_cons_True.
  - cbn [logical_lines]. rewrite blank_plain by done. rewrite IH by done.
    simpl. destruct (decide (l = [])) as [->|Hne].
    + by rewrite (filter_cons_False _ []) by (by intros ?).
    + by rewrite (filter_cons_True _ l).
Qed.

Lemma split_lines_without (c : ascii) s :
  c ∉ s -> Forall (fun l => c ∉ l) ((split_lines s).1 :: (split_lines s).2).
Proof.
  induction s as [|x s IH]; intros Hc.
  - simpl. repeat constructor. apply not_elem_of_nil.
  - apply not_elem_of_cons in Hc as [Hx Hc].
    specialize (IH Hc). apply Forall_cons in IH as [H1 IH].
    cbn [split_lines]. case_decide as Hnl; cbn [fst snd].
    + apply Forall_cons. split; [apply not_elem_of_nil|].
      apply Forall_cons. done.
    + apply Forall_cons. split; [|done].
      apply not_elem_of_cons. done.
Qed.

(** X4. A text without an ampersand: [lammps_commands_string] gives
    [Input::one] the lines of the text that are not empty, each once, in the
    order of the text. *)
Theorem commands_string_lines (uninit : nat -> ascii) (str s : list ascii) :
  c_str str = Some s ->
  Z.of_nat (length s) < MAXSMALLINT ->
  "&"%char ∉ s ->
  lammps_commands_string uninit str = Some (nonempty_lines s).
Proof.
  intros Hs Hmax Hamp. rewrite (commands_string_refines uninit str s) by done.
  unfold commands_of, nonempty_lines. apply logical_plain.
  by apply split_lines_without.
Qed.

Lemma split_lines_plain x : newline ∉ x -> split_lines x = (x, []).
Proof.
  induction x as [|c x IH]; intros Hx; [done|].
  apply not_elem_of_cons in Hx as [Hc Hx]. cbn [split_lines].
  rewrite decide_False by done. by rewrite IH.
Qed.

Lemma split_lines_line b rest :
  newline ∉ b ->
  split_lines (b ++ newline :: rest)
  = (b, (split_lines rest).1 :: (split_lines rest).2).
Proof.
  induction b as [|c b IH]; intros Hb.
  - cbn [app split_lines]. by rewrite decide_True.
  - apply not_elem_of_cons in Hb as [Hc Hb]. cbn [app split_lines].
    rewrite decide_False by done. by rewrite IH.
Qed.

Lemma split_lines_last b x :
  newline ∉ x ->
  split_lines (b ++ newline :: x)
  = ((split_lines b).1, (split_lines b).2 ++ [x]).
Proof.
  intros Hx. induction b as [|c b IH].
  - cbn [app split_lines]. rewrite decide_True by done.
    by rewrite split_lines_plain.
  - cbn [app split_lines]. rewrite IH. by case_decide.
Qed.

Lemma blank_continuation_app (c x : list ascii) :
  is_Some (blank_continuation x) -> is_Some (blank_continuation (c ++ x)).
Proof.
  intros [b (a & sp & -> & Hsp & _)%blank_Some].
  rewrite (List.app_assoc c a).
  rewrite blank_decomp by (done || by left).
  rewrite decide_True by done. done.
Qed.

(** A last line that is to be continued leaves the commands undefined,
    whatever the lines before it. *)
Lemma logical_dangling front x :
  is_Some (blank_continuation x) ->
  forall cur, logical_lines cur (front ++ [x]) = None.
Proof.
  intros Hx. induction front as [|l front IH]; intros cur.
  - cbn [app logical_lines].
    destruct (blank_continuation cur) as [b|].
    + cbn [logical_lines].
      destruct (blank_continuation_app (b ++ [" "%char]) x Hx) as [b' Hb'].
      rewrite <- List.app_assoc in Hb'. cbn [app] in Hb'. by rewrite Hb'.
    + cbn [logical_lines]. destruct Hx as [b' ->]. done.
  - cbn [app logical_lines].
    destruct (blank_continuation cur) as [b|]; [apply IH|].
    by rewrite IH.
Qed.

(** X5. A text whose last line ends in an ampersand (blanks may follow it)
    and has no newline after it, whatever the lines before it:
    [concatenate_lines] writes a space over the terminator of the copy and
    [strtok] then scans past the end of the copy, so the call is
    undefined. *)
Theorem commands_string_dangling (uninit : nat -> ascii)
    (str front pre sp : list ascii) :
  c_str str = Some (front ++ pre ++ "&"%char :: sp) ->
  Z.of_nat (length (front ++ pre ++ "&"%char :: sp)) < MAXSMALLINT ->
  front = [] \/ last front = Some newline ->
  newline ∉ pre -> spaces sp -> newline ∉ sp ->
  lammps_commands_string uninit str = None.
Proof.
  intros Hs Hmax Hfront Hpre Hsp Hnl.
  rewrite (commands_string_refines uninit str _ Hs Hmax).
  set (x := pre ++ "&"%char :: sp).
  assert (newline ∉ x) as Hx.
  { unfold x. rewrite elem_of_app, elem_of_cons. intros [?|[?|?]]; done. }
  assert (is_Some (blank_continuation x)) as Hb.
  { unfold x. rewrite blank_decomp by (done || by left).
    rewrite decide_True by done. done. }
  unfold commands_of. destruct Hfront as [->|Hlast].
  - cbn [app]. rewrite split_lines_plain by done. cbn [fst snd].
    destruct Hb as [b Hb]. destruct x; [done|]. simpl in *. by rewrite Hb.
  - apply last_Some in Hlast as [front' ->].
    rewrite <- app_assoc. cbn [app]. rewrite split_lines_last by done.
    cbn [fst snd]. by apply logical_dangling.
Qed.

(** X6. One line continued by a second: for a text [a & sp \n b] where
    neither [a] nor [b] holds an ampersand or a newline and [sp] is blank,
    [Input::one] is called once, with [a], [sp] and [b] in one line, a space
    standing where the ampersand and where the newline stood. *)
Theorem commands_string_continued (uninit : nat -> ascii)
    (str a sp b : list ascii) :
  c_str str = Some (a ++ "&"%char :: sp ++ newline :: b) ->
  Z.of_nat (length (a ++ "&"%char :: sp ++ newline :: b)) < MAXSMALLINT ->
  newline ∉ a -> "&"%char ∉ a ->
  spaces sp -> newline ∉ sp ->
  newline ∉ b -> "&"%char ∉ b ->
  lammps_commands_string uninit str
  = Some [a ++ " "%char :: sp ++ " "%char :: b].
Proof.
  intros Hs Hmax Han Haa Hsp Hspn Hbn Hba.
  rewrite (commands_string_refines uninit str _ Hs Hmax).
  unfold commands_of.
  replace (a ++ "&"%char :: sp ++ newline :: b)
    with ((a ++ "&"%char :: sp) ++ newline :: b)
    by (by rewrite <- app_assoc).
  rewrite split_lines_line, split_lines_plain by
    (done || rewrite elem_of_app, elem_of_cons; intros [?|[?|?]]; done).
  cbn [fst snd logical_lines].
  rewrite blank_decomp by (done || by left). rewrite decide_True by done.
  rewrite blank_plain.
  - cbn [mbind option_bind]. rewrite decide_False by (by destruct a).
    by rewrite <- app_assoc.
  - rewrite <- app_assoc. cbn [app].
    rewrite !elem_of_app, !elem_of_cons, elem_of_app, elem_of_cons.
    intros [?|[?|[Hin|[?|?]]]]; try done.
    by apply (isspace_ampersand _ (spaces_clean _ _ Hsp Hin)).
Qed.

Lemma logical_lines_clean raw : forall cur cmds,
  clean cur -> Forall clean raw ->
  logical_lines cur raw = Some cmds ->
  Forall (fun c => c <> [] /\ clean c) cmds.
Proof.
  induction raw as [|l ls IH]; intros cur cmds Hcur Hraw; cbn [logical_lines].
  - destruct (blank_continuation cur); [done|]. cbn [mbind option_bind].
    intros [= <-]. case_decide as Hd.
    + constructor.
    + constructor; [done|constructor].
  - apply Forall_cons in Hraw as [Hl Hls].
    destruct (blank_continuation cur) as [b|] eqn:Hb.
    + apply IH; [|done]. apply clean_join; [|done].
      by destruct (blank_clean _ _ Hb Hcur).
    + destruct (logical_lines l ls) as [rest|] eqn:Hrest; [|done].
      cbn [mbind option_bind]. intros [= <-].
      specialize (IH l rest Hl Hls Hrest).
      case_decide; [done|]. by constructor.
Qed.

(** X15. Whatever the text, [Input::one] is never given an empty line, nor
    a line that holds a newline: every command passed on has at least one
    character and none of them is a newline or the terminator. *)
Theorem commands_string_never_empty (uninit : nat -> ascii)
    (str s : list ascii) (cmds : list (list ascii)) :
  c_str str = Some s ->
  Z.of_nat (length s) < MAXSMALLINT ->
  lammps_commands_string uninit str = Some cmds ->
  Forall (fun c => c <> [] /\ (newline ∉ c) /\ (NUL ∉ c)) cmds.
Proof.
  intros Hs Hmax. rewrite (commands_string_refines uninit str s Hs Hmax).
  unfold commands_of. intros Hcmds.
  destruct (c_str_inv _ _ Hs) as (rest & _ & Hz).
  pose proof (split_lines_clean s Hz) as Hcl.
  apply Forall_cons in Hcl as [H1 H2].
  eapply Forall_impl; [exact (logical_lines_clean _ _ _ H1 H2 Hcmds)|].
  intros c (Hne & Hn & Hz'). done.
Qed.

(** *** lammps_commands_list, down to Input::one *)

(** The string [lammps_commands_list] hands over. *)
Lemma commands_list_buffer (uninit : nat -> ascii)
    (cmds lines : list (list ascii)) :
  Forall2 (fun cmd line => c_str cmd = Some line /\ line <> []) cmds lines ->
  Z.of_nat (length cmds) + 1 + total_length lines <= MAXSMALLINT ->
  lammps_commands_list uninit (Z.of_nat (length cmds)) cmds
  = Some [Smalloc (Z.of_nat (length cmds) + 1 + total_length lines);
          Commands_string (concat (terminate_line <$> lines));
          Sfree].
Proof.
  intros Hcl Hmax.
  pose proof (Forall2_length _ _ _ Hcl) as Hlen.
  pose proof (total_length_nonneg lines) as Htot.
  assert (Forall2 (fun cmd line => c_str cmd = Some line) cmds lines) as Hcl'.
  { eapply Forall2_impl; [exact Hcl|]. by intros ?? [? _]. }
  assert (Forall (fun line => NUL ∉ line) lines) as Hnul.
  { apply Forall_forall. intros line Hin.
    apply list_elem_of_lookup in Hin as [j Hj].
    destruct (Forall2_lookup_r _ _ _ _ _ Hcl' Hj) as (cmd & _ & Hc).
    by destruct (c_str_inv _ _ Hc) as (? & _ & ?). }
  unfold lammps_commands_list.
  assert (int_add (Z.of_nat (length cmds)) 1
          = Some (Z.of_nat (length cmds) + 1)) as ->.
  { apply checked_in_int. unfold in_int, INT_MIN, MAXSMALLINT in *. lia. }
  cbn [mbind option_bind].
  rewrite (commands_list_size cmds lines) by (done || lia).
  cbn [mbind option_bind].
  set (N := Z.of_nat (length cmds) + 1 + total_length lines).
  assert (length (smalloc uninit N) = Z.to_nat N) as Hsm.
  { unfold smalloc. by rewrite length_fmap, length_seq. }
  destruct (smalloc uninit N) as [|c0 rest0] eqn:Hstr0;
    [simpl in Hsm; lia|].
  assert (store (c0 :: rest0) 0 NUL = Some (NUL :: rest0)) as ->.
  { unfold store. rewrite decide_True by (simpl; lia). done. }
  cbn [mbind option_bind].
  match goal with |- context [for_ ?n ?body ?s] =>
    destruct (for_inv
      (fun j st =>
         let acc := concat (terminate_line <$> take (Z.to_nat j) lines) in
         exists rest, st.1 = acc ++ NUL :: rest
           /\ st.2 = Z.of_nat (length acc)
           /\ length st.1 = Z.to_nat N)
      n body s) as ([str n'] & Hrun & rest & Hstr & _ & _)
  end.
  - lia.
  - exists rest0. simpl. split_and!; [done|done|]. simpl in Hsm. done.
  - intros j [str n] Hj (rest & Hstr & Hn & HN). simpl in Hstr, Hn, HN.
    set (acc := concat (terminate_line <$> take (Z.to_nat j) lines)) in *.
    destruct (lookup_lt_is_Some_2 cmds (Z.to_nat j)) as [cmd Hcmd]; [lia|].
    destruct (Forall2_lookup_l _ _ _ _ _ Hcl Hcmd)
      as (line & Hline & Hc & Hne).
    destruct (c_str_inv _ _ Hc) as (crest & -> & Hlnul).
    destruct (total_length_take _ _ _ Hline) as [Hs Hle].
    pose proof (buffered_length (take (Z.to_nat j) lines)) as Hacc.
    rewrite length_take in Hacc. fold acc in Hacc.
    pose proof (total_length_nonneg (take (Z.to_nat j) lines)).
    assert (is_Some (last line)) as [c Hlast].
    { apply last_is_Some. done. }
    apply last_Some in Hlast as Hsplit. destruct Hsplit as [line' Hline'].
    assert (concat (terminate_line <$> take (Z.to_nat (j + 1)) lines)
            = acc ++ terminate_line line) as Hacc'.
    { replace (Z.to_nat (j + 1)) with (S (Z.to_nat j)) by lia.
      rewrite (take_S_r _ _ _ Hline), fmap_app, concat_app. simpl.
      by rewrite app_nil_r. }
    cbn beta iota. rewrite Hacc'.
    assert (load cmds j = Some (line ++ NUL :: crest)) as ->.
    { apply load_Some. split; [lia|done]. }
    cbn [mbind option_bind].
    unfold strcpy. rewrite strlen_app by done. cbn [mbind option_bind].
    rewrite decide_True by lia. cbn [mbind option_bind].
    rewrite take_c_string. subst str n.
    rewrite Nat2Z.id, overwrite_middle. rewrite length_app. simpl length.
    replace (length line + 1)%nat with (S (length line)) by lia.
    cbn [drop].
    assert (length (acc ++ (line ++ [NUL]) ++ drop (length line) rest)
            = Z.to_nat N) as HN'.
    { rewrite !length_app, length_drop. rewrite length_app in HN.
      simpl in *. unfold N in *. lia. }
    remember (drop (length line) rest) as rest2 eqn:Hrest2.
    assert (1 <= length rest2)%nat as Hcap.
    { rewrite !length_app in HN'. simpl in HN'. unfold N in HN'. lia. }
    replace (acc ++ (line ++ [NUL]) ++ rest2)
      with ((acc ++ line') ++ c :: NUL :: rest2)
      by (rewrite Hline', <- !app_assoc; done).
    replace (Z.of_nat (length acc) + Z.of_nat (length line) - 1)
      with (Z.of_nat (length (acc ++ line')))
      by (rewrite Hline', !length_app; simpl; lia).
    rewrite load_nat, list_lookup_middle by done. cbn [mbind option_bind].
    unfold terminate_line. rewrite Hline', last_snoc.
    destruct (decide (c <> newline)) as [Hc'|Hc'].
    + rewrite decide_False by congruence.
      replace ((acc ++ line') ++ c :: NUL :: rest2)
        with ((acc ++ line' ++ [c]) ++ NUL :: rest2)
        by (rewrite <- !app_assoc; done).
      replace (Z.of_nat (length acc) + Z.of_nat (length (line' ++ [c])))
        with (Z.of_nat (length (acc ++ line' ++ [c])))
        by (rewrite !length_app; simpl; lia).
      rewrite store_nat by (rewrite !length_app; simpl; lia).
      rewrite insert_middle. cbn [mbind option_bind].
      destruct rest2 as [|x rest3]; [simpl in Hcap; lia|].
      replace ((acc ++ line' ++ [c]) ++ newline :: x :: rest3)
        with ((acc ++ (line' ++ [c]) ++ [newline]) ++ x :: rest3)
        by (rewrite <- !app_assoc; done).
      replace (Z.of_nat (length (acc ++ line' ++ [c])) + 1)
        with (Z.of_nat (length (acc ++ (line' ++ [c]) ++ [newline])))
        by (rewrite !length_app; simpl; lia).
      rewrite store_nat by (rewrite !length_app; simpl; lia).
      rewrite insert_middle. cbn [mbind option_bind].
      eexists. split; [done|]. exists rest3. simpl. split_and!; [done|done|].
      rewrite <- HN', Hline'. rewrite !length_app. simpl. lia.
    + rewrite decide_True
        by (destruct (decide (c = newline)) as [->|?]; [done|contradiction]).
      eexists. split; [done|]. exists rest2. simpl. split_and!.
      * by rewrite <- !app_assoc.
      * rewrite !length_app. simpl. lia.
      * rewrite <- HN', Hline'. rewrite !length_app. simpl. lia.
  - rewrite Hrun. cbn [mbind option_bind fst]. simpl in Hstr. rewrite Hstr.
    rewrite Nat2Z.id, take_ge by lia.
    rewrite c_str_app by (by apply buffered_NUL). done.
Qed.

Lemma terminated_body (line body : list ascii) :
  body <> [] -> newline ∉ body ->
  line = body \/ line = body ++ [newline] ->
  terminate_line line = body ++ [newline].
Proof.
  intros Hne Hnl [-> | ->]; unfold terminate_line.
  - rewrite decide_False; [done|].
    intros Hl. apply last_Some in Hl as [l' ->]. apply Hnl.
    rewrite elem_of_app, list_elem_of_singleton. by right.
  - by rewrite last_snoc, decide_True.
Qed.

Lemma nonempty_lines_bodies (bodies : list (list ascii)) :
  Forall (fun body => body <> [] /\ (newline ∉ body)) bodies ->
  nonempty_lines (concat ((fun body => body ++ [newline]) <$> bodies))
  = bodies.
Proof.
  unfold nonempty_lines. induction 1 as [|b bs [Hne Hnl] _ IH].
  - simpl. by rewrite filter_cons_False by (by intros ?).
  - rewrite fmap_cons. cbn [concat]. rewrite <- app_assoc. cbn [app].
    rewrite split_lines_line by done. cbn [fst snd].
    rewrite filter_cons_True by done. by rewrite IH.
Qed.

Lemma without_concat (c : ascii) (ls : list (list ascii)) :
  Forall (fun l => c ∉ l) ls -> c ∉ concat ls.
Proof.
  induction 1 as [|l ls Hl _ IH]; simpl; [apply not_elem_of_nil|].
  rewrite elem_of_app. tauto.
Qed.

(** X7. [lammps_commands_list], followed into [lammps_commands_string]:
    for commands that are not empty and hold neither an ampersand nor a
    newline other than one at their end, [Input::one] is called once for
    each command, in the order of the list, with the command without its
    newline.  (The lengths are added up in an [int]: the sum has to fit.) *)
Theorem commands_list_one_by_one (uninit : nat -> ascii)
    (cmds bodies : list (list ascii)) :
  Forall2 (fun cmd body =>
             c_str cmd = Some body \/ c_str cmd = Some (body ++ [newline]))
          cmds bodies ->
  Forall (fun body => body <> [] /\ (newline ∉ body) /\ ("&"%char ∉ body))
         bodies ->
  2 * Z.of_nat (length cmds) + 1 + total_length bodies <= MAXSMALLINT ->
  commands_list_inputs uninit (Z.of_nat (length cmds)) cmds = Some bodies.
Proof.
  intros Hcmds Hbodies Hmax.
  pose proof (Forall2_length _ _ _ Hcmds) as Hlen.
  assert (exists lines,
    Forall2 (fun cmd line => c_str cmd = Some line /\ line <> []) cmds lines
    /\ Forall2 (fun line body => line = body \/ line = body ++ [newline])
               lines bodies) as (lines & Hcl & Hlb).
  { clear Hmax Hlen. induction Hcmds as [|cmd body cmds bodies Hc _ IH].
    - exists []. split; constructor.
    - apply Forall_cons in Hbodies as [(Hne & _) Hbodies].
      destruct (IH Hbodies) as (lines & H1 & H2).
      destruct Hc as [Hc|Hc].
      + exists (body :: lines). split; constructor; (done || by left).
      + exists ((body ++ [newline]) :: lines).
        split; constructor; try done; [|by right].
        split; [done|]. by destruct body. }
  assert (terminate_line <$> lines
          = (fun body => body ++ [newline]) <$> bodies) as Hterm.
  { clear Hcl Hmax Hlen Hcmds.
    induction Hlb as [|line body lines bodies Hl _ IH]; [done|].
    apply Forall_cons in Hbodies as [(Hne & Hnl & _) Hbodies].
    rewrite !fmap_cons, IH by done. f_equal. by apply terminated_body. }
  assert (total_length lines <= Z.of_nat (length lines) + total_length bodies)
    as Htot.
  { clear Hcl Hmax Hlen Hcmds Hterm Hbodies.
    induction Hlb as [|line body lines bodies Hl _ IH]; [simpl; lia|].
    change (total_length (line :: lines))
      with (Z.of_nat (length line) + total_length lines).
    change (total_length (body :: bodies))
      with (Z.of_nat (length body) + total_length bodies).
    rewrite length_cons.
    destruct Hl as [-> | ->]; [|rewrite length_app; simpl]; lia. }
  pose proof (Forall2_length _ _ _ Hcl) as Hlen'.
  unfold commands_list_inputs.
  rewrite (commands_list_buffer uninit cmds lines) by (done || lia).
  cbn [mbind option_bind mapM inputs mret option_ret].
  set (text := concat (terminate_line <$> lines)).
  assert (NUL ∉ text) as Hz.
  { apply buffered_NUL. apply Forall_forall. intros line Hin.
    apply list_elem_of_lookup in Hin as [j Hj].
    destruct (Forall2_lookup_r _ _ _ _ _ Hcl Hj) as (cmd & _ & Hc & _).
    by destruct (c_str_inv _ _ Hc) as (? & _ & ?). }
  pose proof (buffered_length lines) as Hbl. fold text in Hbl.
  rewrite (commands_string_refines uninit (text ++ [NUL]) text)
    by (by apply c_str_app || lia).
  unfold commands_of. rewrite logical_plain.
  - simpl. rewrite app_nil_r. f_equal.
    unfold text. rewrite Hterm. apply nonempty_lines_bodies.
    eapply Forall_impl; [exact Hbodies|]. by intros ? (? & ? & ?).
  - apply split_lines_without.
    unfold text. rewrite Hterm. apply without_concat.
    apply Forall_fmap. eapply Forall_impl; [exact Hbodies|].
    intros body (_ & _ & Ha). simpl.
    rewrite elem_of_app, list_elem_of_singleton. intros [?|?]; done.
Qed.

(** ** lammps_extract_fix *)

(** X12. [lammps_extract_fix] takes the double for a global value from the
    heap before it looks at the flags of the fix.  Asked for global data
    (style 0) the fix does not have, or with a type other than 0, 1 and 2,
    it returns [NULL] and the block stays on the heap with no pointer to it
    handed out.  When it returns a global value, the block returned is the
    one block it took; for any other style the heap is as it was. *)
Theorem extract_fix_allocation (uninit : float) (modify : Modify.t)
    (heap : list (list float)) (id : string) (style type i j : Z)
    (fix_ : Fix.t) :
  0 <= Modify.find_fix modify id ->
  load (Modify.fix_ modify) (Modify.find_fix modify id) = Some fix_ ->
  (style = 0 -> no_global_data fix_ type ->
     lammps_extract_fix uninit modify heap id style type i j
     = Some (None, heap ++ [[uninit]]))
  /\ (style = 0 -> ~ no_global_data fix_ type ->
      lammps_extract_fix uninit modify heap id style type i j
      = Some (Some (allocated (length heap)),
              heap ++ [[global_value fix_ type i j]]))
  /\ (style <> 0 ->
      exists r,
        lammps_extract_fix uninit modify heap id style type i j
        = Some (r, heap) /\ forall k, r <> Some (allocated k)).
Proof.
  intros Hfound Hfix. unfold lammps_extract_fix.
  rewrite decide_False by lia. rewrite Hfix. cbn [mbind option_bind].
  assert (forall v : float,
            <[length heap := [v]]> (heap ++ [[uninit]]) = heap ++ [[v]])
    as Hset by (intros v; apply insert_middle).
  unfold malloc_double. cbn [fst snd]. split_and!.
  - intros -> Hno. rewrite decide_True by done.
    destruct Hno as [[-> Hf]|[[-> Hf]|[[-> Hf]|(H0 & H1 & H2)]]].
    + by rewrite !decide_True by done.
    + rewrite (decide_False (P := 1 = 0)) by done.
      by rewrite !decide_True by done.
    + rewrite (decide_False (P := 2 = 0)), (decide_False (P := 2 = 1)) by done.
      by rewrite !decide_True by done.
    + rewrite !(decide_False (P := type = _)) by done.
      rewrite (decide_False (P := 0 = 1)), (decide_False (P := 0 = 2)) by done.
      done.
  - intros -> Hno. rewrite decide_True by done.
    unfold no_global_data in Hno. unfold global_value.
    repeat case_decide; try (exfalso; apply Hno; tauto);
      by rewrite Hset.
  - intros Hstyle. rewrite decide_False by done.
    repeat case_decide; eexists; (split; [done|]); by intros k.
Qed.

(** ** lammps_create_atoms *)

Lemma tally_app {A} (own : A -> bool) (l1 l2 : list A) :
  tally own (l1 ++ l2) = tally own l1 + tally own l2.
Proof.
  unfold tally. induction l1 as [|a l1 IH]; simpl; [done|]. rewrite IH. lia.
Qed.

Lemma tally_bounds {A} (own : A -> bool) (l : list A) :
  0 <= tally own l <= Z.of_nat (length l).
Proof.
  unfold tally. induction l as [|a l IH]; simpl; [lia|].
  destruct (own a); lia.
Qed.

Lemma tally_seqZ_succ (own : Z -> bool) (j : Z) :
  0 <= j ->
  tally own (seqZ 0 (j + 1)) = tally own (seqZ 0 j) + (if own j then 1 else 0).
Proof.
  intros Hj. rewrite seqZ_app by lia. rewrite tally_app. f_equal.
  change (seqZ (0 + j) 1) with [0 + j]. unfold tally. simpl.
  rewrite Z.add_0_l. destruct (own j); lia.
Qed.

Lemma store_v_spec (lmp : LAMMPS.t) (nlocal k : Z) (val : float) row :
  0 <= nlocal -> 0 <= k < Z.of_nat (length row) ->
  LAMMPS.atom_v lmp !! Z.to_nat nlocal = Some row ->
  exists lmp',
    store_v lmp nlocal k val = Some lmp'
    /\ LAMMPS.atom lmp' = LAMMPS.atom lmp
    /\ LAMMPS.domain lmp' = LAMMPS.domain lmp
    /\ LAMMPS.atom_image lmp' = LAMMPS.atom_image lmp
    /\ exists row', LAMMPS.atom_v lmp' !! Z.to_nat nlocal = Some row'
                    /\ length row' = length row.
Proof.
  intros Hn Hk Hrow. unfold store_v.
  assert (load (LAMMPS.atom_v lmp) nlocal = Some row) as ->
    by (by apply load_Some).
  cbn [mbind option_bind].
  assert (store row k val = Some (<[Z.to_nat k := val]> row)) as ->
    by (by apply store_Some).
  cbn [mbind option_bind].
  apply lookup_lt_Some in Hrow as Hlt.
  assert (store (LAMMPS.atom_v lmp) nlocal (<[Z.to_nat k := val]> row)
          = Some (<[Z.to_nat nlocal := <[Z.to_nat k := val]> row]>
                    (LAMMPS.atom_v lmp))) as ->
    by (apply store_Some; split; [lia|done]).
  cbn [mbind option_bind]. eexists. split; [done|].
  split_and!; try done. eexists. split.
  - simpl. by apply list_lookup_insert_eq.
  - by rewrite length_insert.
Qed.

Lemma create_stage_refuses create_atom me lmp n id type x v image
    shrinkexceed :
  Domain.box_exist (LAMMPS.domain lmp) = 0
  \/ Atom.tag_enable (LAMMPS.atom lmp) = 0 ->
  create_stage create_atom me lmp n id type x v image shrinkexceed
  = Some (Refused (if decide (me = 0)
                   then [Warning me "Library error in lammps_create_atoms"]
                   else [])).
Proof.
  intros H. unfold create_stage.
  destruct (decide (Domain.box_exist (LAMMPS.domain lmp) = 0));
    destruct (decide (Atom.tag_enable (LAMMPS.atom lmp) = 0));
    try done. tauto.
Qed.

Section create_atoms_facts.
Variable create_atom : LAMMPS.t -> Z -> list float -> LAMMPS.t.
Variable data_fix_compute_variable : LAMMPS.t -> Z -> Z -> LAMMPS.t.
Variable map_init : LAMMPS.t -> LAMMPS.t.
Variable map_set : LAMMPS.t -> LAMMPS.t.

Hypothesis Hroom : makes_room create_atom.

Lemma create_loop_counts lmp n id type x v image shrinkexceed :
  atoms_given n id type x v image -> creates n lmp ->
  exists lmp' image',
    create_loop create_atom n id type x v shrinkexceed
      (lmp, image, Atom.nlocal (LAMMPS.atom lmp))
    = Some (lmp', image',
            Atom.nlocal (LAMMPS.atom lmp)
            + tally (owns lmp id x image shrinkexceed) (seqZ 0 n)).
Proof.
  intros (Hn & Hmax & Htype & Hx & Hid & Hv & Him)
         (Hbox & Htag & Hnl0 & Hnlmax).
  set (own := owns lmp id x image shrinkexceed).
  set (nl0 := Atom.nlocal (LAMMPS.atom lmp)) in *.
  unfold create_loop.
  match goal with |- context [for_ ?n ?body ?s] =>
    destruct (for_inv
      (fun j st =>
         st.2 = Atom.nlocal (LAMMPS.atom st.1.1)
         /\ LAMMPS.domain st.1.1 = LAMMPS.domain lmp
         /\ st.2 = nl0 + tally own (seqZ 0 j)
         /\ image_kept j image st.1.2)
      n body s) as ([[lmp' image'] nl'] & Hrun & _ & _ & Hcount & _)
  end.
  - lia.
  - simpl. split_and!; [done|done|unfold tally; simpl; lia|].
    unfold image_kept. by destruct image.
  - intros j [[l im] nl] Hj (Hnl & Hdom & Hcount & Hkept).
    simpl in Hnl, Hdom, Hcount, Hkept.
    pose proof (tally_bounds own (seqZ 0 j)) as Htally.
    rewrite length_seqZ in Htally.
    rewrite tally_seqZ_succ by lia.
    cbn beta iota.
    assert (int_mul 3 j = Some (3 * j)) as ->.
    { apply checked_in_int. unfold in_int, INT_MIN, MAXSMALLINT in *. lia. }
    cbn [mbind option_bind].
    destruct (lookup_lt_is_Some_2 x (Z.to_nat (3 * j))) as [x0 Hx0]; [lia|].
    assert (load x (3 * j) = Some x0) as -> by (apply load_Some; split; [lia|done]).
    cbn [mbind option_bind].
    assert (int_add (3 * j) 1 = Some (3 * j + 1)) as ->.
    { apply checked_in_int. unfold in_int, INT_MIN, MAXSMALLINT in *. lia. }
    cbn [mbind option_bind].
    destruct (lookup_lt_is_Some_2 x (Z.to_nat (3 * j + 1))) as [x1 Hx1]; [lia|].
    assert (load x (3 * j + 1) = Some x1) as -> by (apply load_Some; split; [lia|done]).
    cbn [mbind option_bind].
    assert (int_add (3 * j) 2 = Some (3 * j + 2)) as ->.
    { apply checked_in_int. unfold in_int, INT_MIN, MAXSMALLINT in *. lia. }
    cbn [mbind option_bind].
    destruct (lookup_lt_is_Some_2 x (Z.to_nat (3 * j + 2))) as [x2 Hx2]; [lia|].
    assert (load x (3 * j + 2) = Some x2) as -> by (apply load_Some; split; [lia|done]).
    cbn [mbind option_bind].
    (* the image flag and the tag handed to ownatom *)
    assert (exists img,
      match im with
      | Some a => c ← load a j; Some (Some c)
      | None => Some None
      end = Some img
      /\ img = (request id x image j).2) as (img & -> & Himg).
    { unfold request, image_kept in *. cbn [snd].
      destruct image as [a0|], im as [a|]; try done; [|by eexists].
      destruct Hkept as [Hlen Hk]. specialize (Him a0 eq_refl).
      destruct (lookup_lt_is_Some_2 a0 (Z.to_nat j)) as [c Hc]; [lia|].
      exists (Some c). rewrite Hc. split; [|done].
      assert (load a j = Some c) as ->; [|done].
      apply load_Some. split; [lia|]. by rewrite Hk. }
    cbn [mbind option_bind].
    assert (exists tag,
      match id with Some a => load a j | None => Some (-1) end = Some tag
      /\ tag = (request id x image j).1.1) as (tag & -> & Htg).
    { unfold request. cbn [fst]. destruct id as [a|]; [|by eexists].
      specialize (Hid a eq_refl).
      destruct (lookup_lt_is_Some_2 a (Z.to_nat j)) as [t Ht]; [lia|].
      exists t. rewrite Ht. split; [|done]. apply load_Some. split; [lia|done]. }
    cbn [mbind option_bind].
    assert ([x0; x1; x2] = (request id x image j).1.2) as Hxd.
    { unfold request. cbn [fst snd]. by rewrite Hx0, Hx1, Hx2. }
    rewrite Hdom.
    set (r := Domain.ownatom (LAMMPS.domain lmp) tag [x0; x1; x2] img
                             shrinkexceed).
    assert (own j = bool_decide (r.1.1 <> 0)) as Hown.
    { unfold own, owns, r. by rewrite Htg, Hxd, Himg. }
    cbv zeta.
    (* what ownatom leaves in the array of the caller *)
    assert (exists im',
      match im, r.2 with
      | Some a, Some c => a ← store a j c; Some (Some a)
      | _, _ => Some im
      end = Some im'
      /\ image_kept (j + 1) image im'
      /\ forall a, im' = Some a -> is_Some (a !! Z.to_nat j))
      as (im' & -> & Hkept' & Hslot).
    { unfold image_kept in *.
      destruct image as [a0|], im as [a|]; try done.
      - destruct Hkept as [Hlen Hk]. specialize (Him a0 eq_refl).
        destruct (r.2) as [c|].
        + exists (Some (<[Z.to_nat j := c]> a)). split; [|split].
          * assert (store a j c = Some (<[Z.to_nat j := c]> a)) as ->;
              [|done]. apply store_Some. split; [lia|done].
          * rewrite length_insert. split; [done|]. intros k Hk'.
            rewrite list_lookup_insert_ne by lia. apply Hk. lia.
          * intros ? [= <-]. apply lookup_lt_is_Some.
            rewrite length_insert. lia.
        + exists (Some a). split; [done|split].
          * split; [done|]. intros k Hk'. apply Hk. lia.
          * intros ? [= <-]. apply lookup_lt_is_Some. lia.
      - exists None. split; [by destruct (r.2)|split; done]. }
    cbn [mbind option_bind].
    destruct (decide (r.1.1 = 0)) as [Hr|Hr].
    { eexists. split; [done|]. cbn [fst snd].
      rewrite Hown, bool_decide_eq_false_2 by (intros ?; done).
      split_and!; [done|done|lia|done]. }
    rewrite Hown, bool_decide_eq_true_2 by done.
    destruct (lookup_lt_is_Some_2 type (Z.to_nat j)) as [ty Hty]; [lia|].
    assert (load type j = Some ty) as -> by (apply load_Some; split; [lia|done]).
    cbn [mbind option_bind].
    destruct (Hroom l ty r.1.2) as (Hd1 & Hn1 & Ht1 & (row & Hrow & Hrow3) & Hi1);
      [lia|].
    rewrite <- Hnl in Hn1, Ht1, Hrow, Hi1.
    set (l1 := create_atom l ty r.1.2) in *.
    assert (exists t,
      match id with Some a => load a j | None => int_add j 1 end = Some t)
      as (t & ->).
    { destruct id as [a|].
      - specialize (Hid a eq_refl).
        destruct (lookup_lt_is_Some_2 a (Z.to_nat j)) as [t Ht]; [lia|].
        exists t. apply load_Some. split; [lia|done].
      - eexists. apply checked_in_int.
        unfold in_int, INT_MIN, MAXSMALLINT in *. lia. }
    cbn [mbind option_bind].
    assert (store (Atom.tag (LAMMPS.atom l1)) nl t
            = Some (<[Z.to_nat nl := t]> (Atom.tag (LAMMPS.atom l1)))) as ->.
    { apply store_Some. split; [lia|done]. }
    cbn [mbind option_bind].
    set (l2 := LAMMPS.set_atom l1 _).
    assert (exists l3,
      match v with
      | Some a =>
          v0 ← load a (3 * j);
          lmp ← store_v l2 nl 0 v0;
          v1 ← load a (3 * j + 1);
          lmp ← store_v lmp nl 1 v1;
          v2 ← load a (3 * j + 2);
          store_v lmp nl 2 v2
      | None => Some l2
      end = Some l3
      /\ LAMMPS.atom l3 = LAMMPS.atom l2
      /\ LAMMPS.domain l3 = LAMMPS.domain l2
      /\ LAMMPS.atom_image l3 = LAMMPS.atom_image l2) as (l3 & -> & Ha3 & Hd3 & Hi3).
    { destruct v as [a|]; [|by exists l2].
      specialize (Hv a eq_refl).
      destruct (lookup_lt_is_Some_2 a (Z.to_nat (3 * j))) as [v0 Hv0]; [lia|].
      destruct (lookup_lt_is_Some_2 a (Z.to_nat (3 * j + 1))) as [v1 Hv1]; [lia|].
      destruct (lookup_lt_is_Some_2 a (Z.to_nat (3 * j + 2))) as [v2 Hv2]; [lia|].
      assert (load a (3 * j) = Some v0) as -> by (apply load_Some; split; [lia|done]).
      cbn [mbind option_bind].
      destruct (store_v_spec l2 nl 0 v0 row) as (la & -> & Haa & Hda & Hia & rowa & Hrowa & Hlena);
        [lia|lia|done|].
      cbn [mbind option_bind].
      assert (load a (3 * j + 1) = Some v1) as -> by (apply load_Some; split; [lia|done]).
      cbn [mbind option_bind].
      destruct (store_v_spec la nl 1 v1 rowa) as (lb & -> & Hab & Hdb & Hib & rowb & Hrowb & Hlenb);
        [lia|lia|done|].
      cbn [mbind option_bind].
      assert (load a (3 * j + 2) = Some v2) as -> by (apply load_Some; split; [lia|done]).
      cbn [mbind option_bind].
      destruct (store_v_spec lb nl 2 v2 rowb) as (lc & -> & Hac & Hdc & Hic & _);
        [lia|lia|done|].
      exists lc. split; [done|]. split_and!; congruence. }
    cbn [mbind option_bind].
    assert (exists l4,
      match im' with
      | Some a =>
          c ← load a j;
          im ← store (LAMMPS.atom_image l3) nl c;
          Some (LAMMPS.set_image l3 im)
      | None => Some l3
      end = Some l4
      /\ LAMMPS.atom l4 = LAMMPS.atom l3
      /\ LAMMPS.domain l4 = LAMMPS.domain l3) as (l4 & -> & Ha4 & Hd4).
    { destruct im' as [a|]; [|by exists l3].
      destruct (Hslot a eq_refl) as [c Hc].
      assert (load a j = Some c) as -> by (apply load_Some; split; [lia|done]).
      cbn [mbind option_bind].
      assert (store (LAMMPS.atom_image l3) nl c
              = Some (<[Z.to_nat nl := c]> (LAMMPS.atom_image l3))) as ->.
      { apply store_Some. split; [|done]. rewrite Hi3. simpl. lia. }
      cbn [mbind option_bind]. by eexists. }
    cbn [mbind option_bind].
    assert (int_add nl 1 = Some (nl + 1)) as ->.
    { apply checked_in_int. unfold in_int, INT_MIN, MAXSMALLINT in *. lia. }
    cbn [mbind option_bind].
    eexists. split; [done|]. cbn [fst snd].
    split_and!; [|rewrite Hd4, Hd3; simpl; congruence|lia|done].
    rewrite Ha4, Ha3. simpl. lia.
  - exists lmp', image'. simpl in Hcount. by rewrite Hrun, Hcount.
Qed.

Lemma create_stage_counts me lmp n id type x v image shrinkexceed :
  atoms_given n id type x v image -> creates n lmp ->
  exists lmp' image',
    create_stage create_atom me lmp n id type x v image shrinkexceed
    = Some (Counted lmp' image' (Atom.nlocal (LAMMPS.atom lmp))
              (Atom.nlocal (LAMMPS.atom lmp)
               + tally (owns lmp id x image shrinkexceed) (seqZ 0 n))
              (Atom.natoms (LAMMPS.atom lmp))).
Proof.
  intros Hargs Hc.
  destruct (create_loop_counts lmp n id type x v image shrinkexceed Hargs Hc)
    as (lmp' & image' & Hloop).
  destruct Hc as (Hbox & Htag & _).
  exists lmp', image'. unfold create_stage.
  destruct (decide (Domain.box_exist (LAMMPS.domain lmp) = 0)); [done|].
  destruct (decide (Atom.tag_enable (LAMMPS.atom lmp) = 0)); [done|].
  cbv zeta. rewrite decide_False by (intros H; by apply H).
  rewrite Hloop. done.
Qed.

Hypothesis Hfix : forall a b,
  keeps_natoms (fun lmp => data_fix_compute_variable lmp a b).
Hypothesis Hinit : keeps_natoms map_init.
Hypothesis Hset : keeps_natoms map_set.

Lemma create_finish_natoms me n natoms c :
  Atom.natoms (LAMMPS.atom (create_finish data_fix_compute_variable map_init
                              map_set me n natoms c).1.1) = natoms.
Proof.
  unfold create_finish. cbn [fst snd]. case_decide.
  - by rewrite Hset, Hinit, Hfix.
  - by rewrite Hfix.
Qed.

Lemma create_finish_events me n natoms c :
  (create_finish data_fix_compute_variable map_init map_set me n natoms c).2
  = if decide (natoms <> c.2.2 + n) then
      if decide (me = 0)
      then [Warning me (invalid_total natoms (c.2.2 + n))] else []
    else [].
Proof.
  pose proof (create_finish_natoms me n natoms c) as Hnat.
  unfold create_finish in *. cbn [fst snd] in *. by rewrite Hnat.
Qed.

Lemma sum_const_0 {A} (l : list A) :
  foldr Z.add 0 ((fun _ => 0) <$> l) = 0.
Proof.
  induction l as [|a l IH]; [done|]. rewrite fmap_cons. cbn [foldr].
  by rewrite IH.
Qed.

Lemma sum_add {A} (f g : A -> Z) (l : list A) :
  foldr Z.add 0 ((fun i => f i + g i) <$> l)
  = foldr Z.add 0 (f <$> l) + foldr Z.add 0 (g <$> l).
Proof.
  induction l as [|a l IH]; [done|]. rewrite !fmap_cons. cbn [foldr].
  rewrite IH. lia.
Qed.

Lemma tally_sum {A} (own : A -> bool) (l : list A) :
  tally own l = foldr Z.add 0 ((fun i => if own i then 1 else 0) <$> l).
Proof.
  unfold tally. induction l as [|a l IH]; [done|]. rewrite fmap_cons.
  cbn [foldr]. by rewrite IH.
Qed.

(** Counting by process and counting by atom give the same. *)
Lemma counted_total world n id x image shrinkexceed :
  foldr Z.add 0
    ((fun lmp => Atom.nlocal (LAMMPS.atom lmp)
                 + tally (owns lmp id x image shrinkexceed) (seqZ 0 n))
       <$> world)
  = created_total world n id x image shrinkexceed.
Proof.
  unfold created_total, local_total, owners.
  induction world as [|lmp w IH].
  - simpl. by rewrite sum_const_0.
  - rewrite !fmap_cons. cbn [foldr]. rewrite IH.
    change (foldr Z.add 0
              ((fun i => tally (fun l => owns l id x image shrinkexceed i)
                               (lmp :: w)) <$> seqZ 0 n))
      with (foldr Z.add 0
              ((fun i => (if owns lmp id x image shrinkexceed i then 1 else 0)
                         + tally (fun l => owns l id x image shrinkexceed i) w)
                 <$> seqZ 0 n)).
    rewrite (sum_add
      (fun i => if owns lmp id x image shrinkexceed i then 1 else 0)
      (fun i => tally (fun l => owns l id x image shrinkexceed i) w)).
    rewrite <- tally_sum. lia.
Qed.

Lemma concat_imap_rank0 {A B} (F : nat -> A -> list B) (x : A) (l : list A) :
  (forall k y, k <> O -> F k y = []) ->
  concat (imap F (x :: l)) = F O x.
Proof.
  intros HF. rewrite imap_cons. cbn [concat].
  assert (forall (G : nat -> A -> list B),
            (forall k y, G k y = []) -> concat (imap G l) = []) as Hnil.
  { clear. induction l as [|y l IH]; intros G HG; [done|].
    rewrite imap_cons. cbn [concat]. rewrite HG. apply IH.
    intros k z. apply HG. }
  rewrite Hnil; [by rewrite app_nil_r|]. intros k y. by apply HF.
Qed.

Lemma create_atoms_counts lmp0 world n id type x v image shrinkexceed :
  atoms_given n id type x v image ->
  Forall (creates n) (lmp0 :: world) ->
  let total := created_total (lmp0 :: world) n id x image shrinkexceed in
  let expected := Atom.natoms (LAMMPS.atom lmp0) + n in
  exists rs,
    lammps_create_atoms create_atom data_fix_compute_variable map_init map_set
      (lmp0 :: world) n id type x v image shrinkexceed
    = Some (rs, Allreduce 1 ::
                  if decide (total = expected) then []
                  else [Warning 0 (invalid_total total expected)])
    /\ length rs = S (length world)
    /\ Forall (fun r => Atom.natoms (LAMMPS.atom r.1) = total) rs.
Proof.
  intros Hargs Hall total expected.
  set (w := lmp0 :: world) in *.
  set (g := stage_of create_atom n id type x v image shrinkexceed).
  assert (forall k lmp, w !! k = Some lmp ->
    exists lmp' image',
      create_stage create_atom (Z.of_nat k) lmp n id type x v image
                   shrinkexceed = Some (g k lmp)
      /\ g k lmp
         = Counted lmp' image' (Atom.nlocal (LAMMPS.atom lmp))
             (Atom.nlocal (LAMMPS.atom lmp)
              + tally (owns lmp id x image shrinkexceed) (seqZ 0 n))
             (Atom.natoms (LAMMPS.atom lmp))) as Hstage.
  { intros k lmp Hk.
    destruct (create_stage_counts (Z.of_nat k) lmp n id type x v image
                shrinkexceed Hargs) as (lmp' & image' & Hs).
    { by eapply Forall_lookup_1 in Hall. }
    exists lmp', image'. unfold g, stage_of. rewrite Hs. done. }
  unfold lammps_create_atoms.
  rewrite (mapM_imap _ g).
  2:{ intros k lmp Hk. by destruct (Hstage k lmp Hk) as (? & ? & ? & _). }
  cbn [mbind option_bind].
  assert (mapM refused (imap g w) = None) as ->.
  { unfold w. rewrite imap_cons. cbn [mapM].
    destruct (Hstage O lmp0 eq_refl) as (? & ? & _ & ->). done. }
  assert (mapM counted (imap g w) = Some (count_of <$> imap g w)) as ->.
  { apply mapM_Some. apply Forall2_fmap_r, Forall_Forall2_diag.
    apply Forall_forall. intros s Hs.
    apply list_elem_of_lookup in Hs as [k Hs].
    rewrite list_lookup_imap in Hs.
    destruct (w !! k) as [lmp|] eqn:Hk; [|done]. injection Hs as <-.
    destruct (Hstage k lmp Hk) as (? & ? & _ & ->). done. }
  cbn [mbind option_bind].
  assert (foldr Z.add 0
            ((fun c : LAMMPS.t * option (list Z) * (Z * Z * Z) => c.2.1.2)
               <$> (count_of <$> imap g w)) = total) as ->.
  { unfold total. rewrite <- counted_total. f_equal.
    rewrite <- list_fmap_compose, fmap_imap.
    apply list_eq. intros k. rewrite list_lookup_imap, list_lookup_fmap.
    destruct (w !! k) as [lmp|] eqn:Hk; [|done]. simpl.
    destruct (Hstage k lmp Hk) as (? & ? & _ & ->). done. }
  eexists. split; [|split].
  - f_equal. f_equal. f_equal.
    rewrite fmap_imap.
    rewrite (imap_ext _ (fun k c =>
      if decide (total <> c.2.2 + n) then
        if decide (Z.of_nat k = 0)
        then [Warning (Z.of_nat k) (invalid_total total (c.2.2 + n))] else []
      else []))
      by (intros; apply create_finish_events).
    unfold w. rewrite imap_cons, fmap_cons. rewrite concat_imap_rank0.
    + destruct (Hstage O lmp0 eq_refl) as (? & ? & _ & ->). cbn [count_of snd].
      fold expected. rewrite (decide_True (P := Z.of_nat 0 = 0)) by done.
      destruct (decide (total = expected)) as [He|He].
      * by rewrite decide_False by (intros H; by apply H).
      * by rewrite decide_True.
    + intros k y Hk. case_decide; [|done]. by rewrite decide_False by lia.
  - rewrite length_fmap, length_imap, length_fmap, length_imap. done.
  - apply Forall_fmap, Forall_forall. intros r Hr.
    apply list_elem_of_lookup in Hr as [k Hr].
    rewrite list_lookup_imap in Hr.
    destruct ((count_of <$> imap g w) !! k) as [c|]; [|done].
    injection Hr as <-. apply create_finish_natoms.
Qed.

End create_atoms_facts.

(** X13. Without a simulation box, or without atom tags,
    [lammps_create_atoms] creates nothing: every process and the array
    [image] of its caller are as they were, and one warning is issued, by
    rank 0. *)
Theorem create_atoms_refused
    (create_atom : LAMMPS.t -> Z -> list float -> LAMMPS.t)
    (data_fix_compute_variable : LAMMPS.t -> Z -> Z -> LAMMPS.t)
    (map_init map_set : LAMMPS.t -> LAMMPS.t)
    (world : list LAMMPS.t) (n : Z) (id : option (list Z)) (type : list Z)
    (x : list float) (v : option (list float)) (image : option (list Z))
    (shrinkexceed : Z) :
  Forall (fun lmp => Domain.box_exist (LAMMPS.domain lmp) = 0
                     \/ Atom.tag_enable (LAMMPS.atom lmp) = 0) world ->
  world <> [] ->
  lammps_create_atoms create_atom data_fix_compute_variable map_init map_set
    world n id type x v image shrinkexceed
  = Some ((fun lmp => (lmp, image)) <$> world,
          [Warning 0 "Library error in lammps_create_atoms"]).
Proof.
  intros Hall Hne. unfold lammps_create_atoms.
  rewrite (mapM_imap _ (fun k _ =>
    Refused (if decide (Z.of_nat k = 0)
             then [Warning (Z.of_nat k) "Library error in lammps_create_atoms"]
             else []))).
  2:{ intros i lmp Hi. apply create_stage_refuses.
      by eapply Forall_lookup_1 in Hall. }
  cbn [mbind option_bind].
  rewrite (mapM_Some_2 refused _
    (imap (fun k _ =>
       if decide (Z.of_nat k = 0)
       then [Warning 0 "Library error in lammps_create_atoms"] else [])
       world)).
  - destruct world as [|a w]; [done|]. by rewrite concat_rank0.
  - apply Forall2_same_length_lookup_2; [by rewrite !length_imap|].
    intros i y z. rewrite !list_lookup_imap.
    destruct (world !! i); simpl; [|done]. intros [= <-] [= <-]. simpl.
    case_decide as Hk; [|done]. by rewrite Hk.
Qed.

Lemma sum_le_length {A} (f : A -> Z) (l : list A) :
  Forall (fun i => f i <= 1) l ->
  foldr Z.add 0 (f <$> l) <= Z.of_nat (length l).
Proof.
  induction 1 as [|a l Ha _ IH]; [done|]. rewrite fmap_cons.
  cbn [foldr length]. lia.
Qed.

Lemma sum_lt_length {A} (f : A -> Z) (l : list A) (a : A) :
  Forall (fun i => f i <= 1) l -> a ∈ l -> f a < 1 ->
  foldr Z.add 0 (f <$> l) < Z.of_nat (length l).
Proof.
  intros Hall Hin Ha. induction Hall as [|b l Hb Hall IH].
  - by apply elem_of_nil in Hin.
  - rewrite fmap_cons. cbn [foldr length].
    pose proof (sum_le_length f l Hall).
    apply elem_of_cons in Hin as [<-|Hin]; [lia|].
    specialize (IH Hin). lia.
Qed.

Lemma sum_eq_length {A} (f : A -> Z) (l : list A) :
  Forall (fun i => f i = 1) l ->
  foldr Z.add 0 (f <$> l) = Z.of_nat (length l).
Proof.
  induction 1 as [|a l Ha _ IH]; [done|]. rewrite fmap_cons.
  cbn [foldr length]. lia.
Qed.

(** X14. When every process passes the checks, [lammps_create_atoms] sets
    [atom->natoms] on every process to the number of atoms the processes
    held plus, for each atom of the call, the number of processes that own
    it; one reduction is entered, and rank 0 warns exactly when that total
    is not the old [natoms] plus [n].  So, [natoms] having been the number
    of atoms held: when every atom of the call is owned by exactly one
    process, the total is the old one plus [n] and there is no warning;
    when no atom is owned twice and one is owned by no process, that atom is
    not created, the total falls short and rank 0 warns.  ([create_atom] is
    taken to make room for the atom it creates, and
    [data_fix_compute_variable], [map_init] and [map_set] to leave
    [natoms] alone.) *)
Theorem create_atoms_total
    (create_atom : LAMMPS.t -> Z -> list float -> LAMMPS.t)
    (data_fix_compute_variable : LAMMPS.t -> Z -> Z -> LAMMPS.t)
    (map_init map_set : LAMMPS.t -> LAMMPS.t)
    (lmp0 : LAMMPS.t) (world : list LAMMPS.t) (n : Z) (id : option (list Z))
    (type : list Z) (x : list float) (v : option (list float))
    (image : option (list Z)) (shrinkexceed : Z) :
  makes_room create_atom ->
  (forall a b, keeps_natoms (fun lmp => data_fix_compute_variable lmp a b)) ->
  keeps_natoms map_init -> keeps_natoms map_set ->
  atoms_given n id type x v image ->
  Forall (creates n) (lmp0 :: world) ->
  let total := created_total (lmp0 :: world) n id x image shrinkexceed in
  let expected := Atom.natoms (LAMMPS.atom lmp0) + n in
  let owned := owners (lmp0 :: world) id x image shrinkexceed in
  (exists rs,
     lammps_create_atoms create_atom data_fix_compute_variable map_init
       map_set (lmp0 :: world) n id type x v image shrinkexceed
     = Some (rs, Allreduce 1 ::
                   if decide (total = expected) then []
                   else [Warning 0 (invalid_total total expected)])
     /\ length rs = S (length world)
     /\ Forall (fun r => Atom.natoms (LAMMPS.atom r.1) = total) rs)
  /\ (Atom.natoms (LAMMPS.atom lmp0) = local_total (lmp0 :: world) ->
      Forall (fun i => owned i = 1) (seqZ 0 n) ->
      total = expected)
  /\ (Atom.natoms (LAMMPS.atom lmp0) = local_total (lmp0 :: world) ->
      Forall (fun i => owned i <= 1) (seqZ 0 n) ->
      (exists i, 0 <= i < n /\ owned i = 0) ->
      total < expected).
Proof.
  intros Hroom Hfix Hinit Hset Hargs Hall total expected owned.
  split; [|split].
  - by apply create_atoms_counts.
  - intros Hnat Hown. unfold total, expected, created_total.
    fold owned. rewrite (sum_eq_length owned) by done.
    rewrite length_seqZ. destruct Hargs as (Hn & _). lia.
  - intros Hnat Hown (i & Hi & H0). unfold total, expected, created_total.
    fold owned.
    pose proof (sum_lt_length owned (seqZ 0 n) i Hown) as Hlt.
    rewrite length_seqZ in Hlt.
    assert (i ∈ seqZ 0 n) as Hin by (apply elem_of_seqZ; lia).
    specialize (Hlt Hin). lia.
Qed.

(** ** lammps_has_error, lammps_get_last_error_message *)

Lemma strncpy_chars_short (n : nat) (text rest : list ascii) :
  NUL ∉ text -> (length text < n)%nat ->
  strncpy_chars n (text ++ NUL :: rest)
  = Some (text ++ replicate (n - length text) NUL).
Proof.
  revert n. induction text as [|c text IH]; intros n Hz Hn.
  - destruct n as [|n]; [simpl in Hn; lia|]. cbn [app strncpy_chars].
    by rewrite decide_True.
  - apply not_elem_of_cons in Hz as [Hc Hz].
    destruct n as [|n]; [simpl in Hn; lia|]. cbn [app strncpy_chars].
    rewrite decide_False by done. rewrite IH by (done || simpl in Hn; lia).
    done.
Qed.

Lemma strncpy_chars_long (n : nat) (text rest : list ascii) :
  NUL ∉ text -> (n <= length text)%nat ->
  strncpy_chars n (text ++ rest) = Some (take n text).
Proof.
  revert n. induction text as [|c text IH]; intros n Hz Hn.
  - destruct n as [|n]; [done|simpl in Hn; lia].
  - apply not_elem_of_cons in Hz as [Hc Hz].
    destruct n as [|n]; [done|]. cbn [app strncpy_chars take].
    rewrite decide_False by done. rewrite IH by (done || simpl in Hn; lia).
    done.
Qed.

Lemma in_int_pred (z : Z) :
  0 <= z <= MAXSMALLINT -> int_add z (-1) = Some (z - 1).
Proof.
  intros H. apply checked_in_int. unfold in_int, INT_MIN, MAXSMALLINT in *.
  lia.
Qed.

(** X8. An error message that fits: when the message is shorter than
    [buffer_size - 1], [lammps_get_last_error_message] returns the type of
    the error, the buffer holds the whole message as a C string (the rest of
    its first [buffer_size - 1] characters is filled with [NUL]), the
    characters of the buffer from index [buffer_size - 1] on are as before,
    and the error is taken: [lammps_has_error] gives 0 afterwards. *)
Theorem error_message_delivered (ERROR_NONE : Z) (error : Error.t)
    (msg text buffer : list ascii) (buffer_size : Z) :
  Error.get_last_error error = Some msg ->
  c_str msg = Some text ->
  Z.of_nat (length text) < buffer_size - 1 ->
  buffer_size <= Z.of_nat (length buffer) ->
  buffer_size <= MAXSMALLINT ->
  exists buffer' error',
    lammps_get_last_error_message ERROR_NONE error buffer buffer_size
    = Some (Error.get_last_error_type error, buffer', error')
    /\ c_str buffer' = Some text
    /\ length buffer' = length buffer
    /\ drop (Z.to_nat (buffer_size - 1)) buffer'
       = drop (Z.to_nat (buffer_size - 1)) buffer
    /\ lammps_has_error error' = 0.
Proof.
  intros Herr Hmsg Hshort Hsize Hmax.
  destruct (c_str_inv _ _ Hmsg) as (rest & -> & Hz).
  unfold lammps_get_last_error_message. rewrite Herr.
  rewrite in_int_pred by lia. cbn [mbind option_bind].
  unfold strncpy. rewrite decide_True by lia.
  rewrite strncpy_chars_short by (done || lia). cbn [mbind option_bind].
  set (k := (Z.to_nat (buffer_size - 1) - length text)%nat).
  assert (length (text ++ replicate k NUL) = Z.to_nat (buffer_size - 1))
    as Hlen by (rewrite length_app, length_replicate; lia).
  assert (0 < k)%nat as Hk by lia. clearbody k.
  eexists _, _. split; [done|]. split_and!.
  - unfold overwrite. rewrite take_0. cbn [app].
    destruct k as [|k']; [lia|]. cbn [replicate].
    rewrite <- (List.app_assoc text). cbn [app]. by apply c_str_app.
  - rewrite overwrite_length; [done|]. simpl. lia.
  - unfold overwrite. rewrite take_0. cbn [app Nat.add]. rewrite <- Hlen.
    by rewrite drop_app_length.
  - done.
Qed.

(** X9. An error message that does not fit: when the message has
    [buffer_size - 1] characters or more, the buffer receives the first
    [buffer_size - 1] of them and no terminator: the call leaves the
    character at index [buffer_size - 1], the last one of a buffer of
    [buffer_size] characters, as the caller had it.  The error is taken all
    the same. *)
Theorem error_message_truncated (ERROR_NONE : Z) (error : Error.t)
    (msg text buffer : list ascii) (buffer_size : Z) :
  Error.get_last_error error = Some msg ->
  c_str msg = Some text ->
  0 <= buffer_size - 1 <= Z.of_nat (length text) ->
  buffer_size <= Z.of_nat (length buffer) ->
  buffer_size <= MAXSMALLINT ->
  lammps_get_last_error_message ERROR_NONE error buffer buffer_size
  = Some (Error.get_last_error_type error,
          take (Z.to_nat (buffer_size - 1)) text
            ++ drop (Z.to_nat (buffer_size - 1)) buffer,
          Error.mk None ERROR_NONE)
  /\ NUL ∉ take (Z.to_nat (buffer_size - 1)) text.
Proof.
  intros Herr Hmsg Hlong Hsize Hmax.
  destruct (c_str_inv _ _ Hmsg) as (rest & -> & Hz).
  split.
  - unfold lammps_get_last_error_message. rewrite Herr.
    rewrite in_int_pred by lia. cbn [mbind option_bind].
    unfold strncpy. rewrite decide_True by lia.
    rewrite strncpy_chars_long by (done || lia). cbn [mbind option_bind].
    unfold overwrite. rewrite take_0. cbn [app Nat.add].
    rewrite length_take, Nat.min_l by lia. done.
  - intros Hin. apply Hz. apply elem_of_take in Hin as (i & Hi & _).
    by eapply list_elem_of_lookup_2.
Qed.

(** X10. An error is reported once: after a call of
    [lammps_get_last_error_message], whatever it delivered,
    [lammps_has_error] gives 0 and a further call returns 0 and writes
    nothing to its buffer. *)
Theorem error_message_once (ERROR_NONE : Z) (error error' : Error.t)
    (buffer buffer' : list ascii) (buffer_size r : Z) :
  lammps_get_last_error_message ERROR_NONE error buffer buffer_size
  = Some (r, buffer', error') ->
  lammps_has_error error' = 0
  /\ forall (buffer2 : list ascii) (size2 : Z),
       lammps_get_last_error_message ERROR_NONE error' buffer2 size2
       = Some (0, buffer2, error').
Proof.
  unfold lammps_get_last_error_message, lammps_has_error.
  destruct (Error.get_last_error error) as [msg|] eqn:Herr.
  - destruct (int_add buffer_size (-1)) as [n|]; [|done].
    cbn [mbind option_bind].
    destruct (strncpy buffer msg n) as [b|]; [|done].
    cbn [mbind option_bind]. intros [= <- <- <-]. done.
  - intros [= <- <- <-]. rewrite Herr. done.
Qed.

(** X11. A buffer size of 0 or less, with an error at hand:
    [buffer_size - 1] is negative and reaches [strncpy] as a [size_t], a
    length no buffer has; the call is undefined. *)
Theorem error_message_no_room (ERROR_NONE : Z) (error : Error.t)
    (msg buffer : list ascii) (buffer_size : Z) :
  Error.get_last_error error = Some msg ->
  buffer_size <= 0 ->
  lammps_get_last_error_message ERROR_NONE error buffer buffer_size = None.
Proof.
  intros Herr Hsize. unfold lammps_get_last_error_message. rewrite Herr.
  unfold int_add, checked. case_decide; [|done]. cbn [mbind option_bind].
  unfold strncpy. by rewrite decide_False by lia.
Qed.

(** ** lammps_extract_compute, lammps_extract_variable *)

(** X16. [lammps_extract_compute] calls a method of the compute only for
    data it returns: when it returns [NULL] (unknown id, the compute lacks
    the data, style or type not supported) nothing is computed; when it
    returns an entity, the compute has it (its flag is set) and the one
    method that computes this entity is called, once, exactly when it was
    last called at another time step than the current one. *)
Theorem extract_compute_invokes (compute : list Compute.t)
    (find_compute : string -> Z) (ntimestep : Z) (id : string)
    (style type : Z) (r : option (Z * Compute.entity))
    (tr : list (Z * Compute.method)) :
  lammps_extract_compute compute find_compute ntimestep id style type
  = Some (r, tr) ->
  match r with
  | None => tr = []
  | Some (icompute, e) =>
      icompute = find_compute id
      /\ exists c,
           load compute icompute = Some c
           /\ flag_of c e <> 0
           /\ tr = if decide (invoked c (method_of e) <> ntimestep)
                   then [(icompute, method_of e)] else []
  end.
Proof.
  unfold lammps_extract_compute, invoke_if_stale.
  case_decide; [by intros [= <- <-]|].
  destruct (load compute (find_compute id)) as [c|] eqn:Hc; [|done].
  cbn [mbind option_bind].
  repeat case_decide; intros [= <- <-]; simpl; try done;
    (split; [done|]; exists c; split_and!; [done|done|]);
    first [ by rewrite decide_True by done
          | by rewrite decide_False by (intros ?; done) ].
Qed.

(** X17. [lammps_extract_variable] allocates exactly what it returns: when
    it returns [NULL] (unknown name, a variable that is neither equal-style
    nor atom-style, an atom-style variable with an unknown group) the heap
    is as it was; otherwise the block returned is the one block it took from
    the heap, holding the value of the equal-style variable, or [nlocal]
    values for the atom-style variable as [compute_atom] left them. *)
Theorem extract_variable_allocation (uninit : float) (variable : Input_variable.t)
    (nlocal : Z) (heap : list (list float)) (name : string)
    (group : option string) :
  let r := lammps_extract_variable uninit variable nlocal heap name group in
  match r.1 with
  | None => r.2 = heap
  | Some k =>
      k = length heap
      /\ exists block, r.2 = heap ++ [block]
         /\ block
            = let ivar := Input_variable.find variable name in
              if decide (Input_variable.equalstyle variable ivar <> 0)
              then [Input_variable.compute_equal variable ivar]
              else Input_variable.compute_atom variable ivar
                     (Input_variable.group_find variable group)
                     (replicate (Z.to_nat nlocal) uninit)
  end.
Proof.
  unfold lammps_extract_variable, malloc_doubles. cbn [fst snd].
  repeat case_decide; cbn [fst snd]; try done.
  - split; [done|]. eexists. split; [apply insert_middle|done].
  - split; [done|]. eexists. split; [apply insert_middle|done].
Qed.

(** ** The theorems at the small world *)

Ltac refute_refusal :=
  let H := fresh in
  intros H; unfold scatter_refuses, gather_refuses in H;
  repeat (destruct H as [H|H]); vm_compute in H; congruence.

Ltac each tac :=
  repeat first
    [ apply Forall_nil; exact I
    | apply Forall2_nil; exact I
    | apply Forall_cons; split; [tac|]
    | apply Forall2_cons; split; [tac|] ].

Ltac show_gather_ready :=
  unfold gather_ready; split_and!;
  [ refute_refusal | reflexivity | lia | lia | by vm_compute
  | vm_compute; reflexivity
  | each ltac:(simpl; lia) ].

Ltac show_buffers_ready :=
  split; [reflexivity | each ltac:(simpl; lia)].

Ltac show_exact :=
  unfold exact_atoms; simpl;
  each ltac:(each ltac:(split; reflexivity)).

Lemma lammps_get_natoms_witness :
  lammps_get_natoms rank0 = 2
  /\ lammps_get_natoms (process 5000000000 0 [] (fun _ => -1) ∅) = 0.
Proof.
  split.
  - apply (proj1 (proj2 (proj2 (lammps_get_natoms_spec rank0)))).
    by vm_compute.
  - apply (proj1 (lammps_get_natoms_spec
                    (process 5000000000 0 [] (fun _ => -1) ∅))).
    by vm_compute.
Defined.

Lemma lammps_commands_list_witness :
  lammps_commands_list (fun _ => "x"%char) 2
    [["r"; "u"; "n"; NUL]%char; ["c"; newline; NUL; "z"]%char]
  = Some [Smalloc 8;
          Commands_string ["r"; "u"; "n"; newline; "c"; newline]%char;
          Sfree].
Proof.
  apply (lammps_commands_list_spec (fun _ => "x"%char)
           [["r"; "u"; "n"; NUL]%char; ["c"; newline; NUL; "z"]%char]
           [["r"; "u"; "n"]%char; ["c"; newline]%char]).
  - each ltac:(split; [reflexivity|discriminate]).
  - by vm_compute.
Defined.

Lemma precondition_rejection_witness :
  lammps_gather_atoms [untagged rank0; untagged rank1] "x" 1 3
    [doubles [0; 0; 0; 0; 0; 0]%float; doubles [0; 0; 0; 0; 0; 0]%float]
  = Some ([doubles [0; 0; 0; 0; 0; 0]%float; doubles [0; 0; 0; 0; 0; 0]%float],
          [Warning 0 "Library error in lammps_gather_atoms"])
  /\ lammps_scatter_atoms [untagged rank0; untagged rank1] "x" 1 3
       [doubles [0; 0; 0; 0; 0; 0]%float; doubles [0; 0; 0; 0; 0; 0]%float]
     = Some ([untagged rank0; untagged rank1],
             [Warning 0 "Library error in lammps_scatter_atoms"]).
Proof.
  apply precondition_rejection.
  - each ltac:(left; reflexivity).
  - discriminate.
  - reflexivity.
Defined.

Lemma scatter_needs_map_witness :
  lammps_scatter_atoms [unmapped rank0; unmapped rank1] "x" 1 3
    [doubles [0; 0; 0; 0; 0; 0]%float; doubles [0; 0; 0; 0; 0; 0]%float]
  = Some ([unmapped rank0; unmapped rank1],
          [Warning 0 "Library error in lammps_scatter_atoms"])
  /\ lammps_gather_atoms
       (unmapped <$> [unmapped rank0; unmapped rank1]) "x" 1 3
       [doubles [0; 0; 0; 0; 0; 0]%float; doubles [0; 0; 0; 0; 0; 0]%float]
     = lammps_gather_atoms [unmapped rank0; unmapped rank1] "x" 1 3
         [doubles [0; 0; 0; 0; 0; 0]%float; doubles [0; 0; 0; 0; 0; 0]%float].
Proof.
  apply scatter_needs_map.
  - each ltac:(reflexivity).
  - discriminate.
  - reflexivity.
Defined.



Lemma negative_zero_distinct : (-0)%float <> 0%float.
Proof.
  intros H. apply (f_equal PrimFloat.classify) in H. vm_compute in H.
  discriminate H.
Qed.

(** The negative zero is not a value a sum with zero leaves unchanged. *)
Lemma negative_zero_not_exact : ~ exact MPI_DOUBLE (-0)%float.
Proof.
  intros [H _]. vm_compute in H. apply negative_zero_distinct. by symmetry.
Qed.


Lemma scatter_locality_witness :
  exists atom' field',
    scatter_rank 0 rank0 "x" 1 3
      (doubles [10; 20; 30; 1.5; 2.5; 3.5]%float) = Some (atom', [])
    /\ (exists vptr', Atom.extract atom' "x" = Some vptr'
                      /\ field_rows MPI_DOUBLE vptr' 3 = Some field')
    /\ (forall name', name' <> "x" ->
          Atom.extract atom' name' = Atom.extract rank0 name')
    /\ shape field' = shape [[1.5; 2.5; 3.5]%float]
    /\ (forall m : nat,
          (forall t, 1 <= t <= 2 -> Atom.map rank0 t <> Z.of_nat m) ->
          field' !! m = [[1.5; 2.5; 3.5]%float] !! m)
    /\ (forall t (m : nat) row,
          1 <= t <= 2 -> Atom.map rank0 t = Z.of_nat m ->
          (forall t', t < t' <= 2 -> Atom.map rank0 t' <> Z.of_nat m) ->
          [[1.5; 2.5; 3.5]%float] !! m = Some row ->
          field' !! m
          = Some (slice 3 [10; 20; 30; 1.5; 2.5; 3.5]%float t
                  ++ drop (Z.to_nat 3) row)
          /\ forall j : nat, Z.of_nat j < 3 ->
               slice 3 [10; 20; 30; 1.5; 2.5; 3.5]%float t !! j
               = [10; 20; 30; 1.5; 2.5; 3.5]%float
                   !! Z.to_nat (3 * (t - 1) + Z.of_nat j)).
Proof.
  apply (scatter_locality MPI_DOUBLE 0 rank0 "x" 1 3 2
           [[1.5; 2.5; 3.5]%float] [10; 20; 30; 1.5; 2.5; 3.5]%float).
  - reflexivity.
  - unfold scatter_ready. split_and!.
    + refute_refusal.
    + reflexivity.
    + lia.
    + lia.
    + by vm_compute.
    + eexists. split; vm_compute; reflexivity.
    + reflexivity.
    + simpl. lia.
    + unfold slots_fit. apply Forall_seqZ. intros t Ht Hm.
      assert (t = 1 \/ t = 2) as [->| ->] by lia.
      * vm_compute in Hm. by destruct Hm.
      * eexists. split; [vm_compute; reflexivity|simpl; lia].
Defined.

Ltac show_map_consistent :=
  unfold map_consistent; apply Forall_seqZ;
  let t := fresh "t" in let Ht := fresh in let Hm := fresh in
  intros t Ht Hm;
  assert (t = 1 \/ t = 2) as [->| ->] by lia;
  first [ vm_compute in Hm; by destruct Hm
        | split; [by vm_compute | reflexivity] ].

Lemma round_trip_identity_witness :
  round_trip [rank0; rank1] "x" 1 3
    [doubles [0; 0; 0; 0; 0; 0]%float; doubles [0; 0; 0; 0; 0; 0]%float]
  = Some [rank0; rank1].
Proof.
  apply (round_trip_identity MPI_DOUBLE [rank0; rank1] "x" 1 3 2
           [[(2, [1.5; 2.5; 3.5]%float)]; [(1, [10; 20; 30]%float)]]
           [doubles [0; 0; 0; 0; 0; 0]%float; doubles [0; 0; 0; 0; 0; 0]%float]
           [[0; 0; 0; 0; 0; 0]%float; [0; 0; 0; 0; 0; 0]%float]).
  - reflexivity.
  - by left.
  - discriminate.
  - unfold world_ready. each show_gather_ready.
  - show_buffers_ready.
  - reflexivity.
  - simpl. apply NoDup_cons. split; [|apply NoDup_singleton].
    rewrite list_elem_of_singleton. discriminate.
  - show_exact.
  - each ltac:(split; [discriminate|show_map_consistent]).
Defined.

Lemma gather_layout_witness :
  exists total,
    lammps_gather_atoms [rank0; rank1] "q" 1 1
      [doubles [0; 0]%float; doubles [0; 0]%float]
    = Some (doubles <$> ((fun r => overwrite r 0 total)
              <$> [[0; 0]%float; [0; 0]%float]),
            [Allreduce (1 * 2)])
    /\ length total = Z.to_nat (1 * 2)
    /\ forall a j,
         a ∈ concat [[(2, [7%float])]; [(1, [9%float])]] -> 0 <= j < 1 ->
         total !! Z.to_nat (1 * (a.1 - 1) + j) = a.2 !! Z.to_nat j.
Proof.
  apply (gather_layout MPI_DOUBLE [rank0; rank1] "q" 1 1 2
           [[(2, [7%float])]; [(1, [9%float])]]
           [doubles [0; 0]%float; doubles [0; 0]%float]
           [[0; 0]%float; [0; 0]%float]).
  - reflexivity.
  - by left.
  - discriminate.
  - unfold world_ready. each show_gather_ready.
  - show_buffers_ready.
  - reflexivity.
  - simpl. apply NoDup_cons. split; [|apply NoDup_singleton].
    rewrite list_elem_of_singleton. discriminate.
  - show_exact.
Defined.

Ltac absent :=
  repeat (apply not_elem_of_cons; split; [discriminate|]);
  apply not_elem_of_nil.

Lemma commands_string_commands_witness :
  lammps_commands_string (fun _ => "x"%char)
    ["a"; "&"; newline; "b"; "&"; " "; newline; newline; "c"; NUL; "z"]%char
  = commands_of
      ["a"; "&"; newline; "b"; "&"; " "; newline; newline; "c"]%char
  /\ commands_of
       ["a"; "&"; newline; "b"; "&"; " "; newline; newline; "c"]%char
     = Some [["a"; " "; " "; "b"; " "; " "; " "]%char; ["c"]%char].
Proof.
  split; [|reflexivity].
  apply (commands_string_commands (fun _ => "x"%char)
    ["a"; "&"; newline; "b"; "&"; " "; newline; newline; "c"; NUL; "z"]%char
    ["a"; "&"; newline; "b"; "&"; " "; newline; newline; "c"]%char).
  - reflexivity.
  - by vm_compute.
Defined.

Lemma commands_string_lines_witness :
  lammps_commands_string (fun _ => "x"%char)
    [newline; "a"; "b"; newline; newline; "c"; newline; NUL]%char
  = Some [["a"; "b"]%char; ["c"]%char].
Proof.
  apply (commands_string_lines (fun _ => "x"%char)
    [newline; "a"; "b"; newline; newline; "c"; newline; NUL]%char
    [newline; "a"; "b"; newline; newline; "c"; newline]%char).
  - reflexivity.
  - by vm_compute.
  - absent.
Defined.

Lemma commands_string_dangling_witness :
  lammps_commands_string (fun _ => "x"%char)
    ["a"; "&"; newline; "b"; " "; "&"; " "; NUL]%char
  = None.
Proof.
  apply (commands_string_dangling (fun _ => "x"%char)
    ["a"; "&"; newline; "b"; " "; "&"; " "; NUL]%char
    ["a"; "&"; newline]%char ["b"; " "]%char [" "]%char).
  - reflexivity.
  - by vm_compute.
  - by right.
  - absent.
  - each ltac:(reflexivity).
  - absent.
Defined.

Lemma commands_string_continued_witness :
  lammps_commands_string (fun _ => "x"%char)
    ["a"; " "; "&"; " "; newline; "b"; NUL]%char
  = Some [["a"; " "; " "; " "; " "; "b"]%char].
Proof.
  apply (commands_string_continued (fun _ => "x"%char)
    ["a"; " "; "&"; " "; newline; "b"; NUL]%char
    ["a"; " "]%char [" "]%char ["b"]%char).
  - reflexivity.
  - by vm_compute.
  - absent.
  - absent.
  - each ltac:(reflexivity).
  - absent.
  - absent.
  - absent.
Defined.

Lemma commands_list_one_by_one_witness :
  commands_list_inputs (fun _ => "x"%char) 2
    [["r"; "u"; "n"; NUL]%char; ["c"; newline; NUL; "z"]%char]
  = Some [["r"; "u"; "n"]%char; ["c"]%char].
Proof.
  apply (commands_list_one_by_one (fun _ => "x"%char)
    [["r"; "u"; "n"; NUL]%char; ["c"; newline; NUL; "z"]%char]
    [["r"; "u"; "n"]%char; ["c"]%char]).
  - each ltac:(first [by left | by right]).
  - each ltac:(split_and!; [discriminate|absent|absent]).
  - by vm_compute.
Defined.

Lemma extract_fix_allocation_witness :
  lammps_extract_fix 0%float
    (Modify.mk [Fix.mk 0 1 0 1 0 1.5%float (fun _ => 2.5%float)
                       (fun _ _ => 3.5%float)]
               (fun _ => 0))
    [] "f" 0 0 0 0
  = Some (None, [[0%float]]).
Proof.
  apply (proj1 (extract_fix_allocation 0%float
    (Modify.mk [Fix.mk 0 1 0 1 0 1.5%float (fun _ => 2.5%float)
                       (fun _ _ => 3.5%float)]
               (fun _ => 0))
    [] "f" 0 0 0 0
    (Fix.mk 0 1 0 1 0 1.5%float (fun _ => 2.5%float) (fun _ _ => 3.5%float))
    ltac:(simpl; lia) eq_refl)).
  - reflexivity.
  - left. split; reflexivity.
Defined.

Lemma append_atom_makes_room : makes_room append_atom.
Proof.
  intros lmp ty xdata Hn. simpl. split_and!; [done|done| | |].
  - rewrite length_resize. lia.
  - eexists. split.
    + apply list_lookup_insert_eq. rewrite length_resize. lia.
    + simpl. lia.
  - rewrite length_resize. lia.
Qed.

Lemma create_atoms_refused_witness :
  lammps_create_atoms append_atom (fun lmp _ _ => lmp) (fun lmp => lmp)
    (fun lmp => lmp) [no_box (empty_process 1); no_box (empty_process 2)]
    2 (Some [1; 2]) [1; 1] [0; 0; 0; 1; 1; 1]%float None None 0
  = Some ([(no_box (empty_process 1), None); (no_box (empty_process 2), None)],
          [Warning 0 "Library error in lammps_create_atoms"]).
Proof.
  apply (create_atoms_refused append_atom (fun lmp _ _ => lmp)
           (fun lmp => lmp) (fun lmp => lmp)
           [no_box (empty_process 1); no_box (empty_process 2)]).
  - each ltac:(left; reflexivity).
  - discriminate.
Defined.

Lemma create_atoms_total_witness :
  exists rs,
    lammps_create_atoms append_atom (fun lmp _ _ => lmp) (fun lmp => lmp)
      (fun lmp => lmp) [empty_process 1; empty_process 2]
      2 (Some [1; 2]) [1; 1] [0; 0; 0; 1; 1; 1]%float None None 0
    = Some (rs, [Allreduce 1])
    /\ length rs = 2%nat
    /\ Forall (fun r => Atom.natoms (LAMMPS.atom r.1) = 2) rs.
Proof.
  apply (proj1 (create_atoms_total append_atom (fun lmp _ _ => lmp)
           (fun lmp => lmp) (fun lmp => lmp)
           (empty_process 1) [empty_process 2]
           2 (Some [1; 2]) [1; 1] [0; 0; 0; 1; 1; 1]%float None None 0
           append_atom_makes_room
           (fun _ _ _ => eq_refl) (fun _ => eq_refl) (fun _ => eq_refl)
           ltac:(unfold atoms_given; split_and!;
                   [lia|by vm_compute|simpl; lia|simpl; lia
                   |intros ? [= <-]; simpl; lia|done|done])
           ltac:(each ltac:(unfold creates; simpl; split_and!;
                              [lia|lia|lia|by vm_compute])))).
Defined.

Lemma error_message_delivered_witness :
  exists buffer' error',
    lammps_get_last_error_message 0
      (Error.mk (Some ["n"; "o"; NUL]%char) 1)
      ["a"; "b"; "c"; "d"; "e"]%char 4
    = Some (1, buffer', error')
    /\ c_str buffer' = Some ["n"; "o"]%char
    /\ length buffer' = 5%nat
    /\ drop 3 buffer' = ["d"; "e"]%char
    /\ lammps_has_error error' = 0.
Proof.
  apply (error_message_delivered 0 (Error.mk (Some ["n"; "o"; NUL]%char) 1)
           ["n"; "o"; NUL]%char ["n"; "o"]%char
           ["a"; "b"; "c"; "d"; "e"]%char 4).
  - reflexivity.
  - reflexivity.
  - simpl. lia.
  - simpl. lia.
  - by vm_compute.
Defined.

Lemma error_message_truncated_witness :
  lammps_get_last_error_message 0
    (Error.mk (Some ["l"; "o"; "n"; "g"; NUL]%char) 2)
    ["a"; "b"; "c"; "d"]%char 4
  = Some (2, ["l"; "o"; "n"; "d"]%char, Error.mk None 0)
  /\ NUL ∉ ["l"; "o"; "n"]%char.
Proof.
  apply (error_message_truncated 0
           (Error.mk (Some ["l"; "o"; "n"; "g"; NUL]%char) 2)
           ["l"; "o"; "n"; "g"; NUL]%char ["l"; "o"; "n"; "g"]%char
           ["a"; "b"; "c"; "d"]%char 4).
  - reflexivity.
  - reflexivity.
  - simpl. lia.
  - simpl. lia.
  - by vm_compute.
Defined.

Lemma error_message_once_witness :
  lammps_has_error (Error.mk None 0) = 0
  /\ forall (buffer2 : list ascii) (size2 : Z),
       lammps_get_last_error_message 0 (Error.mk None 0) buffer2 size2
       = Some (0, buffer2, Error.mk None 0).
Proof.
  apply (error_message_once 0
           (Error.mk (Some ["l"; "o"; "n"; "g"; NUL]%char) 2)
           (Error.mk None 0)
           ["a"; "b"; "c"; "d"]%char ["l"; "o"; "n"; "d"]%char 4 2).
  reflexivity.
Defined.

Lemma error_message_no_room_witness :
  lammps_get_last_error_message 0
    (Error.mk (Some ["n"; "o"; NUL]%char) 1) ["a"; "b"]%char 0
  = None.
Proof.
  apply (error_message_no_room 0 (Error.mk (Some ["n"; "o"; NUL]%char) 1)
           ["n"; "o"; NUL]%char).
  - reflexivity.
  - lia.
Defined.

Lemma commands_string_never_empty_witness :
  Forall (fun c => c <> [] /\ (newline ∉ c) /\ (NUL ∉ c))
         [["a"; " "; " "; "b"]%char; ["c"]%char].
Proof.
  apply (commands_string_never_empty (fun _ => "x"%char)
    ["a"; "&"; newline; "b"; newline; newline; "c"; NUL; "z"]%char
    ["a"; "&"; newline; "b"; newline; newline; "c"]%char
    [["a"; " "; " "; "b"]%char; ["c"]%char]).
  - reflexivity.
  - by vm_compute.
  - by vm_compute.
Defined.

Lemma extract_compute_invokes_witness :
  0 = 0
  /\ exists c,
       load [Compute.mk 0 1 0 0 0 5 4 5 5 5] 0 = Some c
       /\ flag_of c Compute.vector <> 0
       /\ [(0, Compute.compute_vector)]
          = if decide (invoked c (method_of Compute.vector) <> 5)
            then [(0, method_of Compute.vector)] else [].
Proof.
  apply (extract_compute_invokes [Compute.mk 0 1 0 0 0 5 4 5 5 5]
           (fun _ => 0) 5 "c" 0 1 (Some (0, Compute.vector))
           [(0, Compute.compute_vector)]).
  reflexivity.
Defined.
